(** * Dice Mining Validator: block grouping and chain validation

    A shallow embedding of the validation core of the repository
    ([validation/gameRules.ts], [types.ts]) and of the block grouper
    ([vision/diceDetector.ts], [groupDiceIntoBlocks]).
    Further sections embed the duplicate filter of the detector
    ([removeDuplicateDetections], [calculateOverlap]), the score count
    ([calculateScores]), and the handlers of the review screen
    ([components/BlockReview.tsx]) and the grouping of the results screen
    ([components/ValidationResults.tsx]).

    Numbers.  JavaScript numbers are IEEE doubles.  The development keeps
    the two kinds of number the code manipulates apart:
    - pip counts, totals, the difficulty and column indices are integers
      ([Z]); a column is the result of [Math.round];
    - pixel coordinates, sizes and averages are exact rationals ([Q]).
    Rounding error and [NaN] are outside the model: [Math.sqrt (s) < t] is
    read as [0 < t /\ s < t * t], and a division is exact.  The one infinity
    the code can produce from finite input without dividing by zero,
    [Math.max()] of no argument, is modelled ([None] for [-Infinity]).  A
    zero divisor, which JavaScript answers with [Infinity] or [NaN], is
    excluded by hypothesis wherever a statement depends on the quotient.

    Strings are [string]; the [Map] of the chain extractor is a [gmap], the
    [Set] of used indices of the grouper a [gset].  The [Map] of the results
    screen, whose keys the code reads in insertion order, is an association
    list; a quotient by zero in [calculateOverlap] is computed as JavaScript
    does ([jsNumber]). *)

From Stdlib Require Import ZArith QArith Qround Qminmax Lia.
From Stdlib Require Import Lqa.
From stdpp Require Import gmap strings list sorting pretty.

(** ** Data model ([types.ts]) *)

Inductive DiceColor := red | orange | yellow | green | blue | purple.

#[global] Instance DiceColor_eq_dec : EqDecision DiceColor.
Proof. solve_decision. Defined.

(** The string behind each member of the union type [DiceColor]. *)
Definition colorName (c : DiceColor) : string :=
  match c with
  | red => "red" | orange => "orange" | yellow => "yellow"
  | green => "green" | blue => "blue" | purple => "purple"
  end.

Definition DICE_COLORS : list DiceColor :=
  [red; orange; yellow; green; blue; purple].

(** [VALUE_TO_COLOR[n]]: a property lookup, [undefined] ([None]) for any
    key other than 1..6. *)
Definition VALUE_TO_COLOR (n : Z) : option DiceColor :=
  match n with
  | 1%Z => Some red
  | 2%Z => Some orange
  | 3%Z => Some yellow
  | 4%Z => Some green
  | 5%Z => Some blue
  | 6%Z => Some purple
  | _ => None
  end.

Definition COLOR_TO_VALUE (c : DiceColor) : Z :=
  match c with
  | red => 1
  | orange => 2
  | yellow => 3
  | green => 4
  | blue => 5
  | purple => 6
  end%Z.

Definition GENESIS_PATTERN : list DiceColor :=
  [red; red; orange; orange; yellow; yellow; green; green; green].

Definition GENESIS_VALUES : list Z := [1; 1; 2; 2; 3; 3; 4; 4; 4]%Z.

Record Bounds := mkBounds { x : Q; y : Q; width : Q; height : Q }.

Record DetectedDie := mkDie {
  color : DiceColor;
  pips : Z;
  confidence : Q;
  bounds : Bounds
}.

Record Position := mkPosition { pos_x : Q; pos_y : Q }.

Record DetectedBlock := mkBlock {
  id : string;
  dice : list DetectedDie;
  total : Z;
  trayColor : string;
  position : Position;
  column : Z
}.

(** [ValidatedBlock extends DetectedBlock]: the overlay the chain rule
    engine adds.  [predecessorId] is [string | null]. *)
Record ValidatedBlock := mkValidated {
  detected :> DetectedBlock;
  isGenesis : bool;
  predecessorId : option string;
  isValid : bool;
  errors : list string;
  requiredColors : list (option DiceColor)
}.

Record ValidationResult := mkResult {
  blocks : list ValidatedBlock;
  longestChain : list string;
  totalBlocks : nat;
  validBlocks : nat;
  invalidBlocks : nat;
  difficulty : Z
}.

(** ** [Array.prototype.sort]

    The sort of the language is stable.  For a comparator that is a total
    preorder every stable sort returns the same array, so insertion sort
    stands for it. *)

Section StableSort.
Context {A : Type} (le : A -> A -> bool).

Fixpoint insert_sorted (a : A) (l : list A) : list A :=
  match l with
  | [] => [a]
  | b :: l' => if le a b then a :: l else b :: insert_sorted a l'
  end.

Definition stable_sort (l : list A) : list A := foldr insert_sorted [] l.

(** The comparator as a relation. *)
Definition leProp (a b : A) : Prop := le a b = true.
End StableSort.

(** [sort()] without a comparator orders by the UTF-16 code units of the
    strings and moves every [undefined] to the end. *)
Definition colorLe (a b : DiceColor) : bool :=
  String.leb (colorName a) (colorName b).

Definition jsColorLe (a b : option DiceColor) : bool :=
  match a, b with
  | Some c, Some d => colorLe c d
  | Some _, None => true
  | None, Some _ => false
  | None, None => true
  end.

(** [xs.every((c, i) => c === ys[i])]. *)
Definition everyEqual {A : Type} `{EqDecision A} (xs ys : list A) : bool :=
  forallb (fun i => bool_decide (xs !! i = ys !! i)) (seq 0 (length xs)).

(** ** Chain rules ([validation/gameRules.ts]) *)

Definition getRequiredColors (ds : list DetectedDie) : list (option DiceColor) :=
  map (fun d => VALUE_TO_COLOR (pips d)) ds.

Definition isGenesisBlock (b : DetectedBlock) : bool :=
  let colors := stable_sort colorLe (map color (dice b)) in
  let genesisColors := stable_sort colorLe GENESIS_PATTERN in
  if negb (length colors =? length genesisColors)%nat then false
  else everyEqual colors genesisColors.

Definition canBePredecessor (blockA blockB : DetectedBlock) : bool :=
  let requiredColors := getRequiredColors (dice blockA) in
  let actualColors := map color (dice blockB) in
  let sortedRequired := stable_sort jsColorLe requiredColors in
  let sortedActual := stable_sort colorLe actualColors in
  if negb (length sortedRequired =? length sortedActual)%nat then false
  else forallb (fun i => bool_decide (sortedRequired !! i = (Some <$> sortedActual !! i)))
         (seq 0 (length sortedRequired)).

(** *** Column assignment *)

(** [Array.prototype.findIndex]; [None] stands for [-1]. *)
Fixpoint findIndex {A : Type} (p : A -> bool) (l : list A) : option nat :=
  match l with
  | [] => None
  | a :: l' => if p a then Some 0%nat else S <$> findIndex p l'
  end.

Definition Qltb (a b : Q) : bool := negb (Qle_bool b a).

(** [Math.max(...ws)].  [None] stands for [-Infinity], the value for an
    empty argument list. *)
Definition mathMax (ws : list Q) : option Q :=
  match ws with
  | [] => None
  | w :: ws' => Some (fold_left Qmax ws' w)
  end.

(** [Math.round]: the nearest integer, halves rounded towards [+Infinity]. *)
Definition mathRound (q : Q) : Z := Qfloor (q + (1 # 2)).

(** [sum + m * 3], where [None] is [-Infinity]: a sum with one infinite term
    is infinite. *)
Definition addTrayWidth (sum m : option Q) : option Q :=
  match sum, m with
  | Some s, Some w => Some (s + w * 3)%Q
  | _, _ => None
  end.

Definition avgWidth (bs : list DetectedBlock) : option Q :=
  match
    fold_left (fun sum b =>
      let diceWidths := map (fun d => width (bounds d)) (dice b) in
      addTrayWidth sum (mathMax diceWidths)) bs (Some 0%Q)
  with
  | Some sum => Some (sum / inject_Z (Z.of_nat (length bs)))%Q
  | None => None
  end.

(** [Math.round(a / columnWidth)] for a finite [a].  A quotient by
    [-Infinity] is a zero and rounds to a zero; the code does not tell [-0]
    from [0] ([===], subtraction and template strings treat them alike), so
    both are the column [0]. *)
Definition roundQuotient (a : Q) (columnWidth : option Q) : Z :=
  match columnWidth with
  | Some w => mathRound (a / w)
  | None => 0%Z
  end.

Definition setColumn (b : DetectedBlock) (c : Z) : DetectedBlock :=
  mkBlock (id b) (dice b) (total b) (trayColor b) (position b) c.

Definition byPositionX (a b : DetectedBlock) : bool :=
  Qle_bool (pos_x (position a)) (pos_x (position b)).

(** [sortedByX[0]] and [blocks[genesisIndex]] exist whenever the code reads
    them; the [[]] branches of the two lookups below are never taken
    ([assignColumns_anchored], [assignColumns_unanchored]). *)
Definition assignColumns (bs : list DetectedBlock) : list DetectedBlock :=
  match bs with
  | [] => []
  | _ :: _ =>
    let columnWidth := (fun w => w * (3 # 2))%Q <$> avgWidth bs in
    match findIndex isGenesisBlock bs with
    | None =>
      match stable_sort byPositionX bs with
      | [] => []
      | leftmost :: _ =>
        let minX := pos_x (position leftmost) in
        map (fun block =>
          setColumn block
            (roundQuotient (pos_x (position block) - minX)%Q columnWidth)) bs
      end
    | Some genesisIndex =>
      match bs !! genesisIndex with
      | None => []
      | Some genesisBlock =>
        let genesisX := pos_x (position genesisBlock) in
        let blocksToRight :=
          length (filter (fun b => Qltb genesisX (pos_x (position b)) = true) bs) in
        let blocksToLeft :=
          length (filter (fun b => Qltb (pos_x (position b)) genesisX = true) bs) in
        let direction : Q := if (blocksToLeft <=? blocksToRight)%nat then 1%Q else (-1)%Q in
        map (fun block =>
          setColumn block
            (Z.max 0 (roundQuotient
                        ((pos_x (position block) - genesisX) * direction)%Q
                        columnWidth))) bs
      end
    end
  end.

(** *** Per-block validation *)

(** [countColors]: the six counters in the insertion order of the record's
    keys; an [undefined] entry increments no counter that survives the
    [count > 0] filter. *)
Definition countColors (colors : list (option DiceColor)) : string :=
  String.concat ", "
    (map (fun cn : DiceColor * nat => pretty (snd cn) +:+ " " +:+ colorName (fst cn))
       (filter (fun cn : DiceColor * nat => (0 < snd cn)%nat)
          (map (fun c => (c, length (filter (fun o => o = Some c) colors)))
             DICE_COLORS))).

Definition expectedTotal : Z := fold_left Z.add GENESIS_VALUES 0%Z.

Definition msgGenesisColumn : string := "Genesis block should be in column 0".

Definition msgGenesisTotal (t : Z) : string :=
  "Genesis total " +:+ pretty t +:+ " doesn't match expected " +:+ pretty expectedTotal.

Definition msgExceeds (t d : Z) : string :=
  "Total " +:+ pretty t +:+ " exceeds difficulty " +:+ pretty d.

Definition msgNoColumn (c : Z) : string :=
  "No valid blocks in column " +:+ pretty c +:+ " to build on".

Definition msgNoMatch : string := "Dice colors do not match any predecessor's values".

Definition msgRequiredGot (required actual : list (option DiceColor)) : string :=
  "Required: " +:+ countColors required +:+ ", Got: " +:+ countColors actual.

Definition isCandidateFor (block : DetectedBlock) (vb : ValidatedBlock) : bool :=
  (column vb =? column block - 1)%Z && isValid vb.

(** The state of one iteration of the loop of [buildChain]:
    [errors], [predecessorId], [isValid]. *)
Definition genesisChecks (block : DetectedBlock)
  : list string * option string * bool :=
  let errors := [] in
  let isValid := true in
  let '(errors, isValid) :=
    if negb (column block =? 0)%Z
    then (errors ++ [msgGenesisColumn], false) else (errors, isValid) in
  let errors :=
    if negb (total block =? expectedTotal)%Z
    then errors ++ [msgGenesisTotal (total block)] else errors in
  (errors, None, isValid).

Definition successorChecks (difficulty : Z) (validatedBlocks : list ValidatedBlock)
    (block : DetectedBlock) : list string * option string * bool :=
  let errors := [] in
  let isValid := true in
  let '(errors, isValid) :=
    if (difficulty <? total block)%Z
    then (errors ++ [msgExceeds (total block) difficulty], false)
    else (errors, isValid) in
  let predecessorCandidates :=
    filter (fun vb => isCandidateFor block vb = true) validatedBlocks in
  if (length predecessorCandidates =? 0)%nat
  then (errors ++ [msgNoColumn (column block - 1)], None, false)
  else
    match find (fun candidate : ValidatedBlock => canBePredecessor candidate block)
               predecessorCandidates with
    | Some candidate => (errors, Some (id candidate), isValid)
    | None =>
      let errors := errors ++ [msgNoMatch] in
      let errors :=
        match predecessorCandidates with
        | [pred] =>
          errors ++ [msgRequiredGot (getRequiredColors (dice pred))
                       (map (fun d => Some (color d)) (dice block))]
        | _ => errors
        end in
      (errors, None, false)
    end.

Definition validateBlock (difficulty : Z) (validatedBlocks : list ValidatedBlock)
    (block : DetectedBlock) : ValidatedBlock :=
  let blockIsGenesis := isGenesisBlock block in
  let '(errors, predecessorId, isValid) :=
    if blockIsGenesis then genesisChecks block
    else successorChecks difficulty validatedBlocks block in
  mkValidated block blockIsGenesis predecessorId isValid errors
    (getRequiredColors (dice block)).

Definition byColumn (a b : DetectedBlock) : bool := (column a <=? column b)%Z.

(** The loop of [buildChain] over the blocks sorted by column. *)
Definition validateAll (difficulty : Z) (sortedBlocks : list DetectedBlock)
  : list ValidatedBlock :=
  foldl (fun validatedBlocks block =>
           validatedBlocks ++ [validateBlock difficulty validatedBlocks block])
        [] sortedBlocks.

Definition buildChain (bs : list DetectedBlock) (difficulty : Z)
  : list ValidatedBlock :=
  match bs with
  | [] => []
  | _ :: _ =>
    let blocksWithColumns := assignColumns bs in
    let sortedBlocks := stable_sort byColumn blocksWithColumns in
    validateAll difficulty sortedBlocks
  end.

(** *** Longest chain *)

(** [block.predecessorId && block.isValid]: [null] and the empty string are
    falsy. *)
Definition recordsEdge (b : ValidatedBlock) : option string :=
  match predecessorId b with
  | Some p => if negb (String.eqb p "") && isValid b then Some p else None
  | None => None
  end.

Definition addChild (children : gmap string (list string)) (b : ValidatedBlock)
  : gmap string (list string) :=
  match recordsEdge b with
  | Some p =>
    let existing := default [] (children !! p) in
    <[p := existing ++ [id b]]> children
  | None => children
  end.

Definition buildChildren (bs : list ValidatedBlock) : gmap string (list string) :=
  foldl addChild ∅ bs.

(** One iteration of the loop over [childIds]: [visit] is the recursive
    call, [acc] the chain in [longestChild]; [None] is a call that did not
    return. *)
Definition keepLongest (visit : string -> option (list string))
    (acc : option (list string)) (childId : string) : option (list string) :=
  match acc with
  | None => None
  | Some longestChild =>
    match visit childId with
    | None => None
    | Some childChain =>
      if (length longestChild <? length childChain)%nat
      then Some childChain else Some longestChild
    end
  end.

(** The recursion of [findLongestFromNode] is not structural; [fuel] bounds
    the depth of the call stack and [None] is a computation that exhausts
    it. *)
Fixpoint findLongestFromNode (fuel : nat) (children : gmap string (list string))
    (nodeId : string) : option (list string) :=
  match fuel with
  | O => None
  | S fuel' =>
    let childIds := default [] (children !! nodeId) in
    if (length childIds =? 0)%nat then Some [nodeId]
    else
      match foldl (keepLongest (findLongestFromNode fuel' children))
                  (Some []) childIds with
      | None => None
      | Some longestChild => Some (nodeId :: longestChild)
      end
  end.

Definition findLongestChain (fuel : nat) (bs : list ValidatedBlock)
  : option (list string) :=
  match bs with
  | [] => Some []
  | _ :: _ =>
    let children := buildChildren bs in
    match find isGenesis bs with
    | None => Some []
    | Some genesis => findLongestFromNode fuel children (id genesis)
    end
  end.

Definition validateBlocks (fuel : nat) (bs : list DetectedBlock) (difficulty : Z)
  : option ValidationResult :=
  let validatedBlocks := buildChain bs difficulty in
  match findLongestChain fuel validatedBlocks with
  | None => None
  | Some longestChain =>
    let validBlocks := length (filter (fun b => isValid b = true) validatedBlocks) in
    let invalidBlocks := length (filter (fun b => negb (isValid b) = true) validatedBlocks) in
    Some (mkResult validatedBlocks longestChain (length validatedBlocks)
            validBlocks invalidBlocks difficulty)
  end.

(** ** Block grouper ([vision/diceDetector.ts]) *)

Definition byBoundsX (a b : DetectedDie) : bool :=
  Qle_bool (x (bounds a)) (x (bounds b)).

Definition avgDieSize (ds : list DetectedDie) : Q :=
  (fold_left (fun sum d => sum + (width (bounds d) + height (bounds d)) / 2) ds 0
   / inject_Z (Z.of_nat (length ds)))%Q.

Definition clusterThreshold (ds : list DetectedDie) : Q :=
  (avgDieSize ds * (5 # 2))%Q.

(** The argument of [Math.sqrt]: the squared distance between the origins
    ([bounds.x], [bounds.y]) of two bounding boxes. *)
Definition sqDist (a b : DetectedDie) : Q :=
  ((x (bounds a) - x (bounds b)) * (x (bounds a) - x (bounds b))
   + (y (bounds a) - y (bounds b)) * (y (bounds a) - y (bounds b)))%Q.

(** [dist < clusterThreshold]. *)
Definition distBelow (t : Q) (a b : DetectedDie) : bool :=
  Qltb 0 t && Qltb (sqDist a b) (t * t).

(** The innermost loop: [isNearby] after scanning the cluster. *)
Definition isNearby (t : Q) (dieJ : DetectedDie) (cluster : list DetectedDie) : bool :=
  existsb (fun clusterDie => distBelow t dieJ clusterDie) cluster.

(** One iteration of the loop over [j]; [sortedDice[j]] exists for every [j]
    the loop visits. *)
Definition absorb (sortedDice : list DetectedDie) (t : Q)
    (st : list DetectedDie * gset nat) (j : nat) : list DetectedDie * gset nat :=
  let '(cluster, used) := st in
  if bool_decide (j ∈ used) then st
  else
    match sortedDice !! j with
    | None => st
    | Some dieJ =>
      if isNearby t dieJ cluster then (cluster ++ [dieJ], {[j]} ∪ used) else st
    end.

(** The loop over [j = i + 1 .. length - 1] for the seed [i]. *)
Definition growCluster (sortedDice : list DetectedDie) (t : Q) (i : nat)
    (dieI : DetectedDie) (used : gset nat) : list DetectedDie * gset nat :=
  foldl (absorb sortedDice t) ([dieI], {[i]} ∪ used)
        (seq (S i) (length sortedDice - S i)).

Definition blockOfCluster (n : nat) (cluster : list DetectedDie) : DetectedBlock :=
  let len := inject_Z (Z.of_nat (length cluster)) in
  let centerX :=
    (fold_left (fun sum d => sum + x (bounds d) + width (bounds d) / 2) cluster 0 / len)%Q in
  let centerY :=
    (fold_left (fun sum d => sum + y (bounds d) + height (bounds d) / 2) cluster 0 / len)%Q in
  let total := fold_left (fun sum d => sum + pips d)%Z cluster 0%Z in
  mkBlock ("block-" +:+ pretty n) cluster total "#888888"
          (mkPosition centerX centerY) 0.

(** The state of the outer loop.  [formed] is a ghost field: it records every
    cluster the loop builds, also those the size test discards. *)
Record GroupState := mkGroupState {
  formed : list (list DetectedDie);
  grouped : list DetectedBlock;
  used : gset nat
}.

(** One iteration of the loop over [i]. *)
Definition seedCluster (sortedDice : list DetectedDie) (t : Q)
    (st : GroupState) (i : nat) : GroupState :=
  if bool_decide (i ∈ used st) then st
  else
    match sortedDice !! i with
    | None => st
    | Some dieI =>
      let '(cluster, used') := growCluster sortedDice t i dieI (used st) in
      let blocks' :=
        if (7 <=? length cluster)%nat && (length cluster <=? 11)%nat
        then grouped st ++ [blockOfCluster (length (grouped st)) cluster]
        else grouped st in
      mkGroupState (formed st ++ [cluster]) blocks' used'
    end.

Definition groupLoop (ds : list DetectedDie) : GroupState :=
  let sortedDice := stable_sort byBoundsX ds in
  let t := clusterThreshold ds in
  foldl (seedCluster sortedDice t) (mkGroupState [] [] ∅)
        (seq 0 (length sortedDice)).

Definition groupDiceIntoBlocks (ds : list DetectedDie) : list DetectedBlock :=
  match ds with
  | [] => []
  | _ :: _ => grouped (groupLoop ds)
  end.

(** Every cluster formed by [groupDiceIntoBlocks], in order of formation. *)
Definition formClusters (ds : list DetectedDie) : list (list DetectedDie) :=
  match ds with
  | [] => []
  | _ :: _ => formed (groupLoop ds)
  end.

(** ** Concrete inputs *)

Module Examples.

Definition box (bx by_ s : Z) : Bounds :=
  mkBounds (inject_Z bx) (inject_Z by_) (inject_Z s) (inject_Z s).

Definition die (c : DiceColor) (p : Z) (bx by_ s : Z) : DetectedDie :=
  mkDie c p 1%Q (box bx by_ s).

(** Nine dice of a 3x3 tray whose top-left die sits at ([ox], [oy]);
    colours and pips are given row by row. *)
Definition tray (ox oy : Z) (cps : list (DiceColor * Z)) : list DetectedDie :=
  imap (fun k cp =>
          die (fst cp) (snd cp)
              (ox + 12 * Z.of_nat (k mod 3)) (oy + 12 * Z.of_nat (k / 3)) 10) cps.

(** The genesis colours, with pips adding up to 24. *)
Definition genesisFaces : list (DiceColor * Z) :=
  [(red, 1); (red, 2); (orange, 3); (orange, 4); (yellow, 5); (yellow, 6);
   (green, 1); (green, 1); (green, 1)]%Z.

(** The colours required by the pips of [genesisFaces], with pips adding
    up to 22. *)
Definition secondFaces : list (DiceColor * Z) :=
  [(red, 1); (orange, 1); (yellow, 2); (green, 2); (blue, 3); (purple, 3);
   (red, 4); (red, 3); (red, 3)]%Z.

Definition mk (name : string) (ox : Z) (faces : list (DiceColor * Z)) : DetectedBlock :=
  let ds := tray ox 0 faces in
  mkBlock name ds (fold_left (fun s d => s + pips d)%Z ds 0%Z) "#888888"
          (mkPosition (inject_Z ox + 17) 17) 0.

(** The colours of [secondFaces], with pips adding up to 30. *)
Definition heavyFaces : list (DiceColor * Z) :=
  [(red, 6); (orange, 6); (yellow, 6); (green, 6); (blue, 1); (purple, 1);
   (red, 1); (red, 1); (red, 2)]%Z.

(** Nine blue dice. *)
Definition blueFaces : list (DiceColor * Z) :=
  [(blue, 1); (blue, 1); (blue, 1); (blue, 1); (blue, 1); (blue, 1);
   (blue, 1); (blue, 1); (blue, 1)]%Z.

Definition genesisAt (name : string) (ox : Z) := mk name ox genesisFaces.
Definition secondAt (name : string) (ox : Z) := mk name ox secondFaces.

(** Scenario B of the specification: a genesis tray and one successor. *)
Definition twoBlocks : list DetectedBlock :=
  [genesisAt "block-0" 0; secondAt "block-1" 54].

(** Two trays that both show the genesis pattern. *)
Definition twoGenesis : list DetectedBlock :=
  [genesisAt "block-0" 0; genesisAt "block-1" 1000].

(** Three small dice A, B, C in a column and a large die D. *)
Definition dieA := die red 1 0 0 4.
Definition dieB := die red 1 1 150 4.
Definition dieC := die red 1 2 75 4.
Definition dieD := die red 1 70 70 160.
Definition fourDice : list DetectedDie := [dieA; dieB; dieC; dieD].

(** Seven dice of a tray and two dice far away. *)
Definition sevenAndTwo : list DetectedDie :=
  take 7 (tray 0 0 genesisFaces) ++ [die red 1 500 0 10; die red 1 512 0 10].

(** A result list whose only block shows the genesis pattern and was
    found invalid. *)
Definition invalidGenesis : list ValidatedBlock :=
  [mkValidated (setColumn (genesisAt "block-0" 0) 3) true None false
     [msgGenesisColumn] (getRequiredColors (dice (genesisAt "block-0" 0)))].

(** A tray whose dice show the values that [COLOR_TO_VALUE] gives their
    colours: the genesis pattern with the genesis values. *)
Definition canonicalFaces : list (DiceColor * Z) :=
  [(red, 1); (red, 1); (orange, 2); (orange, 2); (yellow, 3); (yellow, 3);
   (green, 4); (green, 4); (green, 4)]%Z.

Definition canonicalAt (name : string) (ox : Z) := mk name ox canonicalFaces.

(** A canonical genesis tray and a tray that matches its values. *)
Definition canonicalPair : list DetectedBlock :=
  [canonicalAt "block-0" 0; canonicalAt "block-1" 54].

End Examples.

(** ** Vocabulary of the statements *)

(** The number of dice of a given colour. *)
Definition colorCount (c : DiceColor) (b : DetectedBlock) : nat :=
  count_occ DiceColor_eq_dec (map color (dice b)) c.

Definition genesisCount (c : DiceColor) : nat :=
  match c with
  | red | orange | yellow => 2
  | green => 3
  | blue | purple => 0
  end.

(** Every bounding box of the block has a positive width. *)
Definition positiveWidths (b : DetectedBlock) : bool :=
  forallb (fun d => Qltb 0 (width (bounds d))) (dice b).

(** What the threshold check of a non-genesis block appends to [errors]. *)
Definition thresholdErrors (d : Z) (b : DetectedBlock) : list string :=
  if (d <? total b)%Z then [msgExceeds (total b) d] else [].

(** A diagnostic of the predecessor search. *)
Definition searchDiagnostic (s : string) : Prop :=
  (exists c, s = msgNoColumn c)
  \/ s = msgNoMatch
  \/ (exists required actual, s = msgRequiredGot required actual).

(** The ids [children.get(p)] holds once the adjacency map is built: the
    blocks that record an edge to [p], in array order. *)
Definition childrenOf (bs : list ValidatedBlock) (p : string) : list string :=
  map (fun b : ValidatedBlock => id b) (filter (fun b => recordsEdge b = Some p) bs).

(** The predecessor relation of a list of validated blocks. *)
Definition linksTo (bs : list ValidatedBlock) (b q : ValidatedBlock) : Prop :=
  b ∈ bs /\ q ∈ bs /\ predecessorId b = Some (id q).

(** The graph of the grouper: two dice of [c] are adjacent when the
    distance between the origins of their bounding boxes is below [t]. *)
Definition nearIn (t : Q) (c : list DetectedDie) (a b : DetectedDie) : Prop :=
  a ∈ c /\ b ∈ c /\ distBelow t a b = true.

(** [c] is connected: any two of its dice are joined by a chain of adjacent
    dice of [c]. *)
Definition connected (t : Q) (c : list DetectedDie) : Prop :=
  forall a b, a ∈ c -> b ∈ c -> rtc (nearIn t c) a b.

Definition acceptedSize (c : list DetectedDie) : Prop :=
  (7 <= length c <= 11)%nat.

(** The same graph on the centres of the bounding boxes. *)
Definition centerX (d : DetectedDie) : Q := (x (bounds d) + width (bounds d) / 2)%Q.
Definition centerY (d : DetectedDie) : Q := (y (bounds d) + height (bounds d) / 2)%Q.





(** The dice at the indices of [U]. *)
Definition diceAt (sortedDice : list DetectedDie) (U : gset nat) : list DetectedDie :=
  omap (fun k => sortedDice !! k)
       (filter (fun k => k ∈ U) (seq 0 (length sortedDice))).

(** Invariant of the loop over [j] of the grouper for the seed [s]: [pre]
    holds the dice of the clusters formed before, [U0] the indices used when
    the loop started. *)
Definition growInv (sortedDice : list DetectedDie) (t : Q)
    (pre : list DetectedDie) (s : DetectedDie) (U0 : gset nat)
    (st : list DetectedDie * gset nat) : Prop :=
  s ∈ st.1
  /\ (forall a, a ∈ st.1 -> rtc (nearIn t st.1) s a)
  /\ pre ++ st.1 ≡ₚ diceAt sortedDice st.2
  /\ U0 ⊆ st.2.

(** Invariant of the loop over [i] of the grouper. *)
Definition groupInv (sortedDice : list DetectedDie) (t : Q)
    (i : nat) (st : GroupState) : Prop :=
  concat (formed st) ≡ₚ diceAt sortedDice (used st)
  /\ (forall k, (k < i)%nat -> k ∈ used st)
  /\ (forall c, c ∈ formed st -> connected t c)
  /\ map dice (grouped st) = filter acceptedSize (formed st).

(** The projection of a validated block the scenarios speak about. *)
Definition verdict (vb : ValidatedBlock)
  : string * Z * bool * bool * option string * list string :=
  (id vb, column vb, isGenesis vb, isValid vb, predecessorId vb, errors vb).

(** ** Overlap and duplicate detections ([vision/diceDetector.ts]) *)

(** The value of a division of two finite numbers: a zero divisor gives an
    infinity with the sign of the dividend, or [NaN] for [0 / 0]. *)
Inductive jsNumber := Finite (q : Q) | PosInfinity | NegInfinity | NotANumber.

Definition jsDiv (a b : Q) : jsNumber :=
  if Qeq_bool b 0 then
    if Qltb 0 a then PosInfinity
    else if Qltb a 0 then NegInfinity else NotANumber
  else Finite (a / b).

(** [n > q]; a comparison with [NaN] is false. *)
Definition jsGreater (n : jsNumber) (q : Q) : bool :=
  match n with
  | Finite v => Qltb q v
  | PosInfinity => true
  | NegInfinity | NotANumber => false
  end.

Definition calculateOverlap (a b : Bounds) : jsNumber :=
  let x1 := Qmax (x a) (x b) in
  let y1 := Qmax (y a) (y b) in
  let x2 := Qmin (x a + width a) (x b + width b) in
  let y2 := Qmin (y a + height a) (y b + height b) in
  if Qltb x2 x1 || Qltb y2 y1 then Finite 0
  else
    let intersectionArea := ((x2 - x1) * (y2 - y1))%Q in
    let aArea := (width a * height a)%Q in
    let bArea := (width b * height b)%Q in
    let unionArea := (aArea + bArea - intersectionArea)%Q in
    jsDiv intersectionArea unionArea.

Definition overlapsMuch (die existing : DetectedDie) : bool :=
  jsGreater (calculateOverlap (bounds die) (bounds existing)) (1 # 2).

(** One iteration of the loop of [removeDuplicateDetections].  The inner
    loop stops at the first [existing] that overlaps; the dice of the input
    are distinct objects, so [filtered.indexOf(existing)] is the position
    the inner loop stopped at. *)
Definition keepDetection (filtered : list DetectedDie) (die : DetectedDie)
  : list DetectedDie :=
  match findIndex (fun existing => overlapsMuch die existing) filtered with
  | Some idx =>
    match filtered !! idx with
    | Some existing =>
      if Qltb (confidence existing) (confidence die)
      then <[idx := die]> filtered else filtered
    | None => filtered
    end
  | None => filtered ++ [die]
  end.

Definition removeDuplicateDetections (ds : list DetectedDie) : list DetectedDie :=
  foldl keepDetection [] ds.

(** Two results are the same number. *)
Definition jsSame (m n : jsNumber) : Prop :=
  match m, n with
  | Finite p, Finite q => (p == q)%Q
  | PosInfinity, PosInfinity | NegInfinity, NegInfinity
  | NotANumber, NotANumber => True
  | _, _ => False
  end.

(** ** Vocabulary of the further properties *)

(** A validated block is rooted when valid predecessor links lead from it,
    one column at a time, to a valid genesis block in column 0. *)
Inductive rooted (vbs : list ValidatedBlock) : ValidatedBlock -> Prop :=
| rooted_genesis (g : ValidatedBlock) :
    g ∈ vbs -> isGenesis g = true -> isValid g = true -> column g = 0%Z ->
    rooted vbs g
| rooted_step (b q : ValidatedBlock) :
    b ∈ vbs -> isGenesis b = false -> isValid b = true ->
    predecessorId b = Some (id q) -> column b = (column q + 1)%Z ->
    canBePredecessor q b = true -> rooted vbs q ->
    rooted vbs b.

(** A sequence of ids in which every id is recorded as a child of the id
    before it. *)
Fixpoint isPath (children : gmap string (list string)) (chain : list string) : Prop :=
  match chain with
  | [] => True
  | nodeId :: rest =>
    match rest with
    | [] => True
    | childId :: _ => childId ∈ default [] (children !! nodeId)
    end /\ isPath children rest
  end.

(** The same block validated under two difficulties, valid under the second
    when valid under the first. *)
Definition validityGrows (vb vb' : ValidatedBlock) : Prop :=
  detected vb = detected vb' /\ isGenesis vb = isGenesis vb'
  /\ (isValid vb = true -> isValid vb' = true).

(** ** Scores ([validation/gameRules.ts]) *)

(** One iteration of the loop of [calculateScores]; [scores.get(playerId) || 0]
    is the entry of the player, 0 without one. *)
Definition addScore (chainBlockIds : gset string) (scores : gmap string nat)
    (block : ValidatedBlock) : gmap string nat :=
  if bool_decide (id block ∈ chainBlockIds) && negb (isGenesis block) then
    let playerId := trayColor block in
    let currentScore := default 0%nat (scores !! playerId) in
    <[playerId := (currentScore + 1)%nat]> scores
  else scores.

Definition calculateScores (result : ValidationResult) : gmap string nat :=
  let chainBlockIds : gset string := list_to_set (longestChain result) in
  foldl (addScore chainBlockIds) ∅ (blocks result).

(** The blocks of a result that count for [player]: on the chain, not
    flagged as genesis, in a tray of the player's colour. *)
Definition scoringBlocks (result : ValidationResult) (player : string)
  : list ValidatedBlock :=
  filter (fun b : ValidatedBlock =>
            id b ∈ longestChain result /\ isGenesis b = false /\ trayColor b = player)
         (blocks result).

Definition totalScore (scores : gmap string nat) : nat :=
  map_fold (fun _ n s => (n + s)%nat) 0%nat scores.

(** Two blocks with the same position, the same dice colours and the same
    dice widths, in the same order. *)
Definition sameLayout (b b' : DetectedBlock) : Prop :=
  position b = position b'
  /\ map color (dice b) = map color (dice b')
  /\ map (fun d => width (bounds d)) (dice b) = map (fun d => width (bounds d)) (dice b').

(** ** The review screen ([components/BlockReview.tsx]) *)

(** What a handler does: it returns, it throws, or it leaves a value that
    is no [DetectedBlock[]]. *)
Inductive outcome (A : Type) := Returns (a : A) | Throws | Malformed.
Arguments Returns {A} a.
Arguments Throws {A}.
Arguments Malformed {A}.

Record ReviewState := mkReview {
  editedBlocks : list DetectedBlock;
  selectedBlockIndex : option nat;
  selectedDieIndex : option nat
}.

Definition insideBounds (px py : Q) (die : DetectedDie) : bool :=
  Qle_bool (x (bounds die)) px
  && Qle_bool px (x (bounds die) + width (bounds die))
  && Qle_bool (y (bounds die)) py
  && Qle_bool py (y (bounds die) + height (bounds die)).

(** The two loops of [handleCanvasClick], from block [blockIndex] on. *)
Fixpoint findClickedDie (px py : Q) (blocks : list DetectedBlock) (blockIndex : nat)
  : option (nat * nat) :=
  match blocks with
  | [] => None
  | block :: rest =>
    match findIndex (insideBounds px py) (dice block) with
    | Some dieIndex => Some (blockIndex, dieIndex)
    | None => findClickedDie px py rest (S blockIndex)
    end
  end.

(** [px], [py]: the click in canvas coordinates, on the mounted canvas. *)
Definition handleCanvasClick (px py : Q) (s : ReviewState) : ReviewState :=
  match findClickedDie px py (editedBlocks s) 0 with
  | Some (blockIndex, dieIndex) =>
    mkReview (editedBlocks s) (Some blockIndex) (Some dieIndex)
  | None => mkReview (editedBlocks s) None None
  end.

(** The click on an entry of the block summary. *)
Definition selectBlock (index : nat) (s : ReviewState) : ReviewState :=
  mkReview (editedBlocks s) (Some index) None.

(** The state updater of [changeDieColor].  Spreading the dice of a block
    that does not exist throws; writing at an index that holds no die
    leaves an object with the one field [color]. *)
Definition colorUpdater (blockIndex dieIndex : nat) (newColor : DiceColor)
    (prev : list DetectedBlock) : outcome (list DetectedBlock) :=
  match prev !! blockIndex with
  | None => Throws
  | Some block =>
    match dice block !! dieIndex with
    | None => Malformed
    | Some die =>
      let dice' :=
        <[dieIndex := mkDie newColor (pips die) (confidence die) (bounds die)]>
          (dice block) in
      let block' :=
        mkBlock (id block) dice' (total block) (trayColor block) (position block)
                (column block) in
      Returns (<[blockIndex := block']> prev)
    end
  end.

(** The state updater of [changeDiePips]; the total is computed anew. *)
Definition pipsUpdater (blockIndex dieIndex : nat) (newPips : Z)
    (prev : list DetectedBlock) : outcome (list DetectedBlock) :=
  match prev !! blockIndex with
  | None => Throws
  | Some block =>
    match dice block !! dieIndex with
    | None => Malformed
    | Some die =>
      let dice' :=
        <[dieIndex := mkDie (color die) newPips (confidence die) (bounds die)]>
          (dice block) in
      let total' := fold_left (fun sum d => sum + pips d)%Z dice' 0%Z in
      let block' :=
        mkBlock (id block) dice' total' (trayColor block) (position block)
                (column block) in
      Returns (<[blockIndex := block']> prev)
    end
  end.

Definition withBlocks (s : ReviewState) (r : outcome (list DetectedBlock))
  : outcome ReviewState :=
  match r with
  | Returns blocks =>
    Returns (mkReview blocks (selectedBlockIndex s) (selectedDieIndex s))
  | Throws => Throws
  | Malformed => Malformed
  end.

Definition changeDieColor (newColor : DiceColor) (s : ReviewState)
  : outcome ReviewState :=
  match selectedBlockIndex s, selectedDieIndex s with
  | Some blockIndex, Some dieIndex =>
    withBlocks s (colorUpdater blockIndex dieIndex newColor (editedBlocks s))
  | _, _ => Returns s
  end.

Definition changeDiePips (newPips : Z) (s : ReviewState) : outcome ReviewState :=
  match selectedBlockIndex s, selectedDieIndex s with
  | Some blockIndex, Some dieIndex =>
    withBlocks s (pipsUpdater blockIndex dieIndex newPips (editedBlocks s))
  | _, _ => Returns s
  end.

(** The events of the screen and a session: the events handled one after
    the other, from the blocks the screen is opened with. *)
Inductive ReviewEvent :=
| CanvasClick (px py : Q)
| SummaryClick (index : nat)
| ColorButton (newColor : DiceColor)
| PipButton (newPips : Z).

Definition handle (s : ReviewState) (e : ReviewEvent) : outcome ReviewState :=
  match e with
  | CanvasClick px py => Returns (handleCanvasClick px py s)
  | SummaryClick index => Returns (selectBlock index s)
  | ColorButton newColor => changeDieColor newColor s
  | PipButton newPips => changeDiePips newPips s
  end.

Fixpoint session (s : ReviewState) (events : list ReviewEvent) : outcome ReviewState :=
  match events with
  | [] => Returns s
  | e :: events' =>
    match handle s e with
    | Returns s' => session s' events'
    | Throws => Throws
    | Malformed => Malformed
    end
  end.

Definition openReview (blocks : list DetectedBlock) : ReviewState :=
  mkReview blocks None None.

(** The selection names a die of the state. *)
Definition selectionInRange (s : ReviewState) : Prop :=
  forall blockIndex dieIndex,
    selectedBlockIndex s = Some blockIndex -> selectedDieIndex s = Some dieIndex ->
    exists block die,
      editedBlocks s !! blockIndex = Some block /\ dice block !! dieIndex = Some die.

Definition totalIsSum (b : DetectedBlock) : Prop :=
  total b = fold_left (fun sum d => sum + pips d)%Z (dice b) 0%Z.

(** Two blocks that differ at most in the colours and pips of their dice
    and in their totals. *)
Definition sameTray (b b' : DetectedBlock) : Prop :=
  id b = id b' /\ trayColor b = trayColor b' /\ position b = position b'
  /\ column b = column b'
  /\ map bounds (dice b) = map bounds (dice b')
  /\ map confidence (dice b) = map confidence (dice b').

(** ** The results screen ([components/ValidationResults.tsx]) *)

(** A [Map<number, ValidatedBlock[]>]: its entries in insertion order. *)
Definition columnMap : Type := list (Z * list ValidatedBlock).

Definition mapGet (m : columnMap) (key : Z) : option (list ValidatedBlock) :=
  snd <$> find (fun entry : Z * list ValidatedBlock => (fst entry =? key)%Z) m.

Fixpoint mapSet (m : columnMap) (key : Z) (value : list ValidatedBlock) : columnMap :=
  match m with
  | [] => [(key, value)]
  | entry :: m' =>
    if (fst entry =? key)%Z then (key, value) :: m'
    else entry :: mapSet m' key value
  end.

Definition addToColumn (blocksByColumn : columnMap) (block : ValidatedBlock)
  : columnMap :=
  let existing := default [] (mapGet blocksByColumn (column block)) in
  mapSet blocksByColumn (column block) (existing ++ [block]).

Definition blocksByColumn (blocks : list ValidatedBlock) : columnMap :=
  foldl addToColumn [] blocks.

Definition columns (blocks : list ValidatedBlock) : list Z :=
  stable_sort Z.leb (map fst (blocksByColumn blocks)).

(** The chain view: for every column, in order, the cards of its blocks. *)
Definition chainColumns (blocks : list ValidatedBlock)
  : list (Z * list ValidatedBlock) :=
  map (fun column => (column, default [] (mapGet (blocksByColumn blocks) column)))
      (columns blocks).

Definition isInChain (longestChain : list string) (block : ValidatedBlock) : bool :=
  let chainBlockIds : gset string := list_to_set longestChain in
  bool_decide (id block ∈ chainBlockIds).

(** The class of a [BlockCard]. *)
Definition statusClass (block : ValidatedBlock) (inChain : bool) : string :=
  if isGenesis block then "genesis"
  else if isValid block then (if inChain then "valid-chain" else "valid")
  else "invalid".

(** The exclamation mark of a [BlockCard]. *)
Definition overDifficulty (block : ValidatedBlock) (difficulty : Z) : bool :=
  negb (isGenesis block) && (difficulty <? total block)%Z.

(** The blocks of one column, in the order of the list. *)
Definition inColumn (c : Z) (blocks : list ValidatedBlock) : list ValidatedBlock :=
  filter (fun b : ValidatedBlock => column b = c) blocks.

(** * Properties *)

(** ** The stable sort *)

Section StableSortFacts.
Context {A : Type} (le : A -> A -> bool).

Lemma insert_sorted_perm a l : insert_sorted le a l ≡ₚ a :: l.
Proof.
  induction l as [|b l IH]; simpl; [done|].
  destruct (le a b); [done|].
  rewrite IH. apply Permutation_swap.
Qed.

Lemma stable_sort_perm l : stable_sort le l ≡ₚ l.
Proof.
  induction l as [|a l IH]; simpl; [done|].
  rewrite insert_sorted_perm. by f_equiv.
Qed.

Lemma stable_sort_length l : length (stable_sort le l) = length l.
Proof. by rewrite stable_sort_perm. Qed.

Hypothesis le_total : forall a b, le a b = true \/ le b a = true.

Lemma insert_sorted_Sorted a l :
  Sorted (leProp le) l -> Sorted (leProp le) (insert_sorted le a l).
Proof.
  induction 1 as [|b l Hl IH Hb]; simpl.
  - repeat constructor.
  - destruct (le a b) eqn:Hab.
    + constructor; [by constructor|]. by constructor.
    + constructor; [done|].
      assert (Hba : (leProp le) b a) by (destruct (le_total a b); [congruence|done]).
      destruct Hb as [|c l' Hbc]; simpl.
      * by constructor.
      * destruct (le a c); by constructor.
Qed.

Lemma stable_sort_Sorted l : Sorted (leProp le) (stable_sort le l).
Proof.
  induction l as [|a l IH]; simpl; [constructor|].
  by apply insert_sorted_Sorted.
Qed.

Hypothesis le_trans : forall a b c, le a b = true -> le b c = true -> le a c = true.
Hypothesis le_antisym : forall a b, le a b = true -> le b a = true -> a = b.

(** Under an antisymmetric order the sorted array is a canonical form of
    the multiset of its elements. *)
Lemma stable_sort_canonical l1 l2 :
  stable_sort le l1 = stable_sort le l2 <-> l1 ≡ₚ l2.
Proof.
  split.
  - intros Heq. by rewrite <-(stable_sort_perm l1), Heq, stable_sort_perm.
  - intros Hp.
    assert (Transitive (leProp le)) by (intros a b c; apply le_trans).
    assert (AntiSymm (=) (leProp le)) by (intros a b; apply le_antisym).
    apply (Sorted_unique (leProp le)); [apply stable_sort_Sorted..|].
    by rewrite !stable_sort_perm.
Qed.
End StableSortFacts.

(** ** The order on colour names *)

Lemma colorLe_total a b : colorLe a b = true \/ colorLe b a = true.
Proof. destruct a, b; vm_compute; auto. Qed.

Lemma colorLe_trans a b c :
  colorLe a b = true -> colorLe b c = true -> colorLe a c = true.
Proof. destruct a, b, c; vm_compute; congruence. Qed.

Lemma colorLe_antisym a b : colorLe a b = true -> colorLe b a = true -> a = b.
Proof. destruct a, b; vm_compute; congruence. Qed.

Lemma jsColorLe_total a b : jsColorLe a b = true \/ jsColorLe b a = true.
Proof. destruct a as [a|], b as [b|]; simpl; auto using colorLe_total. Qed.

Lemma jsColorLe_trans a b c :
  jsColorLe a b = true -> jsColorLe b c = true -> jsColorLe a c = true.
Proof.
  destruct a as [a|], b as [b|], c as [c|]; simpl; try done.
  apply colorLe_trans.
Qed.

Lemma jsColorLe_antisym a b :
  jsColorLe a b = true -> jsColorLe b a = true -> a = b.
Proof.
  destruct a as [a|], b as [b|]; simpl; try done.
  intros H1 H2. f_equal. by apply colorLe_antisym.
Qed.

(** Sorting defined colours among possibly undefined ones. *)
Lemma insert_sorted_Some (a : DiceColor) (l : list DiceColor) :
  Some <$> insert_sorted colorLe a l = insert_sorted jsColorLe (Some a) (Some <$> l).
Proof.
  induction l as [|b l IH]; [done|].
  cbn [insert_sorted fmap list_fmap jsColorLe].
  destruct (colorLe a b); [done|].
  cbn [fmap list_fmap] in *. by rewrite IH.
Qed.

Lemma stable_sort_Some (l : list DiceColor) :
  Some <$> stable_sort colorLe l = stable_sort jsColorLe (Some <$> l).
Proof.
  induction l as [|a l IH]; [done|].
  change (Some <$> insert_sorted colorLe a (stable_sort colorLe l)
          = insert_sorted jsColorLe (Some a) (stable_sort jsColorLe (Some <$> l))).
  by rewrite insert_sorted_Some, IH.
Qed.

Lemma sortColors_canonical (l1 l2 : list DiceColor) :
  stable_sort colorLe l1 = stable_sort colorLe l2 <-> l1 ≡ₚ l2.
Proof.
  apply stable_sort_canonical;
    [apply colorLe_total | apply colorLe_trans | apply colorLe_antisym].
Qed.

Lemma sortJsColors_canonical (l1 l2 : list (option DiceColor)) :
  stable_sort jsColorLe l1 = stable_sort jsColorLe l2 <-> l1 ≡ₚ l2.
Proof.
  apply stable_sort_canonical;
    [apply jsColorLe_total | apply jsColorLe_trans | apply jsColorLe_antisym].
Qed.

(** ** Index-wise comparison *)

Lemma forallb_seq_lookup {A B : Type} `{EqDecision B}
    (f : A -> B) (xs : list B) (ys : list A) :
  length xs = length ys ->
  forallb (fun i => bool_decide (xs !! i = (f <$> ys !! i))) (seq 0 (length xs)) = true
  <-> xs = f <$> ys.
Proof.
  intros Hlen. rewrite forallb_forall. split.
  - intros H. apply list_eq. intros i. rewrite list_lookup_fmap.
    destruct (decide (i < length xs)%nat) as [Hi|Hi].
    + eapply bool_decide_eq_true_1, H, in_seq. lia.
    + rewrite !lookup_ge_None_2; [done|lia..].
  - intros -> i _. apply bool_decide_eq_true_2. by rewrite list_lookup_fmap.
Qed.

Lemma everyEqual_spec {A : Type} `{EqDecision A} (xs ys : list A) :
  length xs = length ys -> everyEqual xs ys = true <-> xs = ys.
Proof.
  intros Hlen. unfold everyEqual. rewrite forallb_forall. split.
  - intros H. apply list_eq. intros i.
    destruct (decide (i < length xs)%nat) as [Hi|Hi].
    + eapply bool_decide_eq_true_1, H, in_seq. lia.
    + rewrite !lookup_ge_None_2; [done|lia..].
  - intros -> i _. by apply bool_decide_eq_true_2.
Qed.

(** ** Genesis recognition *)

Lemma isGenesisBlock_sorted (b : DetectedBlock) :
  isGenesisBlock b = true
  <-> stable_sort colorLe (map color (dice b)) = stable_sort colorLe GENESIS_PATTERN.
Proof.
  unfold isGenesisBlock.
  destruct (Nat.eqb_spec (length (stable_sort colorLe (map color (dice b))))
              (length (stable_sort colorLe GENESIS_PATTERN))) as [Hlen|Hlen]; simpl.
  - by apply everyEqual_spec.
  - split; [done|]. intros Heq. by rewrite Heq in Hlen.
Qed.

Lemma isGenesisBlock_perm (b : DetectedBlock) :
  isGenesisBlock b = true <-> map color (dice b) ≡ₚ GENESIS_PATTERN.
Proof. rewrite isGenesisBlock_sorted. apply sortColors_canonical. Qed.

Lemma genesisCount_pattern c :
  count_occ DiceColor_eq_dec GENESIS_PATTERN c = genesisCount c.
Proof. by destruct c. Qed.

(** C6: [isGenesisBlock] holds exactly when the colours of the dice, as a
    multiset, are two red, two orange, two yellow and three green dice:
    it is true for every ordering of these nine colours and false as soon
    as the count of one colour differs; a genesis block has nine dice. *)
Theorem isGenesisBlock_multiset (b : DetectedBlock) :
  (isGenesisBlock b = true <-> map color (dice b) ≡ₚ GENESIS_PATTERN)
  /\ (isGenesisBlock b = true <-> forall c, colorCount c b = genesisCount c)
  /\ (isGenesisBlock b = true <->
      length (dice b) = 9%nat /\ colorCount red b = 2%nat /\ colorCount orange b = 2%nat
      /\ colorCount yellow b = 2%nat /\ colorCount green b = 3%nat).
Proof.
  assert (Hc : isGenesisBlock b = true <-> forall c, colorCount c b = genesisCount c).
  { rewrite isGenesisBlock_perm, (Permutation_count_occ DiceColor_eq_dec).
    unfold colorCount. split; intros H c; specialize (H c);
      by rewrite genesisCount_pattern in *. }
  split; [apply isGenesisBlock_perm|]. split; [done|].
  assert (Hsum : length (dice b)
                 = (colorCount red b + colorCount orange b + colorCount yellow b
                    + colorCount green b + colorCount blue b + colorCount purple b)%nat).
  { unfold colorCount. rewrite <-(length_map color).
    induction (map color (dice b)) as [|c l IH]; [done|].
    simpl. destruct c; repeat case_match; simplify_eq; lia. }
  rewrite Hc. split.
  - intros H. rewrite Hsum, !H. simpl. lia.
  - intros (Hlen & Hr & Ho & Hy & Hg) c.
    destruct c; simpl; lia.
Qed.

(** ** Predecessor matching *)

Lemma canBePredecessor_sorted (blockA blockB : DetectedBlock) :
  canBePredecessor blockA blockB = true
  <-> stable_sort jsColorLe (getRequiredColors (dice blockA))
      = Some <$> stable_sort colorLe (map color (dice blockB)).
Proof.
  unfold canBePredecessor.
  set (req := stable_sort jsColorLe _). set (act := stable_sort colorLe _).
  destruct (Nat.eqb_spec (length req) (length act)) as [Hlen|Hlen]; simpl.
  - by apply forallb_seq_lookup.
  - split; [done|]. intros Heq. by rewrite Heq, length_fmap in Hlen.
Qed.

Lemma canBePredecessor_perm (blockA blockB : DetectedBlock) :
  canBePredecessor blockA blockB = true
  <-> getRequiredColors (dice blockA) ≡ₚ map (fun d => Some (color d)) (dice blockB).
Proof.
  rewrite canBePredecessor_sorted, stable_sort_Some, sortJsColors_canonical.
  by rewrite <-list_fmap_compose.
Qed.

(** C8: [canBePredecessor A B] is true exactly when the multiset of the
    colours required by [A] equals the multiset of the colours of the dice
    of [B]; reordering the dice of [A] or of [B] does not change it. *)
Theorem canBePredecessor_multiset (blockA blockA' blockB blockB' : DetectedBlock)
    (HA : dice blockA' ≡ₚ dice blockA) (HB : dice blockB' ≡ₚ dice blockB) :
  canBePredecessor blockA' blockB' = canBePredecessor blockA blockB
  /\ (canBePredecessor blockA blockB = true
      <-> getRequiredColors (dice blockA)
          ≡ₚ map (fun d => Some (color d)) (dice blockB)).
Proof.
  split; [|apply canBePredecessor_perm].
  apply Bool.eq_true_iff_eq. rewrite !canBePredecessor_perm.
  unfold getRequiredColors. by rewrite HA, HB.
Qed.

Lemma canBePredecessor_multiset_witness :
  let blockA := Examples.genesisAt "block-0" 0 in
  let blockB := Examples.secondAt "block-1" 54 in
  canBePredecessor (setColumn (mkBlock "a" (rev (dice blockA)) 24 "" (position blockA) 0) 0)
                   (mkBlock "b" (rev (dice blockB)) 22 "" (position blockB) 1)
  = canBePredecessor blockA blockB
  /\ (canBePredecessor blockA blockB = true
      <-> getRequiredColors (dice blockA)
          ≡ₚ map (fun d => Some (color d)) (dice blockB)).
Proof.
  intros blockA blockB.
  apply (canBePredecessor_multiset blockA _ blockB _); simpl;
    symmetry; apply Permutation_rev.
Defined.

(** ** The validation pass of [buildChain] *)

Lemma validateAll_snoc d (l : list DetectedBlock) b :
  validateAll d (l ++ [b])
  = validateAll d l ++ [validateBlock d (validateAll d l) b].
Proof. unfold validateAll. by rewrite foldl_snoc. Qed.

Lemma validateAll_detected d (l : list DetectedBlock) :
  map detected (validateAll d l) = l.
Proof.
  induction l as [|b l IH] using rev_ind; [done|].
  rewrite validateAll_snoc, map_app, IH. simpl. f_equal.
  unfold validateBlock. by repeat case_match.
Qed.

(** Every validated block is the outcome of [validateBlock] on one block of
    the sorted array, run against the blocks validated before it. *)
Lemma validateAll_elem d (l : list DetectedBlock) (vb : ValidatedBlock) :
  vb ∈ validateAll d l ->
  exists pre b post,
    l = pre ++ b :: post /\ vb = validateBlock d (validateAll d pre) b.
Proof.
  induction l as [|b l IH] using rev_ind.
  - by intros ?%elem_of_nil.
  - rewrite validateAll_snoc, elem_of_app, list_elem_of_singleton.
    intros [Hin| ->].
    + destruct (IH Hin) as (pre & b' & post & -> & ->).
      exists pre, b', (post ++ [b]). by rewrite <-app_assoc.
    + exists l, b, []. done.
Qed.

Lemma validateAll_prefix d (pre post : list DetectedBlock) :
  validateAll d (pre ++ post)
  = validateAll d pre
    ++ foldl (fun acc b => acc ++ [validateBlock d (validateAll d pre ++ acc) b])
         [] post.
Proof.
  induction post as [|b post IH] using rev_ind.
  - by rewrite !app_nil_r.
  - rewrite app_assoc, validateAll_snoc, IH, foldl_snoc, <-!app_assoc. done.
Qed.

Lemma buildChain_unfold bs d :
  buildChain bs d = validateAll d (stable_sort byColumn (assignColumns bs)).
Proof. by destruct bs. Qed.

Lemma validateBlock_fields d vbs b :
  detected (validateBlock d vbs b) = b
  /\ isGenesis (validateBlock d vbs b) = isGenesisBlock b
  /\ requiredColors (validateBlock d vbs b) = getRequiredColors (dice b).
Proof. unfold validateBlock. by repeat case_match. Qed.

Lemma validateBlock_genesis d vbs b :
  isGenesisBlock b = true ->
  (errors (validateBlock d vbs b), predecessorId (validateBlock d vbs b),
   isValid (validateBlock d vbs b)) = genesisChecks b.
Proof. unfold validateBlock. intros ->. by repeat case_match. Qed.

Lemma validateBlock_successor d vbs b :
  isGenesisBlock b = false ->
  (errors (validateBlock d vbs b), predecessorId (validateBlock d vbs b),
   isValid (validateBlock d vbs b)) = successorChecks d vbs b.
Proof. unfold validateBlock. intros ->. by repeat case_match. Qed.

Lemma expectedTotal_24 : expectedTotal = 24%Z.
Proof. reflexivity. Qed.

(** C4: a genesis block processed by [buildChain] is valid exactly when its
    column is 0.  A column other than 0 appends the column error and makes
    the block invalid; a pip total other than 24 only appends a diagnostic
    and leaves [isValid] as the column check left it. *)
Theorem genesis_validation (bs : list DetectedBlock) (d : Z) (vb : ValidatedBlock)
    (Hin : vb ∈ buildChain bs d) (Hgen : isGenesis vb = true) :
  isValid vb = (column vb =? 0)%Z
  /\ errors vb
     = (if (column vb =? 0)%Z then [] else [msgGenesisColumn])
       ++ (if (total vb =? 24)%Z then [] else [msgGenesisTotal (total vb)])
  /\ predecessorId vb = None.
Proof.
  rewrite buildChain_unfold in Hin.
  apply validateAll_elem in Hin as (pre & b & post & _ & ->).
  destruct (validateBlock_fields d (validateAll d pre) b) as (Hb & Hg & _).
  rewrite Hg in Hgen. rewrite Hb.
  pose proof (validateBlock_genesis d (validateAll d pre) b Hgen) as Hchk.
  unfold genesisChecks in Hchk. rewrite expectedTotal_24 in Hchk.
  destruct (column b =? 0)%Z, (total b =? 24)%Z; simpl in Hchk;
    by simplify_eq.
Qed.

Lemma genesis_validation_witness :
  exists vb : ValidatedBlock,
    buildChain Examples.twoGenesis 20 !! 1%nat = Some vb
    /\ column vb = 22%Z /\ total vb = 24%Z
    /\ isValid vb = false
    /\ errors vb = [msgGenesisColumn]
    /\ predecessorId vb = None.
Proof.
  eexists. split; [vm_compute; reflexivity|].
  split; [reflexivity|]. split; [reflexivity|].
  match goal with |- isValid ?v = _ /\ _ =>
    destruct (genesis_validation Examples.twoGenesis 20 v) as (H1 & H2 & H3)
  end.
  - apply list_elem_of_lookup_2 with 1%nat. vm_compute. reflexivity.
  - reflexivity.
  - split; [exact H1|]. split; [exact H2|exact H3].
Defined.

(** The diagnostics of the predecessor search are not the threshold
    diagnostic: they differ in their first character. *)
Lemma msgExceeds_not_search t d : ~ searchDiagnostic (msgExceeds t d).
Proof. intros [[c H]|[H|(req & act & H)]]; discriminate. Qed.

(** What the non-genesis branch leaves in [errors], [predecessorId] and
    [isValid]: the threshold diagnostic comes first, the predecessor search
    adds its own, and the block is valid when the total is within the
    difficulty and a predecessor was recorded. *)
Lemma successorChecks_outcome d vbs b errs p v :
  successorChecks d vbs b = (errs, p, v) ->
  (exists rest, errs = thresholdErrors d b ++ rest /\ Forall searchDiagnostic rest)
  /\ v = negb (d <? total b)%Z && bool_decide (is_Some p).
Proof.
  unfold successorChecks, thresholdErrors. set (cands := filter _ vbs).
  destruct (d <? total b)%Z;
    (destruct (length cands =? 0)%nat;
     [|destruct (find _ cands) as [cand|];
       [|destruct cands as [|pred [|? ?]]]]);
    intros [= <- <- <-]; (split; [eexists; split; [reflexivity|]|done]);
    repeat (first [apply Forall_nil_2 | apply Forall_cons_2]);
    unfold searchDiagnostic; eauto.
Qed.

Lemma thresholdErrors_elem d b rest :
  Forall searchDiagnostic rest ->
  msgExceeds (total b) d ∈ thresholdErrors d b ++ rest <-> (d < total b)%Z.
Proof.
  intros Hrest. rewrite elem_of_app. unfold thresholdErrors.
  rewrite Forall_forall in Hrest.
  destruct (Z.ltb_spec d (total b)) as [Hlt|Hle].
  - split; [done|]. intros _. left. by left.
  - split; [|lia]. intros [H%elem_of_nil|H%Hrest]; [done|].
    by apply msgExceeds_not_search in H.
Qed.

(** C5: for a non-genesis block processed by [buildChain] with difficulty
    [d], the threshold diagnostic is recorded, and the block made invalid by
    the threshold check, exactly when its total exceeds [d].  With a total
    of at most [d] (in particular equal to [d]) validity is decided by the
    predecessor search alone; a total of [d + 1] makes the block invalid. *)
Theorem difficulty_threshold (bs : list DetectedBlock) (d : Z) (vb : ValidatedBlock)
    (Hin : vb ∈ buildChain bs d) (Hgen : isGenesis vb = false) :
  (exists rest, errors vb = thresholdErrors d vb ++ rest
                /\ Forall searchDiagnostic rest)
  /\ (msgExceeds (total vb) d ∈ errors vb <-> (d < total vb)%Z)
  /\ isValid vb = negb (d <? total vb)%Z && bool_decide (is_Some (predecessorId vb))
  /\ ((d < total vb)%Z -> isValid vb = false)
  /\ (total vb = d -> msgExceeds (total vb) d ∉ errors vb)
  /\ (total vb = (d + 1)%Z ->
      isValid vb = false /\ msgExceeds (total vb) d ∈ errors vb).
Proof.
  rewrite buildChain_unfold in Hin.
  apply validateAll_elem in Hin as (pre & b & post & _ & ->).
  destruct (validateBlock_fields d (validateAll d pre) b) as (Hb & Hg & _).
  rewrite Hg in Hgen. rewrite Hb.
  pose proof (validateBlock_successor d (validateAll d pre) b Hgen) as Hchk.
  symmetry in Hchk.
  apply successorChecks_outcome in Hchk as [(rest & Herrs & Hrest) Hval].
  assert (Herr : msgExceeds (total b) d ∈ errors (validateBlock d (validateAll d pre) b)
                 <-> (d < total b)%Z).
  { rewrite Herrs. by apply thresholdErrors_elem. }
  split; [by exists rest|]. split; [done|]. split; [done|]. split; [|split].
  - intros Hlt. rewrite Hval. by apply Z.ltb_lt in Hlt as ->.
  - intros Heq. rewrite Herr. lia.
  - intros Heq. split.
    + rewrite Hval. assert ((d <? total b)%Z = true) as Hlt by (apply Z.ltb_lt; lia).
      by rewrite Hlt.
    + apply Herr. lia.
Qed.

Lemma difficulty_threshold_witness :
  exists vb : ValidatedBlock,
    buildChain Examples.twoBlocks 21 !! 1%nat = Some vb
    /\ total vb = 22%Z
    /\ isValid vb = false
    /\ msgExceeds 22 21 ∈ errors vb.
Proof.
  eexists. split; [vm_compute; reflexivity|]. split; [reflexivity|].
  match goal with |- isValid ?v = _ /\ _ =>
    destruct (difficulty_threshold Examples.twoBlocks 21 v) as (_ & _ & _ & _ & _ & H)
  end.
  - apply list_elem_of_lookup_2 with 1%nat. vm_compute. reflexivity.
  - reflexivity.
  - apply H. reflexivity.
Defined.

(** ** Shape of the column assignment *)

Lemma findIndex_Some {A : Type} (p : A -> bool) (l : list A) (i : nat) :
  findIndex p l = Some i ->
  exists a, l !! i = Some a /\ p a = true
            /\ forall j b, (j < i)%nat -> l !! j = Some b -> p b = false.
Proof.
  revert i. induction l as [|a l IH]; intros i; simpl; [done|].
  destruct (p a) eqn:Hpa.
  - intros [= <-]. exists a. repeat split; [done|]. intros; lia.
  - destruct (findIndex p l) as [k|]; simpl; [|done].
    intros [= <-]. destruct (IH k eq_refl) as (b & Hb & Hpb & Hfirst).
    exists b. repeat split; [done..|].
    intros [|j] c Hj; simpl; [by intros [= <-]|].
    apply Hfirst. lia.
Qed.

Lemma findIndex_None {A : Type} (p : A -> bool) (l : list A) :
  findIndex p l = None -> forall a, a ∈ l -> p a = false.
Proof.
  induction l as [|a l IH]; simpl; [by intros _ ? ?%elem_of_nil|].
  destruct (p a) eqn:Hpa; [done|].
  destruct (findIndex p l); [done|].
  intros _ b [->|Hb]%elem_of_cons; auto.
Qed.

(** [assignColumns] rewrites the [column] field of every block and nothing
    else. *)
Lemma assignColumns_map (bs : list DetectedBlock) :
  exists col : DetectedBlock -> Z,
    assignColumns bs = map (fun b => setColumn b (col b)) bs.
Proof.
  destruct bs as [|b0 bs]; [by exists (fun _ => 0%Z)|].
  unfold assignColumns.
  destruct (findIndex isGenesisBlock (b0 :: bs)) as [i|] eqn:Hi.
  - apply findIndex_Some in Hi as (g & -> & _). eauto.
  - destruct (stable_sort byPositionX (b0 :: bs)) as [|m ?] eqn:Hs; [|eauto].
    apply (f_equal length) in Hs. by rewrite stable_sort_length in Hs.
Qed.

Lemma assignColumns_length bs : length (assignColumns bs) = length bs.
Proof. destruct (assignColumns_map bs) as [col ->]. by rewrite length_map. Qed.

Lemma assignColumns_ids bs : map id (assignColumns bs) = map id bs.
Proof.
  destruct (assignColumns_map bs) as [col ->].
  rewrite map_map. by apply map_ext.
Qed.

Lemma buildChain_detected bs d :
  map detected (buildChain bs d) ≡ₚ assignColumns bs.
Proof.
  rewrite buildChain_unfold, validateAll_detected. apply stable_sort_perm.
Qed.

Lemma buildChain_ids bs d :
  map (fun vb : ValidatedBlock => id vb) (buildChain bs d) ≡ₚ map id bs.
Proof.
  rewrite <-assignColumns_ids, <-(buildChain_detected bs d), map_map. done.
Qed.

Lemma buildChain_length bs d : length (buildChain bs d) = length bs.
Proof.
  rewrite <-(length_map detected), buildChain_detected.
  apply assignColumns_length.
Qed.


(** ** The result record *)



(** ** Column assignment *)

Lemma Qltb_lt (a b : Q) : Qltb a b = true <-> (a < b)%Q.
Proof.
  unfold Qltb. rewrite negb_true_iff, <-not_true_iff_false, Qle_bool_iff.
  split; [apply Qnot_le_lt|apply Qlt_not_le].
Qed.

Lemma mathRound_nonneg (q : Q) : (0 <= q)%Q -> (0 <= mathRound q)%Z.
Proof.
  intros Hq. unfold mathRound.
  change 0%Z with (Qfloor 0). apply Qfloor_resp_le.
  apply Qle_trans with q; [done|].
  rewrite <-(Qplus_0_r q) at 1. by apply Qplus_le_r.
Qed.

Lemma mathRound_zero (q : Q) : (q == 0)%Q -> mathRound q = 0%Z.
Proof. intros Hq. unfold mathRound. by rewrite Hq. Qed.

Lemma fold_Qmax_ge (ws : list Q) (w : Q) : (w <= fold_left Qmax ws w)%Q.
Proof.
  revert w. induction ws as [|a ws IH]; intros w; simpl; [apply Qle_refl|].
  eapply Qle_trans; [|apply IH]. apply Q.le_max_l.
Qed.

Lemma mathMax_positive (b : DetectedBlock) (m : Q) :
  positiveWidths b = true ->
  mathMax (map (fun d => width (bounds d)) (dice b)) = Some m -> (0 < m)%Q.
Proof.
  unfold positiveWidths. destruct (dice b) as [|d ds]; [done|].
  simpl. intros [Hd _]%andb_prop [= <-]. apply Qltb_lt in Hd.
  eapply Qlt_le_trans; [exact Hd|apply fold_Qmax_ge].
Qed.

(** The sum of the tray widths is [-Infinity] or grows with every block. *)
Lemma fold_trayWidth_grows (bs : list DetectedBlock) (acc s : Q) :
  forallb positiveWidths bs = true ->
  fold_left (fun sum b =>
    addTrayWidth sum (mathMax (map (fun d => width (bounds d)) (dice b))))
    bs (Some acc) = Some s ->
  (acc <= s)%Q /\ (bs <> [] -> (acc < s)%Q).
Proof.
  revert acc. induction bs as [|b bs IH]; intros acc; simpl.
  - intros _ [= <-]. split; [apply Qle_refl|done].
  - intros [Hb Hbs]%andb_prop.
    destruct (mathMax _) as [m|] eqn:Hm; simpl.
    + intros Hfold. apply (mathMax_positive b m Hb) in Hm.
      destruct (IH _ Hbs Hfold) as [Hle _].
      assert (Hacc : (acc < acc + m * 3)%Q).
      { rewrite <-(Qplus_0_r acc) at 1. apply Qplus_lt_r.
        by apply Qmult_lt_0_compat. }
      split; [|intros _]; eauto using Qlt_le_trans, Qlt_le_weak.
    + intros Hfold. exfalso. clear -Hfold.
      induction bs as [|b' bs IH']; simpl in Hfold; [done|]. by apply IH'.
Qed.

Lemma columnWidth_positive (bs : list DetectedBlock) (w : Q) :
  bs <> [] -> forallb positiveWidths bs = true ->
  (fun w => w * (3 # 2))%Q <$> avgWidth bs = Some w -> (0 < w)%Q.
Proof.
  intros Hne Hwf. unfold avgWidth.
  destruct (fold_left _ bs (Some 0%Q)) as [s|] eqn:Hfold; [|done].
  simpl. intros [= <-].
  destruct (fold_trayWidth_grows bs 0 s Hwf Hfold) as [_ Hs].
  apply Qmult_lt_0_compat; [|done].
  apply Qlt_shift_div_l; [|rewrite Qmult_0_l; by apply Hs].
  destruct bs; [done|]. simpl length.
  change 0%Q with (inject_Z 0). rewrite <-Zlt_Qlt. lia.
Qed.

Lemma roundQuotient_nonneg (a : Q) (columnWidth : option Q) :
  (0 <= a)%Q -> (forall w, columnWidth = Some w -> (0 < w)%Q) ->
  (0 <= roundQuotient a columnWidth)%Z.
Proof.
  intros Ha Hw. destruct columnWidth as [w|]; simpl; [|done].
  apply mathRound_nonneg, Qle_shift_div_l; [by apply Hw|].
  by rewrite Qmult_0_l.
Qed.

Lemma roundQuotient_zero (a : Q) (columnWidth : option Q) :
  (a == 0)%Q -> roundQuotient a columnWidth = 0%Z.
Proof.
  intros Ha. destruct columnWidth as [w|]; simpl; [|done].
  apply mathRound_zero. rewrite Ha. unfold Qdiv. ring.
Qed.

Lemma byPositionX_total a b : byPositionX a b = true \/ byPositionX b a = true.
Proof.
  unfold byPositionX. rewrite !Qle_bool_iff.
  destruct (Qlt_le_dec (pos_x (position a)) (pos_x (position b)));
    auto using Qlt_le_weak.
Qed.

(** The head of the array sorted by [position.x] is a leftmost block. *)
Lemma leftmost_minimal (bs : list DetectedBlock) (m : DetectedBlock) rest :
  stable_sort byPositionX bs = m :: rest ->
  forall b, b ∈ bs -> (pos_x (position m) <= pos_x (position b))%Q.
Proof.
  intros Hs b Hb.
  pose proof (stable_sort_Sorted byPositionX byPositionX_total bs) as Hsorted.
  rewrite Hs in Hsorted.
  apply Sorted_StronglySorted in Hsorted.
  2:{ intros a1 a2 a3. unfold leProp, byPositionX. rewrite !Qle_bool_iff.
      apply Qle_trans. }
  apply StronglySorted_inv in Hsorted as [_ Hall].
  rewrite <-(stable_sort_perm byPositionX bs), Hs in Hb.
  apply elem_of_cons in Hb as [->|Hb]; [apply Qle_refl|].
  rewrite Forall_forall in Hall.
  by apply Qle_bool_iff, Hall.
Qed.

(** The two branches of [assignColumns]. *)
Lemma assignColumns_anchored (bs : list DetectedBlock) (i : nat) :
  findIndex isGenesisBlock bs = Some i ->
  exists genesisBlock direction,
    bs !! i = Some genesisBlock /\ isGenesisBlock genesisBlock = true
    /\ assignColumns bs
       = map (fun block =>
                setColumn block
                  (Z.max 0 (roundQuotient
                     ((pos_x (position block) - pos_x (position genesisBlock))
                      * direction)%Q
                     ((fun w => w * (3 # 2))%Q <$> avgWidth bs)))) bs.
Proof.
  intros Hi. destruct bs as [|b0 bs]; [done|]. unfold assignColumns. rewrite Hi.
  apply findIndex_Some in Hi as (g & Hg & Hgen & _). rewrite Hg. eauto.
Qed.

Lemma assignColumns_unanchored (bs : list DetectedBlock) :
  bs <> [] -> findIndex isGenesisBlock bs = None ->
  exists leftmost rest,
    stable_sort byPositionX bs = leftmost :: rest
    /\ assignColumns bs
       = map (fun block =>
                setColumn block
                  (roundQuotient
                     (pos_x (position block) - pos_x (position leftmost))%Q
                     ((fun w => w * (3 # 2))%Q <$> avgWidth bs))) bs.
Proof.
  intros Hne Hi. destruct bs as [|b0 bs]; [done|]. unfold assignColumns. rewrite Hi.
  destruct (stable_sort byPositionX (b0 :: bs)) as [|m rest] eqn:Hs; [|eauto].
  apply (f_equal length) in Hs. by rewrite stable_sort_length in Hs.
Qed.

(** C3, amended: for blocks with positive bounding-box widths,
    [assignColumns] assigns no column below 0, and the first block
    satisfying [isGenesisBlock] (the anchor of the assignment) is assigned
    column 0. *)
Theorem assignColumns_nonneg_anchor (bs : list DetectedBlock)
    (Hwf : forallb positiveWidths bs = true) :
  (forall b, b ∈ assignColumns bs -> (0 <= column b)%Z)
  /\ (forall i, findIndex isGenesisBlock bs = Some i ->
      exists b, assignColumns bs !! i = Some b
                /\ isGenesisBlock b = true /\ column b = 0%Z).
Proof.
  split.
  - destruct bs as [|b0 bs]; [by intros ? ?%elem_of_nil|].
    destruct (findIndex isGenesisBlock (b0 :: bs)) as [i|] eqn:Hi.
    + destruct (assignColumns_anchored _ _ Hi) as (g & dir & _ & _ & ->).
      intros b (b' & -> & _)%list_elem_of_fmap. simpl. lia.
    + destruct (assignColumns_unanchored (b0 :: bs)) as (m & rest & Hs & ->);
        [done..|].
      intros b (b' & -> & Hb')%list_elem_of_fmap. simpl.
      apply roundQuotient_nonneg.
      * unfold Qminus. rewrite <-Qle_minus_iff. by eapply leftmost_minimal.
      * intros w. by apply columnWidth_positive.
  - intros i (g & dir & Hg & Hgen & ->)%assignColumns_anchored.
    eexists. rewrite list_lookup_fmap, Hg. simpl.
    split; [done|]. split; [done|].
    rewrite roundQuotient_zero; [done|]. ring.
Qed.

Lemma assignColumns_nonneg_anchor_witness :
  (forall b, b ∈ assignColumns Examples.twoGenesis -> (0 <= column b)%Z)
  /\ (forall i, findIndex isGenesisBlock Examples.twoGenesis = Some i ->
      exists b, assignColumns Examples.twoGenesis !! i = Some b
                /\ isGenesisBlock b = true /\ column b = 0%Z).
Proof. apply (assignColumns_nonneg_anchor Examples.twoGenesis). reflexivity. Defined.

(** C3 as stated fails: of two blocks that both show the genesis pattern
    only the first is the anchor; the second is assigned the column of its
    distance from the anchor. *)
Lemma assignColumns_second_genesis :
  forallb positiveWidths Examples.twoGenesis = true
  /\ exists b, assignColumns Examples.twoGenesis !! 1%nat = Some b
               /\ isGenesisBlock b = true /\ column b = 22%Z.
Proof. split; [reflexivity|]. eexists. by vm_compute. Qed.

(** ** The adjacency map *)

Lemma buildChildren_snoc (bs : list ValidatedBlock) b :
  buildChildren (bs ++ [b]) = addChild (buildChildren bs) b.
Proof. unfold buildChildren. by rewrite foldl_snoc. Qed.

Lemma buildChildren_lookup (bs : list ValidatedBlock) (p : string) :
  default [] (buildChildren bs !! p) = childrenOf bs p.
Proof.
  unfold childrenOf.
  induction bs as [|b bs IH] using rev_ind; [done|].
  rewrite buildChildren_snoc, filter_app, map_app, <-IH.
  unfold addChild. rewrite filter_cons, filter_nil.
  destruct (recordsEdge b) as [q|] eqn:Hq.
  - destruct (decide (q = p)) as [->|Hne].
    + rewrite lookup_insert_eq, decide_True by done. done.
    + rewrite lookup_insert_ne, decide_False by congruence.
      simpl. by rewrite app_nil_r.
  - rewrite decide_False by done. simpl. by rewrite app_nil_r.
Qed.

Lemma elem_of_childrenOf (bs : list ValidatedBlock) (p c : string) :
  c ∈ childrenOf bs p
  <-> exists b : ValidatedBlock, b ∈ bs /\ id b = c /\ recordsEdge b = Some p.
Proof.
  unfold childrenOf. rewrite list_elem_of_fmap. split.
  - intros (b & -> & [Hb Hin]%list_elem_of_filter). eauto.
  - intros (b & Hin & <- & Hb). exists b. split; [done|].
    by apply list_elem_of_filter.
Qed.

Lemma recordsEdge_Some (b : ValidatedBlock) (p : string) :
  recordsEdge b = Some p
  <-> predecessorId b = Some p /\ p <> ""%string /\ isValid b = true.
Proof.
  unfold recordsEdge. destruct (predecessorId b) as [q|].
  - destruct (String.eqb_spec q ""), (isValid b); simpl;
      (split; [intros [= <-]|intros ([= <-] & ? & ?)]); done.
  - split; [done|]. by intros [? _].
Qed.

(** ** The depth-first search *)

Section KeepLongest.
Context (visit : string -> option (list string)).

Lemma keepLongest_None cs : foldl (keepLongest visit) None cs = None.
Proof. by induction cs. Qed.

(** The loop returns the initial chain or the chain of one child. *)
Lemma keepLongest_result cs init res :
  foldl (keepLongest visit) (Some init) cs = Some res ->
  res = init \/ exists c, c ∈ cs /\ visit c = Some res.
Proof.
  revert init. induction cs as [|c cs IH]; intros init; simpl.
  - intros [= <-]. by left.
  - destruct (visit c) as [chain|] eqn:Hc; [|by rewrite keepLongest_None].
    destruct (length init <? length chain)%nat; intros Hres;
      destruct (IH _ Hres) as [->|(c' & Hc' & Hv)];
      eauto using list_elem_of_here, list_elem_of_further.
Qed.

(** The loop returns when every recursive call does. *)
Lemma keepLongest_total cs init :
  (forall c, c ∈ cs -> is_Some (visit c)) ->
  is_Some (foldl (keepLongest visit) (Some init) cs).
Proof.
  revert init. induction cs as [|c cs IH]; intros init Hall; simpl; [done|].
  destruct (Hall c) as [chain ->]; [by left|].
  destruct (length init <? length chain)%nat; apply IH;
    intros c' Hc'; apply Hall; by right.
Qed.
End KeepLongest.

(** A chain starts at the node it was asked for; every further id was put
    into the adjacency map as a child. *)
Lemma findLongestFromNode_shape fuel children nodeId chain :
  findLongestFromNode fuel children nodeId = Some chain ->
  exists rest, chain = nodeId :: rest
    /\ forall c, c ∈ rest -> exists p, c ∈ default [] (children !! p).
Proof.
  revert nodeId chain. induction fuel as [|fuel IH]; intros n chain; simpl; [done|].
  destruct (length (default [] (children !! n)) =? 0)%nat.
  - intros [= <-]. exists []. split; [done|]. by intros ? ?%elem_of_nil.
  - destruct (foldl _ _ _) as [longest|] eqn:Hfold; [|done].
    intros [= <-]. exists longest. split; [done|].
    apply keepLongest_result in Hfold as [->|(c & Hc & Hvisit)].
    + by intros ? ?%elem_of_nil.
    + destruct (IH _ _ Hvisit) as (rest & -> & Hrest).
      intros c' [->|Hc']%elem_of_cons; eauto.
Qed.

Lemma findLongestFromNode_leaf fuel children nodeId :
  default [] (children !! nodeId) = [] ->
  findLongestFromNode (S fuel) children nodeId = Some [nodeId].
Proof. simpl. by intros ->. Qed.

Lemma find_isGenesis_None (bs : list ValidatedBlock) :
  find isGenesis bs = None <-> forall b, b ∈ bs -> isGenesis b = false.
Proof.
  induction bs as [|b bs IH]; simpl.
  - split; [by intros _ ? ?%elem_of_nil|done].
  - destruct (isGenesis b) eqn:Hb.
    + split; [done|]. intros H. specialize (H b (list_elem_of_here _ _)). congruence.
    + rewrite IH. split.
      * intros H c [->|Hc]%elem_of_cons; auto.
      * intros H c Hc. apply H. by right.
Qed.

Lemma find_isGenesis_Some (bs : list ValidatedBlock) g :
  find isGenesis bs = Some g -> g ∈ bs /\ isGenesis g = true.
Proof.
  intros H. apply find_some in H as [Hin Hg]. split; [|done].
  by apply list_elem_of_In.
Qed.

(** ** The longest chain *)

Lemma findLongestChain_unfold fuel (bs : list ValidatedBlock) :
  findLongestChain fuel bs
  = match find isGenesis bs with
    | None => Some []
    | Some genesis => findLongestFromNode fuel (buildChildren bs) (id genesis)
    end.
Proof. by destruct bs. Qed.

(** More fuel does not change a result: the value the model returns is the
    value of the recursive function. *)
Lemma keepLongest_mono (visit visit' : string -> option (list string)) cs acc res :
  (forall c r, visit c = Some r -> visit' c = Some r) ->
  foldl (keepLongest visit) acc cs = Some res ->
  foldl (keepLongest visit') acc cs = Some res.
Proof.
  intros Hsub. revert acc. induction cs as [|c cs IH]; intros acc; [done|].
  simpl. destruct acc as [longest|]; simpl; [|by rewrite keepLongest_None].
  destruct (visit c) as [chain|] eqn:Hc; [|by rewrite keepLongest_None].
  rewrite (Hsub _ _ Hc). apply IH.
Qed.

Lemma findLongestFromNode_fuel_mono fuel fuel' children nodeId chain :
  (fuel <= fuel')%nat ->
  findLongestFromNode fuel children nodeId = Some chain ->
  findLongestFromNode fuel' children nodeId = Some chain.
Proof.
  revert fuel' nodeId chain.
  induction fuel as [|fuel IH]; intros fuel' n chain Hle; [done|].
  destruct fuel' as [|fuel']; [lia|]. simpl.
  destruct (length (default [] (children !! n)) =? 0)%nat; [done|].
  destruct (foldl (keepLongest (findLongestFromNode fuel children)) _ _)
    as [longest|] eqn:Hfold; [|done].
  intros [= <-].
  assert (Hsub : forall c r, findLongestFromNode fuel children c = Some r ->
                             findLongestFromNode fuel' children c = Some r).
  { intros c r. apply IH. lia. }
  by rewrite (keepLongest_mono _ _ _ _ _ Hsub Hfold).
Qed.

Lemma validateBlocks_fuel_mono fuel fuel' bs d r :
  (fuel <= fuel')%nat ->
  validateBlocks fuel bs d = Some r -> validateBlocks fuel' bs d = Some r.
Proof.
  intros Hle. unfold validateBlocks. rewrite !findLongestChain_unfold.
  destruct (find isGenesis (buildChain bs d)) as [g|]; [|done].
  destruct (findLongestFromNode fuel _ _) as [chain|] eqn:Hchain; [|done].
  by rewrite (findLongestFromNode_fuel_mono _ _ _ _ _ Hle Hchain).
Qed.

(** C2, amended: [findLongestChain] returns the empty sequence when no block
    is flagged as genesis; a non-empty result starts with the id of the
    first block flagged as genesis, whatever its [isValid] flag; and when no
    valid block names that block as its predecessor the result is the
    singleton of its id. *)
Theorem findLongestChain_genesis (bs : list ValidatedBlock) :
  ((forall b, b ∈ bs -> isGenesis b = false) ->
   forall fuel, findLongestChain fuel bs = Some [])
  /\ (forall fuel chain,
        findLongestChain fuel bs = Some chain -> chain <> [] ->
        exists g rest,
          find isGenesis bs = Some g /\ g ∈ bs /\ isGenesis g = true
          /\ chain = id g :: rest)
  /\ (forall g,
        find isGenesis bs = Some g ->
        (forall b, b ∈ bs -> isValid b = true -> predecessorId b <> Some (id g)) ->
        forall fuel, findLongestChain (S fuel) bs = Some [id g]).
Proof.
  split; [|split].
  - intros Hnone%find_isGenesis_None fuel.
    by rewrite findLongestChain_unfold, Hnone.
  - intros fuel chain. rewrite findLongestChain_unfold.
    destruct (find isGenesis bs) as [g|] eqn:Hg; [|by intros [= <-]].
    intros (rest & -> & _)%findLongestFromNode_shape _.
    destruct (find_isGenesis_Some _ _ Hg). by exists g, rest.
  - intros g Hg Hleaf fuel. rewrite findLongestChain_unfold, Hg.
    apply findLongestFromNode_leaf. rewrite buildChildren_lookup.
    destruct (childrenOf bs (id g)) as [|c cs] eqn:Hcs; [done|].
    assert (Hc : c ∈ childrenOf bs (id g)) by (rewrite Hcs; by left).
    apply elem_of_childrenOf in Hc as (b & Hb & _ & (Hp & _ & Hv)%recordsEdge_Some).
    by destruct (Hleaf b Hb Hv).
Qed.

Lemma findLongestChain_genesis_witness :
  findLongestChain 1 Examples.invalidGenesis = Some ["block-0"%string]
  /\ findLongestChain 0 [] = Some [].
Proof.
  destruct (findLongestChain_genesis Examples.invalidGenesis) as (_ & _ & H3).
  destruct (findLongestChain_genesis []) as (H1 & _).
  split.
  - eapply (H3 _ eq_refl).
    intros b ->%list_elem_of_singleton. simpl. discriminate.
  - apply H1. by intros ? ?%elem_of_nil.
Defined.

(** C2 as stated fails: the search starts from the first block flagged as
    genesis without reading its [isValid] flag, so a non-empty chain is
    returned although no valid genesis block exists. *)
Lemma findLongestChain_invalid_genesis :
  findLongestChain 1 Examples.invalidGenesis = Some ["block-0"%string]
  /\ ~ exists b : ValidatedBlock,
         b ∈ Examples.invalidGenesis /\ isGenesis b = true /\ isValid b = true.
Proof.
  split; [reflexivity|].
  intros (b & ->%list_elem_of_singleton & _ & Hv). discriminate.
Qed.

(** C7: in a result of [validateBlocks] the chain is empty, or it starts
    with the id of a block of [blocks] flagged as genesis and every later id
    is the id of a block of [blocks] whose [isValid] is true. *)
Theorem longestChain_valid (fuel : nat) (bs : list DetectedBlock) (d : Z)
    (r : ValidationResult) (Hr : validateBlocks fuel bs d = Some r) :
  longestChain r = []
  \/ exists (g : ValidatedBlock) rest,
       longestChain r = id g :: rest
       /\ g ∈ blocks r /\ isGenesis g = true
       /\ forall c, c ∈ rest ->
            exists b : ValidatedBlock, b ∈ blocks r /\ id b = c /\ isValid b = true.
Proof.
  unfold validateBlocks in Hr.
  destruct (findLongestChain fuel (buildChain bs d)) as [chain|] eqn:Hchain; [|done].
  injection Hr as <-. simpl.
  rewrite findLongestChain_unfold in Hchain.
  destruct (find isGenesis (buildChain bs d)) as [g|] eqn:Hg.
  - right. apply findLongestFromNode_shape in Hchain as (rest & -> & Hrest).
    destruct (find_isGenesis_Some _ _ Hg). exists g, rest.
    repeat split; [done..|].
    intros c [p Hc]%Hrest. rewrite buildChildren_lookup in Hc.
    apply elem_of_childrenOf in Hc as (b & Hb & Hid & (_ & _ & Hv)%recordsEdge_Some).
    eauto.
  - left. by injection Hchain as <-.
Qed.

Lemma longestChain_valid_witness :
  exists r : ValidationResult,
    validateBlocks 2 Examples.twoBlocks 25 = Some r
    /\ longestChain r = ["block-0"; "block-1"]%string
    /\ (longestChain r = []
        \/ exists (g : ValidatedBlock) rest,
             longestChain r = id g :: rest
             /\ g ∈ blocks r /\ isGenesis g = true
             /\ forall c, c ∈ rest ->
                  exists b : ValidatedBlock,
                    b ∈ blocks r /\ id b = c /\ isValid b = true).
Proof.
  eexists. split; [vm_compute; reflexivity|]. split; [reflexivity|].
  eapply (longestChain_valid 2 Examples.twoBlocks 25).
  vm_compute. reflexivity.
Defined.

(** ** Predecessor links *)

Lemma genesisChecks_predecessor b errs p v :
  genesisChecks b = (errs, p, v) -> p = None.
Proof.
  unfold genesisChecks.
  destruct (negb (column b =? 0)%Z), (negb (total b =? expectedTotal)%Z);
    by intros [= _ <- _].
Qed.

Lemma successorChecks_predecessor d (vbs : list ValidatedBlock) b errs p v :
  successorChecks d vbs b = (errs, Some p, v) ->
  exists q : ValidatedBlock,
    q ∈ vbs /\ id q = p /\ isCandidateFor b q = true
    /\ canBePredecessor q b = true.
Proof.
  unfold successorChecks. set (cands := filter _ vbs).
  destruct (d <? total b)%Z;
    (destruct (length cands =? 0)%nat; [done|]);
    (destruct (find _ cands) as [cand|] eqn:Hfind;
     [|by destruct cands as [|? [|? ?]]]);
    intros [= _ <- _];
    apply find_some in Hfind as [Hin Hmatch];
    apply list_elem_of_In, list_elem_of_filter in Hin as [Hcand Hin];
    eauto.
Qed.

(** A recorded predecessor is one of the blocks validated before, valid and
    one column to the left, and it matches the colours of the block. *)
Lemma validateBlock_predecessor d (vbs : list ValidatedBlock) b p :
  predecessorId (validateBlock d vbs b) = Some p ->
  exists q : ValidatedBlock,
    q ∈ vbs /\ id q = p /\ column q = (column b - 1)%Z /\ isValid q = true
    /\ canBePredecessor q b = true.
Proof.
  intros Hp. destruct (isGenesisBlock b) eqn:Hgen.
  - pose proof (validateBlock_genesis d vbs b Hgen) as Hchk.
    symmetry in Hchk. apply genesisChecks_predecessor in Hchk. congruence.
  - pose proof (validateBlock_successor d vbs b Hgen) as Hchk.
    rewrite Hp in Hchk. symmetry in Hchk.
    apply successorChecks_predecessor in Hchk as (q & Hq & Hid & Hcand & Hmatch).
    apply andb_prop in Hcand as [Hcol%Z.eqb_eq Hvalid].
    eauto 10.
Qed.

Lemma validateAll_prefix_elem d (pre post : list DetectedBlock) (vb : ValidatedBlock) :
  vb ∈ validateAll d pre -> vb ∈ validateAll d (pre ++ post).
Proof. rewrite validateAll_prefix, elem_of_app. by left. Qed.

Lemma buildChain_predecessor bs d (vb : ValidatedBlock) p :
  vb ∈ buildChain bs d -> predecessorId vb = Some p ->
  exists q : ValidatedBlock,
    q ∈ buildChain bs d /\ id q = p /\ column q = (column vb - 1)%Z
    /\ isValid q = true.
Proof.
  rewrite buildChain_unfold.
  intros (pre & b & post & Hl & ->)%validateAll_elem Hp.
  apply validateBlock_predecessor in Hp as (q & Hq & Hid & Hcol & Hv & _).
  exists q. rewrite Hl.
  destruct (validateBlock_fields d (validateAll d pre) b) as (-> & _).
  eauto using validateAll_prefix_elem.
Qed.

Lemma NoDup_map_inj {A B : Type} (f : A -> B) (l : list A) (a b : A) :
  NoDup (map f l) -> a ∈ l -> b ∈ l -> f a = f b -> a = b.
Proof.
  induction l as [|c l IH]; simpl; [by intros _ ?%elem_of_nil|].
  rewrite NoDup_cons.
  intros [Hc Hl] [->|Ha]%elem_of_cons [->|Hb]%elem_of_cons Hf; auto.
  - destruct Hc. rewrite Hf. by apply (list_elem_of_fmap_2 f).
  - destruct Hc. rewrite <-Hf. by apply (list_elem_of_fmap_2 f).
Qed.

Lemma buildChain_NoDup bs d :
  NoDup (map id bs) ->
  NoDup (map (fun vb : ValidatedBlock => id vb) (buildChain bs d)).
Proof. intros H. by rewrite buildChain_ids. Qed.

(** Every link of the predecessor relation goes one column to the left. *)
Lemma buildChain_link_column bs d (b q : ValidatedBlock) :
  NoDup (map id bs) ->
  linksTo (buildChain bs d) b q -> column q = (column b - 1)%Z.
Proof.
  intros Hids (Hb & Hq & Hp).
  destruct (buildChain_predecessor bs d b _ Hb Hp) as (q' & Hq' & Hid & Hcol & _).
  assert (q' = q) as <-; [|done].
  eapply (NoDup_map_inj (fun vb : ValidatedBlock => id vb));
    eauto using buildChain_NoDup.
Qed.

Section ColumnRanked.
Context (vbs : list ValidatedBlock).
Hypothesis link_column :
  forall b q, linksTo vbs b q -> column q = (column b - 1)%Z.

Lemma tc_linksTo_column b q : tc (linksTo vbs) b q -> (column q < column b)%Z.
Proof.
  induction 1 as [b q Hl|b m q Hl _ IH].
  - apply link_column in Hl. lia.
  - apply link_column in Hl. lia.
Qed.

Lemma linksTo_acyclic b : ~ tc (linksTo vbs) b b.
Proof. intros H%tc_linksTo_column. lia. Qed.

(** The search from a block returns once the fuel exceeds the number of
    columns to its right. *)
Lemma findLongestFromNode_terminates (M : Z) :
  (forall b : ValidatedBlock, b ∈ vbs -> (column b <= M)%Z) ->
  forall fuel (q : ValidatedBlock),
    q ∈ vbs -> (Z.to_nat (M - column q) < fuel)%nat ->
    is_Some (findLongestFromNode fuel (buildChildren vbs) (id q)).
Proof.
  intros HM fuel. induction fuel as [|fuel IH]; intros q Hq Hfuel; [lia|].
  simpl. rewrite buildChildren_lookup.
  destruct (length (childrenOf vbs (id q)) =? 0)%nat; [done|].
  destruct (keepLongest_total (findLongestFromNode fuel (buildChildren vbs))
              (childrenOf vbs (id q)) []) as [longest ->]; [|done].
  intros c (b & Hb & <- & (Hp & _)%recordsEdge_Some)%elem_of_childrenOf.
  assert (Hcol : column q = (column b - 1)%Z) by by apply link_column.
  apply IH; [done|]. specialize (HM b Hb). lia.
Qed.
End ColumnRanked.

Lemma columns_bounded (vbs : list ValidatedBlock) :
  exists M : Z, forall b : ValidatedBlock, b ∈ vbs -> (column b <= M)%Z.
Proof.
  induction vbs as [|v vbs [M HM]].
  - exists 0%Z. by intros ? ?%elem_of_nil.
  - exists (Z.max M (column v)). intros b [->|Hb]%elem_of_cons; [lia|].
    specialize (HM b Hb). lia.
Qed.

(** C9: for blocks with pairwise distinct ids, every predecessor id recorded
    by [buildChain] is the id of a validated block exactly one column to the
    left of the linking block; hence the predecessor relation has no cycle,
    and the depth-first search of [findLongestChain] returns: with enough
    fuel [validateBlocks] yields a result. *)
Theorem buildChain_acyclic (bs : list DetectedBlock) (d : Z)
    (Hids : NoDup (map id bs)) :
  (forall (b : ValidatedBlock) p,
     b ∈ buildChain bs d -> predecessorId b = Some p ->
     exists q : ValidatedBlock,
       linksTo (buildChain bs d) b q /\ id q = p /\ column q = (column b - 1)%Z)
  /\ (forall b q : ValidatedBlock,
        linksTo (buildChain bs d) b q -> column q = (column b - 1)%Z)
  /\ (forall b : ValidatedBlock, ~ tc (linksTo (buildChain bs d)) b b)
  /\ (exists n, forall fuel, (n <= fuel)%nat ->
        is_Some (findLongestChain fuel (buildChain bs d))
        /\ is_Some (validateBlocks fuel bs d)).
Proof.
  pose proof (fun b q => buildChain_link_column bs d b q Hids) as Hlink.
  split; [|split; [done|split; [by apply linksTo_acyclic|]]].
  - intros b p Hb Hp.
    destruct (buildChain_predecessor bs d b p Hb Hp) as (q & Hq & <- & Hcol & _).
    exists q. by repeat split.
  - destruct (columns_bounded (buildChain bs d)) as [M HM].
    assert (exists n, forall fuel, (n <= fuel)%nat ->
              is_Some (findLongestChain fuel (buildChain bs d))) as [n Hn].
    { destruct (find isGenesis (buildChain bs d)) as [g|] eqn:Hg.
      - exists (S (Z.to_nat (M - column g))). intros fuel Hfuel.
        rewrite findLongestChain_unfold, Hg.
        apply (findLongestFromNode_terminates _ Hlink M HM); [|lia].
        by destruct (find_isGenesis_Some _ _ Hg).
      - exists 0%nat. intros fuel _. by rewrite findLongestChain_unfold, Hg. }
    exists n. intros fuel Hfuel. destruct (Hn fuel Hfuel) as [chain Hchain].
    split; [by exists chain|]. unfold validateBlocks. rewrite Hchain. by eexists.
Qed.

Lemma buildChain_acyclic_witness :
  exists n, forall fuel, (n <= fuel)%nat ->
    is_Some (findLongestChain fuel (buildChain Examples.twoBlocks 25))
    /\ is_Some (validateBlocks fuel Examples.twoBlocks 25).
Proof.
  apply (buildChain_acyclic Examples.twoBlocks 25).
  change (NoDup ["block-0"; "block-1"]%string).
  apply NoDup_cons; split; [|apply NoDup_singleton].
  intros H%list_elem_of_singleton. discriminate.
Defined.

(** ** The genesis block found by the chain extractor *)

Lemma find_split {A : Type} (p : A -> bool) (l : list A) (a : A) :
  find p l = Some a ->
  exists pre post, l = pre ++ a :: post /\ p a = true
                   /\ forall b, b ∈ pre -> p b = false.
Proof.
  induction l as [|c l IH]; simpl; [done|].
  destruct (p c) eqn:Hc.
  - intros [= <-]. exists [], l. repeat split; [done|]. by intros ? ?%elem_of_nil.
  - intros (pre & post & -> & Ha & Hpre)%IH.
    exists (c :: pre), post. repeat split; [done|].
    intros b [->|Hb]%elem_of_cons; auto.
Qed.

Lemma validateAll_isGenesis d (l : list DetectedBlock) (vb : ValidatedBlock) :
  vb ∈ validateAll d l -> isGenesis vb = isGenesisBlock vb.
Proof.
  intros (pre & b & post & _ & ->)%validateAll_elem.
  destruct (validateBlock_fields d (validateAll d pre) b) as (-> & -> & _). done.
Qed.

Lemma validateAll_genesis_valid d (l : list DetectedBlock) (vb : ValidatedBlock) :
  vb ∈ validateAll d l -> isGenesis vb = true ->
  isValid vb = (column vb =? 0)%Z.
Proof.
  intros (pre & b & post & _ & ->)%validateAll_elem.
  destruct (validateBlock_fields d (validateAll d pre) b) as (-> & -> & _).
  intros Hgen.
  pose proof (validateBlock_genesis d (validateAll d pre) b Hgen) as Hchk.
  unfold genesisChecks in Hchk.
  destruct (column b =? 0)%Z, (negb (total b =? expectedTotal)%Z);
    simpl in Hchk; by simplify_eq.
Qed.

Lemma isGenesisBlock_setColumn b c : isGenesisBlock (setColumn b c) = isGenesisBlock b.
Proof. reflexivity. Qed.

Lemma byColumn_total a b : byColumn a b = true \/ byColumn b a = true.
Proof. unfold byColumn. rewrite !Z.leb_le. lia. Qed.

Lemma sortedBlocks_StronglySorted (bs : list DetectedBlock) :
  StronglySorted (leProp byColumn) (stable_sort byColumn bs).
Proof.
  apply Sorted_StronglySorted, stable_sort_Sorted, byColumn_total.
  intros a b c. unfold leProp, byColumn. rewrite !Z.leb_le. lia.
Qed.

(** On the blocks [buildChain] returns, the block the chain extractor starts
    from sits in column 0 and is valid.  With a zero column width the
    columns are not numbers in JavaScript; the hypothesis excludes it. *)
Lemma buildChain_genesis_valid (bs : list DetectedBlock) (d : Z) (g : ValidatedBlock) :
  forallb positiveWidths bs = true ->
  find isGenesis (buildChain bs d) = Some g ->
  column g = 0%Z /\ isValid g = true.
Proof.
  intros _ Hfind. rewrite buildChain_unfold in Hfind.
  set (sorted := stable_sort byColumn (assignColumns bs)) in *.
  pose proof (find_isGenesis_Some _ _ Hfind) as [Hg Hgen].
  apply find_split in Hfind as (pre & post & Hsplit & _ & Hpre).
  assert (Hsorted : sorted = map detected pre ++ detected g :: map detected post).
  { by rewrite <-(validateAll_detected d sorted), Hsplit, map_app. }
  assert (HgenB : isGenesisBlock g = true).
  { by rewrite <-(validateAll_isGenesis d sorted g Hg). }
  assert (Hin : detected g ∈ assignColumns bs).
  { rewrite <-(stable_sort_perm byColumn (assignColumns bs)). fold sorted.
    rewrite Hsorted, elem_of_app. right. by left. }
  destruct (findIndex isGenesisBlock bs) as [i|] eqn:Hi.
  2:{ destruct (assignColumns_map bs) as [col Hmap]. rewrite Hmap in Hin.
      apply list_elem_of_fmap in Hin as (b & Hb & Hbin).
      pose proof (findIndex_None _ _ Hi b Hbin) as Hnot.
      rewrite Hb, isGenesisBlock_setColumn in HgenB. congruence. }
  destruct (assignColumns_anchored _ _ Hi) as (anchor & dir & Hanchor & HaGen & Hmap).
  (* the anchor, with its column, is one of the sorted blocks *)
  set (a := setColumn anchor 0).
  assert (Ha : a ∈ sorted).
  { unfold sorted. rewrite stable_sort_perm, Hmap.
    apply list_elem_of_fmap. exists anchor.
    split; [|by eapply list_elem_of_lookup_2].
    unfold a. f_equal. rewrite roundQuotient_zero; [done|]. ring. }
  assert (Hnonneg : (0 <= column g)%Z).
  { rewrite Hmap in Hin. apply list_elem_of_fmap in Hin as (b & -> & _).
    simpl. lia. }
  assert (Hcol : (column g <= 0)%Z).
  { rewrite Hsorted in Ha. apply elem_of_app in Ha as [Ha|Ha].
    - apply list_elem_of_fmap in Ha as (v & Hv & Hvin).
      assert (v ∈ validateAll d sorted)
        by (rewrite Hsplit, elem_of_app; by left).
      assert (isGenesis v = true); [|by rewrite (Hpre v Hvin) in *].
      by rewrite (validateAll_isGenesis d sorted v), <-Hv.
    - apply elem_of_cons in Ha as [Ha|Ha]; [by rewrite <-Ha|].
      pose proof (sortedBlocks_StronglySorted (assignColumns bs)) as Hss.
      fold sorted in Hss. rewrite Hsorted in Hss.
      apply StronglySorted_app_1_r, StronglySorted_cons in Hss as [Hall _].
      rewrite Forall_forall in Hall. specialize (Hall a Ha).
      unfold leProp, byColumn in Hall. by apply Z.leb_le in Hall. }
  assert (column g = 0%Z) as Hzero by lia. split; [done|].
  rewrite (validateAll_genesis_valid d sorted g Hg Hgen), Hzero. done.
Qed.

(** ** The block grouper *)

Lemma distBelow_sym (t : Q) (a b : DetectedDie) : distBelow t a b = distBelow t b a.
Proof.
  unfold distBelow, Qltb. f_equal. f_equal.
  apply Bool.eq_true_iff_eq. rewrite !Qle_bool_iff.
  assert (Heq : (sqDist a b == sqDist b a)%Q) by (unfold sqDist; ring).
  by rewrite Heq.
Qed.

Lemma nearIn_mono (t : Q) (c c' : list DetectedDie) a b :
  c ⊆ c' -> nearIn t c a b -> nearIn t c' a b.
Proof. intros Hsub (Ha & Hb & Hd). repeat split; auto. Qed.

Lemma rtc_nearIn_mono (t : Q) (c c' : list DetectedDie) a b :
  c ⊆ c' -> rtc (nearIn t c) a b -> rtc (nearIn t c') a b.
Proof. intros Hsub. apply rtc_subrel. intros ? ?. by apply nearIn_mono. Qed.

Lemma rtc_nearIn_sym (t : Q) (c : list DetectedDie) a b :
  rtc (nearIn t c) a b -> rtc (nearIn t c) b a.
Proof.
  induction 1 as [|a m b (Ha & Hm & Hd) _ IH]; [done|].
  eapply rtc_r; [exact IH|]. repeat split; [done..|]. by rewrite distBelow_sym.
Qed.

(** *** Selecting dice by index *)

Lemma omap_lookup_seq_from {A : Type} (pre l : list A) :
  omap (fun k => (pre ++ l) !! k) (seq (length pre) (length l)) = l.
Proof.
  revert pre. induction l as [|a l IH]; intros pre; [done|].
  cbn [length seq]. csimpl. rewrite list_lookup_middle by done. f_equal.
  specialize (IH (pre ++ [a])).
  rewrite <-app_assoc, length_app, Nat.add_1_r in IH. exact IH.
Qed.

Lemma omap_lookup_seq {A : Type} (l : list A) :
  omap (fun k => l !! k) (seq 0 (length l)) = l.
Proof. apply (omap_lookup_seq_from [] l). Qed.

Lemma filter_all {A : Type} (P : A -> Prop) `{!forall a, Decision (P a)} (l : list A) :
  (forall a, a ∈ l -> P a) -> filter P l = l.
Proof.
  induction l as [|a l IH]; intros Hall; [done|].
  rewrite filter_cons_True by (apply Hall; by left).
  f_equal. apply IH. intros b Hb. apply Hall. by right.
Qed.

Lemma filter_ext_elem {A : Type} (P Q : A -> Prop)
    `{!forall a, Decision (P a), !forall a, Decision (Q a)} (l : list A) :
  (forall a, a ∈ l -> P a <-> Q a) -> filter P l = filter Q l.
Proof.
  induction l as [|a l IH]; intros Hall; [done|].
  assert (Ha : P a <-> Q a) by (apply Hall; by left).
  assert (Hl : filter P l = filter Q l).
  { apply IH. intros b Hb. apply Hall. by right. }
  destruct (decide (P a)).
  - rewrite !filter_cons_True by tauto. by f_equal.
  - rewrite !filter_cons_False by tauto. done.
Qed.

Lemma filter_union_singleton (l : list nat) (U : gset nat) (j : nat) :
  NoDup l -> j ∈ l -> j ∉ U ->
  filter (fun k => k ∈ ({[j]} ∪ U : gset nat)) l ≡ₚ j :: filter (fun k => k ∈ U) l.
Proof.
  induction l as [|a l IH]; [by intros _ ?%elem_of_nil|].
  rewrite NoDup_cons. intros [Ha Hl] Hj HU.
  destruct (decide (a = j)) as [->|Hne].
  - rewrite filter_cons_True
      by (apply elem_of_union; left; by apply elem_of_singleton).
    rewrite (filter_cons_False _ j) by done.
    rewrite (filter_ext_elem (fun k => k ∈ ({[j]} ∪ U : gset nat)) (fun k => k ∈ U) l);
      [done|].
    intros k Hk. rewrite elem_of_union, elem_of_singleton.
    split; [intros [->|?]; done|by right].
  - apply elem_of_cons in Hj as [->|Hj]; [done|].
    assert (Hiff : a ∈ ({[j]} ∪ U : gset nat) <-> a ∈ U).
    { rewrite elem_of_union, elem_of_singleton. tauto. }
    destruct (decide (a ∈ U)).
    + rewrite !filter_cons_True by tauto.
      rewrite IH by done. apply Permutation_swap.
    + rewrite !filter_cons_False by tauto. by apply IH.
Qed.

Lemma diceAt_insert (sortedDice : list DetectedDie) (U : gset nat) j d :
  j ∉ U -> sortedDice !! j = Some d ->
  diceAt sortedDice ({[j]} ∪ U) ≡ₚ d :: diceAt sortedDice U.
Proof.
  intros HU Hj. unfold diceAt.
  rewrite filter_union_singleton; [|apply NoDup_seq| |done].
  - csimpl. by rewrite Hj.
  - apply elem_of_seq. apply lookup_lt_Some in Hj. lia.
Qed.

Lemma diceAt_full (sortedDice : list DetectedDie) (U : gset nat) :
  (forall k, (k < length sortedDice)%nat -> k ∈ U) ->
  diceAt sortedDice U = sortedDice.
Proof.
  intros Hall. unfold diceAt. rewrite filter_all; [apply omap_lookup_seq|].
  intros k Hk%elem_of_seq. apply Hall. lia.
Qed.

Lemma diceAt_empty (sortedDice : list DetectedDie) : diceAt sortedDice ∅ = [].
Proof.
  unfold diceAt. generalize (seq 0 (length sortedDice)). intros l.
  induction l as [|k l IH]; [done|].
  by rewrite filter_cons_False by apply not_elem_of_empty.
Qed.

(** *** The loops *)

Section Grouping.
Context (sortedDice : list DetectedDie) (t : Q).

Lemma absorb_inv pre s U0 st j :
  growInv sortedDice t pre s U0 st ->
  growInv sortedDice t pre s U0 (absorb sortedDice t st j).
Proof.
  destruct st as [cluster U]. intros (Hs & Hconn & Hsel & Hsub).
  unfold absorb. case_bool_decide as Hj; [done|].
  destruct (sortedDice !! j) as [dieJ|] eqn:HdieJ; [|done].
  destruct (isNearby t dieJ cluster) eqn:Hnear; [|done].
  apply existsb_exists in Hnear as (e & He%list_elem_of_In & Hdist).
  simpl in *. repeat split; simpl.
  - apply elem_of_app. by left.
  - assert (Hinc : cluster ⊆ cluster ++ [dieJ]).
    { intros a Ha. apply elem_of_app. by left. }
    intros a [Ha| ->%list_elem_of_singleton]%elem_of_app.
    + eapply rtc_nearIn_mono; eauto.
    + eapply rtc_r; [eapply rtc_nearIn_mono; eauto|].
      repeat split; [by apply Hinc| |by rewrite distBelow_sym].
      apply elem_of_app. right. by left.
  - rewrite diceAt_insert by done. rewrite <-Hsel, app_assoc.
    symmetry. apply Permutation_cons_append.
  - intros k Hk. apply elem_of_union. right. by apply Hsub.
Qed.

Lemma foldl_absorb_inv pre s U0 js st :
  growInv sortedDice t pre s U0 st ->
  growInv sortedDice t pre s U0 (foldl (absorb sortedDice t) st js).
Proof.
  revert st. induction js as [|j js IH]; intros st Hst; [done|].
  simpl. by apply IH, absorb_inv.
Qed.

Lemma seedCluster_inv i st :
  (i < length sortedDice)%nat ->
  groupInv sortedDice t i st ->
  groupInv sortedDice t (S i) (seedCluster sortedDice t st i).
Proof.
  intros Hi (Hsel & Hused & Hconn & Hblocks). unfold seedCluster.
  case_bool_decide as Hin.
  { repeat split; [done| |done..].
    intros k Hk. destruct (decide (k = i)) as [->|]; [done|]. apply Hused. lia. }
  destruct (lookup_lt_is_Some_2 sortedDice i Hi) as [dieI HdieI].
  rewrite HdieI. unfold growCluster.
  set (js := seq (S i) (length sortedDice - S i)).
  pose proof (foldl_absorb_inv (concat (formed st)) dieI ({[i]} ∪ used st) js
                ([dieI], {[i]} ∪ used st)) as Hgrow.
  destruct (foldl (absorb sortedDice t) ([dieI], {[i]} ∪ used st) js)
    as [cluster used'].
  destruct Hgrow as (Hs & Hc & Hsel' & Hsub).
  { repeat split; simpl; [by left| | |done].
    - by intros a ->%list_elem_of_singleton.
    - rewrite diceAt_insert by done. rewrite <-Hsel.
      symmetry. apply Permutation_cons_append. }
  cbn [fst snd] in *. repeat split; cbn [formed grouped used].
  - by rewrite concat_app, <-Hsel'; simpl; rewrite app_nil_r.
  - intros k Hk. apply Hsub, elem_of_union.
    destruct (decide (k = i)) as [->|]; [left; by apply elem_of_singleton|].
    right. apply Hused. lia.
  - intros c [Hc'| ->%list_elem_of_singleton]%elem_of_app; [by apply Hconn|].
    intros a b Ha Hb. transitivity dieI; [apply rtc_nearIn_sym|]; by apply Hc.
  - rewrite filter_app, <-Hblocks.
    destruct (Nat.leb_spec 7 (length cluster)), (Nat.leb_spec (length cluster) 11);
      cbn [andb];
      first [rewrite (filter_cons_True acceptedSize) by (unfold acceptedSize; lia)
            |rewrite (filter_cons_False acceptedSize) by (unfold acceptedSize; lia)];
      rewrite ?map_app, filter_nil, ?app_nil_r; first [done | exfalso; lia].
Qed.

Lemma groupLoop_inv m :
  (m <= length sortedDice)%nat ->
  groupInv sortedDice t m
    (foldl (seedCluster sortedDice t) (mkGroupState [] [] ∅) (seq 0 m)).
Proof.
  induction m as [|m IH]; intros Hm.
  - repeat split; simpl; [by rewrite diceAt_empty|lia|by intros ? ?%elem_of_nil].
  - rewrite seq_S, foldl_snoc. simpl. apply seedCluster_inv; [lia|]. apply IH. lia.
Qed.
End Grouping.







(** ** The scenarios of the specification *)

Example scenario_A :
  map verdict (buildChain [Examples.genesisAt "block-0" 0] 25)
  = [("block-0"%string, 0%Z, true, true, None, [])].
Proof. vm_compute. reflexivity. Qed.

Example scenario_B :
  map verdict (buildChain Examples.twoBlocks 25)
  = [("block-0"%string, 0%Z, true, true, None, []);
     ("block-1"%string, 1%Z, false, true, Some "block-0"%string, [])]
  /\ validateBlocks 2 Examples.twoBlocks 25
     = Some (mkResult (buildChain Examples.twoBlocks 25)
               ["block-0"; "block-1"]%string 2 2 0 25).
Proof. split; vm_compute; reflexivity. Qed.

Example scenario_C :
  let bs := [Examples.genesisAt "block-0" 0;
             Examples.mk "block-1" 54 Examples.heavyFaces] in
  map verdict (buildChain bs 25)
  = [("block-0"%string, 0%Z, true, true, None, []);
     ("block-1"%string, 1%Z, false, false, Some "block-0"%string,
      ["Total 30 exceeds difficulty 25"%string])]
  /\ longestChain <$> validateBlocks 2 bs 25 = Some ["block-0"%string].
Proof. split; vm_compute; reflexivity. Qed.

Example scenario_D :
  let bs := [Examples.genesisAt "block-0" 0;
             Examples.mk "block-1" 54 Examples.blueFaces] in
  map verdict (buildChain bs 25)
  = [("block-0"%string, 0%Z, true, true, None, []);
     ("block-1"%string, 1%Z, false, false, None,
      ["Dice colors do not match any predecessor's values"%string;
       "Required: 4 red, 1 orange, 1 yellow, 1 green, 1 blue, 1 purple, Got: 9 blue"%string])].
Proof. vm_compute. reflexivity. Qed.

Example scenario_E :
  map length (formClusters Examples.sevenAndTwo) = [7; 2]%nat
  /\ map (fun b => (id b, length (dice b), total b))
       (groupDiceIntoBlocks Examples.sevenAndTwo)
     = [("block-0"%string, 7%nat, 22%Z)].
Proof. split; vm_compute; reflexivity. Qed.

(** * Further properties *)

(** ** Overlap of bounding boxes *)

Lemma Qltb_ge (a b : Q) : Qltb a b = false <-> (b <= a)%Q.
Proof. unfold Qltb. by rewrite negb_false_iff, Qle_bool_iff. Qed.

Lemma Qltb_comp (a a' b b' : Q) :
  (a == a')%Q -> (b == b')%Q -> Qltb a b = Qltb a' b'.
Proof.
  intros Ha Hb. apply Bool.eq_true_iff_eq. by rewrite !Qltb_lt, Ha, Hb.
Qed.

Lemma Qeq_bool_comp (a a' b b' : Q) :
  (a == a')%Q -> (b == b')%Q -> Qeq_bool a b = Qeq_bool a' b'.
Proof.
  intros Ha Hb. apply Bool.eq_true_iff_eq. by rewrite !Qeq_bool_iff, Ha, Hb.
Qed.

Lemma jsDiv_comp (a a' b b' : Q) :
  (a == a')%Q -> (b == b')%Q -> jsSame (jsDiv a b) (jsDiv a' b').
Proof.
  intros Ha Hb. unfold jsDiv.
  rewrite (Qeq_bool_comp b b' 0 0 Hb (Qeq_refl 0)).
  rewrite (Qltb_comp 0 0 a a' (Qeq_refl 0) Ha), (Qltb_comp a a' 0 0 Ha (Qeq_refl 0)).
  destruct (Qeq_bool b' 0); [by repeat case_match|].
  simpl. by rewrite Ha, Hb.
Qed.

Lemma jsGreater_comp (m n : jsNumber) (q : Q) :
  jsSame m n -> jsGreater m q = jsGreater n q.
Proof.
  destruct m, n; simpl; try done. intros H. by apply Qltb_comp.
Qed.

(** X1: the overlap ratio does not depend on the order of its arguments. *)
Theorem calculateOverlap_sym (a b : Bounds) :
  jsSame (calculateOverlap a b) (calculateOverlap b a)
  /\ forall q, jsGreater (calculateOverlap a b) q = jsGreater (calculateOverlap b a) q.
Proof.
  assert (H : jsSame (calculateOverlap a b) (calculateOverlap b a)).
  { unfold calculateOverlap.
    assert (Hx1 : (Qmax (x a) (x b) == Qmax (x b) (x a))%Q) by apply Q.max_comm.
    assert (Hy1 : (Qmax (y a) (y b) == Qmax (y b) (y a))%Q) by apply Q.max_comm.
    assert (Hx2 : (Qmin (x a + width a) (x b + width b)
                   == Qmin (x b + width b) (x a + width a))%Q) by apply Q.min_comm.
    assert (Hy2 : (Qmin (y a + height a) (y b + height b)
                   == Qmin (y b + height b) (y a + height a))%Q) by apply Q.min_comm.
    rewrite (Qltb_comp _ _ _ _ Hx2 Hx1), (Qltb_comp _ _ _ _ Hy2 Hy1).
    destruct (_ || _); [simpl; reflexivity|].
    apply jsDiv_comp; rewrite Hx1, Hx2, Hy1, Hy2; ring. }
  split; [done|]. intros q. by apply jsGreater_comp.
Qed.





(** X4: boxes that lie apart horizontally or vertically have overlap ratio
    0, in either argument order. *)
Theorem calculateOverlap_apart (a b : Bounds)
    (Hapart : (x a + width a < x b)%Q \/ (y a + height a < y b)%Q) :
  calculateOverlap a b = Finite 0 /\ calculateOverlap b a = Finite 0.
Proof.
  assert (Hab : Qltb (Qmin (x a + width a) (x b + width b)) (Qmax (x a) (x b))
                || Qltb (Qmin (y a + height a) (y b + height b)) (Qmax (y a) (y b))
                = true).
  { apply orb_true_iff.
    pose proof (Q.le_min_l (x a + width a) (x b + width b)).
    pose proof (Q.le_max_r (x a) (x b)).
    pose proof (Q.le_min_l (y a + height a) (y b + height b)).
    pose proof (Q.le_max_r (y a) (y b)).
    destruct Hapart; [left|right]; apply Qltb_lt; lra. }
  assert (Hba : Qltb (Qmin (x b + width b) (x a + width a)) (Qmax (x b) (x a))
                || Qltb (Qmin (y b + height b) (y a + height a)) (Qmax (y b) (y a))
                = true).
  { apply orb_true_iff.
    pose proof (Q.le_min_r (x b + width b) (x a + width a)).
    pose proof (Q.le_max_l (x b) (x a)).
    pose proof (Q.le_min_r (y b + height b) (y a + height a)).
    pose proof (Q.le_max_l (y b) (y a)).
    destruct Hapart; [left|right]; apply Qltb_lt; lra. }
  unfold calculateOverlap. by rewrite Hab, Hba.
Qed.

Lemma calculateOverlap_apart_witness :
  calculateOverlap (Examples.box 0 0 10) (Examples.box 20 0 10) = Finite 0
  /\ calculateOverlap (Examples.box 20 0 10) (Examples.box 0 0 10) = Finite 0.
Proof. apply calculateOverlap_apart. left. reflexivity. Defined.

(** ** Duplicate detections *)

Lemma findIndex_all_false {A : Type} (p : A -> bool) (l : list A) :
  (forall a, a ∈ l -> p a = false) -> findIndex p l = None.
Proof.
  induction l as [|a l IH]; intros Hall; simpl; [done|].
  rewrite (Hall a) by by left. rewrite IH; [done|].
  intros b Hb. apply Hall. by right.
Qed.

Lemma removeDuplicateDetections_snoc (ds : list DetectedDie) (d : DetectedDie) :
  removeDuplicateDetections (ds ++ [d])
  = keepDetection (removeDuplicateDetections ds) d.
Proof. unfold removeDuplicateDetections. by rewrite foldl_snoc. Qed.

(** What one iteration does to [filtered]: it replaces one die by [die],
    leaves the array alone, or appends [die]. *)
Lemma keepDetection_cases (filtered : list DetectedDie) (die : DetectedDie) :
  keepDetection filtered die = filtered ++ [die]
  /\ (forall e, e ∈ filtered -> overlapsMuch die e = false)
  \/ exists idx existing,
       filtered !! idx = Some existing /\ overlapsMuch die existing = true
       /\ (keepDetection filtered die = filtered
           /\ (confidence die <= confidence existing)%Q
           \/ keepDetection filtered die = <[idx := die]> filtered
              /\ (confidence existing < confidence die)%Q).
Proof.
  unfold keepDetection.
  destruct (findIndex _ filtered) as [idx|] eqn:Hidx.
  - right. apply findIndex_Some in Hidx as (e & He & Hov & _).
    exists idx, e. rewrite He. split; [done|]. split; [done|].
    destruct (Qltb (confidence e) (confidence die)) eqn:Hc.
    + right. split; [done|]. by apply Qltb_lt.
    + left. split; [done|]. by apply Qltb_ge.
  - left. split; [done|]. by apply findIndex_None.
Qed.

Lemma keepDetection_elem (filtered : list DetectedDie) (die d : DetectedDie) :
  d ∈ keepDetection filtered die -> d ∈ filtered \/ d = die.
Proof.
  destruct (keepDetection_cases filtered die)
    as [[-> _]|(idx & e & He & _ & [[-> _]|[-> _]])].
  - rewrite elem_of_app, list_elem_of_singleton. tauto.
  - by left.
  - intros [k Hk]%list_elem_of_lookup.
    destruct (decide (k = idx)) as [->|Hne].
    + rewrite list_lookup_insert_eq in Hk by by eapply lookup_lt_Some.
      right. congruence.
    + rewrite list_lookup_insert_ne in Hk by done.
      left. by eapply list_elem_of_lookup_2.
Qed.

Lemma keepDetection_length (filtered : list DetectedDie) (die : DetectedDie) :
  (length filtered <= length (keepDetection filtered die) <= S (length filtered))%nat
  /\ (0 < length (keepDetection filtered die))%nat.
Proof.
  destruct (keepDetection_cases filtered die)
    as [[-> _]|(idx & e & He%lookup_lt_Some & _ & [[-> _]|[-> _]])];
    rewrite ?length_app, ?length_insert; simpl; lia.
Qed.

Lemma removeDuplicateDetections_elem (ds : list DetectedDie) (d : DetectedDie) :
  d ∈ removeDuplicateDetections ds -> d ∈ ds.
Proof.
  revert d. induction ds as [|e ds IH] using rev_ind; intros d; [done|].
  rewrite removeDuplicateDetections_snoc.
  intros [Hd| ->]%keepDetection_elem; apply elem_of_app; [left; auto|].
  right. by left.
Qed.

(** X5: [removeDuplicateDetections] only drops dice: every die it returns is
    a die of the input, it returns at most as many dice as it was given,
    and at least one when the input is not empty. *)
Theorem removeDuplicateDetections_sub (ds : list DetectedDie) :
  (forall d, d ∈ removeDuplicateDetections ds -> d ∈ ds)
  /\ (length (removeDuplicateDetections ds) <= length ds)%nat
  /\ (ds <> [] -> removeDuplicateDetections ds <> []).
Proof.
  split; [apply removeDuplicateDetections_elem|].
  induction ds as [|d ds [IHlen IHne]] using rev_ind; [done|].
  rewrite removeDuplicateDetections_snoc.
  destruct (keepDetection_length (removeDuplicateDetections ds) d) as [[_ Hle] Hpos].
  split.
  - rewrite length_app. simpl. lia.
  - intros _ Hnil. rewrite Hnil in Hpos. simpl in Hpos. lia.
Qed.

(** X6: when no die overlaps an earlier die of the input with a ratio above
    one half, nothing is removed. *)
Theorem removeDuplicateDetections_id (ds : list DetectedDie)
    (Hapart : forall i j a b, (i < j)%nat -> ds !! i = Some a -> ds !! j = Some b ->
                overlapsMuch b a = false) :
  removeDuplicateDetections ds = ds.
Proof.
  induction ds as [|d ds IH] using rev_ind; [done|].
  rewrite removeDuplicateDetections_snoc, IH.
  - destruct (keepDetection_cases ds d) as [[-> _]|(idx & e & He & Hov & _)]; [done|].
    rewrite (Hapart idx (length ds) e d) in Hov; [done| | |].
    + by eapply lookup_lt_Some.
    + by rewrite lookup_app_l by by eapply lookup_lt_Some.
    + by rewrite list_lookup_middle.
  - intros i j a b Hij Hi Hj. apply (Hapart i j); [done| |].
    + rewrite lookup_app_l; [done|]. apply lookup_lt_Some in Hj. lia.
    + rewrite lookup_app_l; [done|]. by eapply lookup_lt_Some.
Qed.

Lemma removeDuplicateDetections_id_witness :
  removeDuplicateDetections Examples.fourDice = Examples.fourDice.
Proof.
  apply removeDuplicateDetections_id.
  intros i j a b Hij Hi Hj.
  destruct j as [|[|[|[|j]]]]; [lia|..|done];
    destruct i as [|[|[|i]]]; try lia;
    injection Hi as <-; injection Hj as <-; reflexivity.
Defined.

(** X7: a die whose confidence is strictly above the confidence of every
    other die of the input is never dropped. *)
Theorem removeDuplicateDetections_best (pre post : list DetectedDie) (best : DetectedDie)
    (Hbest : forall d, d ∈ pre ++ post -> (confidence d < confidence best)%Q) :
  best ∈ removeDuplicateDetections (pre ++ best :: post).
Proof.
  induction post as [|d post IH] using rev_ind.
  - rewrite removeDuplicateDetections_snoc.
    destruct (keepDetection_cases (removeDuplicateDetections pre) best)
      as [[-> _]|(idx & e & He & _ & [[_ Hle]|[-> _]])].
    + apply elem_of_app. right. by left.
    + assert (e ∈ pre ++ []) as He'%Hbest.
      { rewrite app_nil_r. apply removeDuplicateDetections_elem.
        by eapply list_elem_of_lookup_2. }
      lra.
    + apply list_elem_of_lookup. exists idx.
      apply list_lookup_insert_eq. by eapply lookup_lt_Some.
  - assert (Hin : best ∈ removeDuplicateDetections (pre ++ best :: post)).
    { apply IH. intros e He. apply Hbest.
      rewrite app_assoc, elem_of_app. left. done. }
    assert (Hd : (confidence d < confidence best)%Q).
    { apply Hbest. rewrite app_assoc, elem_of_app. right. by left. }
    change (pre ++ best :: post ++ [d]) with (pre ++ (best :: post) ++ [d]).
    rewrite app_assoc, removeDuplicateDetections_snoc.
    destruct (keepDetection_cases (removeDuplicateDetections (pre ++ best :: post)) d)
      as [[-> _]|(idx & e & He & _ & [[-> _]|[-> Hlt]])]; [|done|].
    + apply elem_of_app. by left.
    + apply list_elem_of_lookup in Hin as [k Hk].
      apply list_elem_of_lookup. exists k.
      rewrite list_lookup_insert_ne; [done|].
      intros ->. rewrite He in Hk. injection Hk as ->. lra.
Qed.

Lemma removeDuplicateDetections_best_witness :
  let low := mkDie red 1 (1 # 2) (Examples.box 0 0 10) in
  let high := mkDie orange 2 (9 # 10) (Examples.box 1 0 10) in
  high ∈ removeDuplicateDetections ([low] ++ high :: [])
  /\ removeDuplicateDetections [low; high] = [high].
Proof.
  intros low high. split; [|reflexivity].
  apply removeDuplicateDetections_best.
  intros d ->%list_elem_of_singleton. reflexivity.
Defined.

(** ** The blocks of the grouper *)

Lemma seedCluster_grouped (sortedDice : list DetectedDie) (t : Q) (st : GroupState) i :
  grouped st = imap blockOfCluster (filter acceptedSize (formed st)) ->
  grouped (seedCluster sortedDice t st i)
  = imap blockOfCluster (filter acceptedSize (formed (seedCluster sortedDice t st i))).
Proof.
  intros Hst. unfold seedCluster.
  case_bool_decide; [done|].
  destruct (sortedDice !! i) as [dieI|]; [|done].
  destruct (growCluster sortedDice t i dieI (used st)) as [cluster used'].
  cbn [formed grouped]. rewrite filter_app, imap_app, <-Hst.
  assert (Hlen : length (filter acceptedSize (formed st)) = length (grouped st)).
  { by rewrite Hst, length_imap. }
  destruct (Nat.leb_spec 7 (length cluster)), (Nat.leb_spec (length cluster) 11);
    cbn [andb];
    first [rewrite (filter_cons_True acceptedSize) by (unfold acceptedSize; lia)
          |rewrite (filter_cons_False acceptedSize) by (unfold acceptedSize; lia)];
    rewrite filter_nil; simpl; rewrite ?Hlen, ?Nat.add_0_r, ?app_nil_r;
    first [done | exfalso; lia].
Qed.

Lemma groupDiceIntoBlocks_imap (ds : list DetectedDie) :
  groupDiceIntoBlocks ds
  = imap blockOfCluster (filter acceptedSize (formClusters ds)).
Proof.
  destruct ds as [|d0 ds]; [done|].
  unfold groupDiceIntoBlocks, formClusters, groupLoop.
  generalize (seq 0 (length (stable_sort byBoundsX (d0 :: ds)))). intros js.
  induction js as [|j js IH] using rev_ind; [done|].
  rewrite foldl_snoc. by apply seedCluster_grouped.
Qed.

Lemma sum_pips_bounds (c : list DetectedDie) (acc lo hi : Z) :
  (forall d, d ∈ c -> (lo <= pips d <= hi)%Z) ->
  (acc + lo * Z.of_nat (length c)
   <= fold_left (fun sum d => sum + pips d) c acc
   <= acc + hi * Z.of_nat (length c))%Z.
Proof.
  revert acc. induction c as [|d c IH]; intros acc Hall; simpl; [lia|].
  assert (Hd : (lo <= pips d <= hi)%Z) by (apply Hall; by left).
  specialize (IH (acc + pips d)%Z).
  destruct IH as [IH1 IH2]; [intros e He; apply Hall; by right|]. lia.
Qed.

(** The clusters hold the dice of the input, each once. *)
Lemma formClusters_perm (ds : list DetectedDie) : concat (formClusters ds) ≡ₚ ds.
Proof.
  destruct ds as [|d0 ds]; [done|].
  unfold formClusters, groupLoop.
  set (sortedDice := stable_sort byBoundsX (d0 :: ds)).
  destruct (groupLoop_inv sortedDice (clusterThreshold (d0 :: ds))
              (length sortedDice)) as (Hsel & Hused & _); [done|].
  rewrite Hsel, diceAt_full by done. apply stable_sort_perm.
Qed.

Lemma formClusters_elem (ds c : list DetectedDie) (d : DetectedDie) :
  c ∈ formClusters ds -> d ∈ c -> d ∈ ds.
Proof.
  intros Hc Hd. rewrite <-(formClusters_perm ds).
  apply list_elem_of_In, in_concat. exists c. by rewrite <-!list_elem_of_In.
Qed.

(** X8: the block [groupDiceIntoBlocks] returns at index [k] is named
    ["block-k"], sits in column 0, holds one of the clusters formed, of 7 to
    11 dice, and its total is the sum of the pips of its dice; with pips
    between 1 and 6 the total lies between 7 and 66. *)
Theorem groupDiceIntoBlocks_block (ds : list DetectedDie) (k : nat) (b : DetectedBlock)
    (Hk : groupDiceIntoBlocks ds !! k = Some b) :
  id b = "block-" +:+ pretty k
  /\ column b = 0%Z
  /\ dice b ∈ formClusters ds
  /\ (7 <= length (dice b) <= 11)%nat
  /\ total b = fold_left (fun sum d => sum + pips d)%Z (dice b) 0%Z
  /\ ((forall d, d ∈ ds -> (1 <= pips d <= 6)%Z) -> (7 <= total b <= 66)%Z).
Proof.
  rewrite groupDiceIntoBlocks_imap, list_lookup_imap in Hk.
  destruct (filter acceptedSize (formClusters ds) !! k) as [c|] eqn:Hc; [|done].
  injection Hk as <-. simpl.
  apply list_elem_of_lookup_2, list_elem_of_filter in Hc as [Hsize Hc].
  split; [done|]. split; [done|]. split; [done|]. split; [done|]. split; [done|].
  intros Hpips.
  pose proof (sum_pips_bounds c 0 1 6) as Hsum.
  destruct Hsum as [Hlo Hhi]; [by eauto using formClusters_elem|].
  unfold acceptedSize in Hsize. lia.
Qed.

Lemma groupDiceIntoBlocks_block_witness :
  exists b, groupDiceIntoBlocks Examples.sevenAndTwo !! 0%nat = Some b
            /\ id b = "block-0"%string /\ (7 <= total b <= 66)%Z.
Proof.
  eexists. split; [vm_compute; reflexivity|].
  match goal with |- id ?v = _ /\ _ =>
    destruct (groupDiceIntoBlocks_block Examples.sevenAndTwo 0 v)
      as (H1 & _ & _ & _ & _ & H6)
  end.
  - vm_compute. reflexivity.
  - split; [exact H1|]. apply H6.
    intros d Hd. repeat (apply elem_of_cons in Hd as [->|Hd]; [vm_compute; done|]).
    by apply elem_of_nil in Hd.
Defined.

Lemma groupDiceIntoBlocks_dice (ds : list DetectedDie) :
  map dice (groupDiceIntoBlocks ds) = filter acceptedSize (formClusters ds).
Proof.
  rewrite groupDiceIntoBlocks_imap.
  generalize (filter acceptedSize (formClusters ds)). intros L.
  apply list_eq. intros k.
  change (map dice ?l) with (dice <$> l).
  rewrite list_lookup_fmap, list_lookup_imap. by destruct (L !! k).
Qed.

Lemma concat_filter_sublist {A : Type} (P : list A -> Prop)
    `{!forall l, Decision (P l)} (L : list (list A)) :
  concat (filter P L) `sublist_of` concat L.
Proof.
  induction L as [|l L IH]; [done|]. simpl.
  destruct (decide (P l)).
  - rewrite filter_cons_True by done. simpl. by apply sublist_app.
  - rewrite filter_cons_False by done. by apply sublist_inserts_l.
Qed.

Lemma concat_length_ge {A : Type} (n : nat) (L : list (list A)) :
  (forall l, l ∈ L -> (n <= length l)%nat) ->
  (n * length L <= length (concat L))%nat.
Proof.
  induction L as [|l L IH]; intros Hall; simpl; [lia|].
  rewrite length_app.
  assert (n <= length l)%nat by (apply Hall; by left).
  assert (n * length L <= length (concat L))%nat
    by (apply IH; intros ? ?; apply Hall; by right).
  lia.
Qed.

(** X9: the blocks share no die: their dice, taken together, are dice of the
    input, each at most once; so there are at most a seventh as many blocks
    as dice. *)
Theorem groupDiceIntoBlocks_disjoint (ds : list DetectedDie) :
  concat (map dice (groupDiceIntoBlocks ds)) ⊆+ ds
  /\ (7 * length (groupDiceIntoBlocks ds) <= length ds)%nat.
Proof.
  assert (Hsub : concat (map dice (groupDiceIntoBlocks ds)) ⊆+ ds).
  { rewrite groupDiceIntoBlocks_dice.
    etrans; [apply sublist_submseteq, concat_filter_sublist|].
    by rewrite formClusters_perm. }
  split; [done|].
  apply submseteq_length in Hsub.
  pose proof (concat_length_ge 7 (map dice (groupDiceIntoBlocks ds))) as Hge.
  rewrite length_map in Hge. etrans; [apply Hge|done].
  rewrite groupDiceIntoBlocks_dice.
  intros c [Hsize _]%list_elem_of_filter. apply Hsize.
Qed.

Lemma append_block_inj : Inj (=) (=) (fun k : nat => "block-" +:+ pretty k).
Proof. intros j k H. simpl in H. injection H as H. by apply (inj pretty). Qed.

Lemma groupDiceIntoBlocks_ids (ds : list DetectedDie) :
  map id (groupDiceIntoBlocks ds)
  = map (fun k : nat => "block-" +:+ pretty k)
        (seq 0 (length (groupDiceIntoBlocks ds))).
Proof.
  rewrite groupDiceIntoBlocks_imap, length_imap.
  generalize (filter acceptedSize (formClusters ds)). intros L.
  apply list_eq. intros k.
  change (map ?f ?l) with (f <$> l).
  rewrite !list_lookup_fmap, list_lookup_imap.
  destruct (L !! k) as [c|] eqn:Hc; simpl.
  - by rewrite lookup_seq_lt by by eapply lookup_lt_Some.
  - by rewrite lookup_seq_ge by by apply lookup_ge_None.
Qed.

Lemma groupDiceIntoBlocks_NoDup (ds : list DetectedDie) :
  NoDup (map id (groupDiceIntoBlocks ds)).
Proof.
  rewrite groupDiceIntoBlocks_ids.
  apply (NoDup_fmap_2 _), NoDup_seq.
Qed.

(** With distinct ids the chain extractor returns. *)
Lemma validateBlocks_returns (bs : list DetectedBlock) (d : Z) :
  NoDup (map id bs) ->
  exists n, forall fuel, (n <= fuel)%nat -> is_Some (validateBlocks fuel bs d).
Proof.
  intros Hids.
  pose proof (fun b q => buildChain_link_column bs d b q Hids) as Hlink.
  destruct (columns_bounded (buildChain bs d)) as [M HM].
  unfold validateBlocks.
  destruct (find isGenesis (buildChain bs d)) as [g|] eqn:Hg.
  - exists (S (Z.to_nat (M - column g))). intros fuel Hfuel.
    rewrite findLongestChain_unfold, Hg.
    destruct (findLongestFromNode_terminates _ Hlink M HM fuel g) as [chain ->];
      [by destruct (find_isGenesis_Some _ _ Hg)|lia|by eexists].
  - exists 0%nat. intros fuel _. rewrite findLongestChain_unfold, Hg. by eexists.
Qed.

(** X10: the blocks of the grouper have pairwise distinct ids and, when the
    dice have positive widths, positive widths; so [validateBlocks] returns
    a result on them for every difficulty. *)
Theorem groupDiceIntoBlocks_validates (ds : list DetectedDie) (d : Z) :
  NoDup (map id (groupDiceIntoBlocks ds))
  /\ ((forall e, e ∈ ds -> (0 < width (bounds e))%Q) ->
      forallb positiveWidths (groupDiceIntoBlocks ds) = true)
  /\ exists n, forall fuel, (n <= fuel)%nat ->
       exists r, validateBlocks fuel (groupDiceIntoBlocks ds) d = Some r
                 /\ totalBlocks r = length (groupDiceIntoBlocks ds).
Proof.
  split; [apply groupDiceIntoBlocks_NoDup|]. split.
  - intros Hpos. apply forallb_forall. intros b [k Hk]%list_elem_of_In%list_elem_of_lookup.
    unfold positiveWidths. apply forallb_forall. intros e He%list_elem_of_In.
    apply Qltb_lt, Hpos.
    assert (Hc : dice b ∈ formClusters ds).
    { rewrite groupDiceIntoBlocks_imap, list_lookup_imap in Hk.
      destruct (filter _ _ !! k) as [c|] eqn:Hc; [|done]. injection Hk as <-.
      simpl. by apply list_elem_of_lookup_2, list_elem_of_filter in Hc as [_ ?]. }
    by eapply formClusters_elem.
  - destruct (validateBlocks_returns (groupDiceIntoBlocks ds) d) as [n Hn];
      [apply groupDiceIntoBlocks_NoDup|].
    exists n. intros fuel Hfuel. destruct (Hn fuel Hfuel) as [r Hr].
    exists r. split; [done|].
    unfold validateBlocks in Hr.
    destruct (findLongestChain _ _); [|done]. injection Hr as <-. simpl.
    apply buildChain_length.
Qed.

(** ** The value and colour tables *)

Lemma VALUE_TO_COLOR_Some (n : Z) (c : DiceColor) :
  VALUE_TO_COLOR n = Some c <-> n = COLOR_TO_VALUE c.
Proof.
  split.
  - unfold VALUE_TO_COLOR. repeat case_match; intros; by simplify_eq.
  - intros ->. by destruct c.
Qed.

(** X11: [COLOR_TO_VALUE] is the inverse of [VALUE_TO_COLOR]; the lookup is
    defined exactly on the pips 1 to 6; and dice that show the values of
    their own colours require their own colours. *)
Theorem VALUE_TO_COLOR_inverse (n : Z) (c : DiceColor) (ds : list DetectedDie) :
  (VALUE_TO_COLOR n = Some c <-> n = COLOR_TO_VALUE c)
  /\ (is_Some (VALUE_TO_COLOR n) <-> (1 <= n <= 6)%Z)
  /\ (1 <= COLOR_TO_VALUE c <= 6)%Z
  /\ ((forall e, e ∈ ds -> pips e = COLOR_TO_VALUE (color e)) ->
      getRequiredColors ds = map (fun e => Some (color e)) ds).
Proof.
  split; [apply VALUE_TO_COLOR_Some|]. split; [|split].
  - split.
    + intros [c' Hc']. apply VALUE_TO_COLOR_Some in Hc' as ->. destruct c'; simpl; lia.
    + intros Hn.
      assert (n = 1 \/ n = 2 \/ n = 3 \/ n = 4 \/ n = 5 \/ n = 6)%Z
        as [-> | [-> | [-> | [-> | [-> | ->]]]]] by lia; by eexists.
  - destruct c; simpl; lia.
  - intros Hds. unfold getRequiredColors. apply map_ext_in.
    intros e He%list_elem_of_In. by apply VALUE_TO_COLOR_Some, Hds.
Qed.

(** ** Successors of a block with the genesis values *)

Lemma requiredColors_genesis_values (ds : list DetectedDie) :
  map pips ds ≡ₚ GENESIS_VALUES ->
  getRequiredColors ds ≡ₚ map Some GENESIS_PATTERN.
Proof.
  intros H. unfold getRequiredColors.
  change (map (fun d => VALUE_TO_COLOR (pips d)) ds)
    with (map (VALUE_TO_COLOR ∘ pips) ds).
  change (map ?f ?l) with (f <$> l) in *.
  rewrite list_fmap_compose, H. done.
Qed.

Lemma canBePredecessor_genesis_values (blockA blockB : DetectedBlock) :
  map pips (dice blockA) ≡ₚ GENESIS_VALUES ->
  canBePredecessor blockA blockB = true -> isGenesisBlock blockB = true.
Proof.
  intros Hvals Hpred%canBePredecessor_perm.
  apply isGenesisBlock_perm.
  rewrite (requiredColors_genesis_values _ Hvals) in Hpred.
  apply (fmap_Permutation (default red)) in Hpred.
  change (map ?f ?l) with (f <$> l) in *.
  rewrite <-!list_fmap_compose in Hpred.
  symmetry. etrans; [|etrans; [apply Hpred|]].
  - by rewrite <-(list_fmap_id GENESIS_PATTERN) at 1.
  - by rewrite <-(list_fmap_id (color <$> dice blockB)), <-list_fmap_compose at 1.
Qed.

Lemma buildChain_predecessor_match bs d (vb : ValidatedBlock) p :
  vb ∈ buildChain bs d -> predecessorId vb = Some p ->
  isGenesisBlock vb = false
  /\ exists q : ValidatedBlock,
       q ∈ buildChain bs d /\ id q = p /\ column q = (column vb - 1)%Z
       /\ isValid q = true /\ canBePredecessor q vb = true.
Proof.
  rewrite buildChain_unfold. intros Hin Hp.
  destruct (validateAll_elem _ _ _ Hin) as (pre & b & post & Hl & ->).
  split.
  - destruct (isGenesisBlock (validateBlock d (validateAll d pre) b)) eqn:Hg; [|done].
    destruct (validateBlock_fields d (validateAll d pre) b) as (Hdet & _).
    rewrite Hdet in Hg.
    pose proof (validateBlock_genesis d (validateAll d pre) b Hg) as Hv.
    unfold genesisChecks in Hv. repeat case_match; simplify_eq; congruence.
  - destruct (validateBlock_predecessor _ _ _ _ Hp)
      as (q & Hq & Hid & Hcol & Hval & Hcan).
    exists q. destruct (validateBlock_fields d (validateAll d pre) b) as (Hdet & _).
    rewrite Hdet. repeat split; try done.
    rewrite Hl. by apply validateAll_prefix_elem.
Qed.

(** X12: a block that matches the values of a block showing the genesis
    values is itself a genesis block; so in [buildChain] no block records a
    predecessor whose dice show the genesis values. *)
Theorem genesis_values_successor (blockA blockB : DetectedBlock)
    (bs : list DetectedBlock) (d : Z) :
  (map pips (dice blockA) ≡ₚ GENESIS_VALUES ->
   canBePredecessor blockA blockB = true -> isGenesisBlock blockB = true)
  /\ (forall (vb : ValidatedBlock) p,
        vb ∈ buildChain bs d -> predecessorId vb = Some p ->
        exists q : ValidatedBlock,
          q ∈ buildChain bs d /\ id q = p /\ canBePredecessor q vb = true
          /\ ~ map pips (dice q) ≡ₚ GENESIS_VALUES).
Proof.
  split; [apply canBePredecessor_genesis_values|].
  intros vb p Hin Hp.
  destruct (buildChain_predecessor_match _ _ _ _ Hin Hp)
    as (Hng & q & Hq & Hid & _ & _ & Hcan).
  exists q. repeat split; try done.
  intros Hvals. by rewrite (canBePredecessor_genesis_values _ _ Hvals Hcan) in Hng.
Qed.

Lemma genesis_values_successor_witness :
  isGenesisBlock (Examples.canonicalAt "block-1" 54) = true.
Proof.
  apply (proj1 (genesis_values_successor (Examples.canonicalAt "block-0" 0) _ [] 0)).
  - vm_compute. reflexivity.
  - vm_compute. reflexivity.
Defined.

(** X13: when the ids are distinct and the dice of the genesis block at
    which the search starts show the genesis values, no block names it as
    its predecessor and the longest chain is that block alone. *)
Theorem canonical_genesis_chain (fuel : nat) (bs : list DetectedBlock) (d : Z)
    (r : ValidationResult) (g : ValidatedBlock)
    (Hids : NoDup (map id bs))
    (Hr : validateBlocks fuel bs d = Some r)
    (Hg : find isGenesis (blocks r) = Some g)
    (Hvals : map pips (dice g) ≡ₚ GENESIS_VALUES) :
  longestChain r = [id g]
  /\ forall b : ValidatedBlock, b ∈ blocks r -> predecessorId b <> Some (id g).
Proof.
  unfold validateBlocks in Hr.
  destruct (findLongestChain fuel (buildChain bs d)) as [chain|] eqn:Hchain; [|done].
  injection Hr as <-. simpl in *.
  assert (Hno : forall b : ValidatedBlock,
             b ∈ buildChain bs d -> predecessorId b <> Some (id g)).
  { intros b Hb Hp.
    destruct (buildChain_predecessor_match _ _ _ _ Hb Hp)
      as (Hng & q & Hq & Hid & _ & _ & Hcan).
    assert (q = g) as ->.
    { eapply (NoDup_map_inj (fun vb : ValidatedBlock => id vb));
        [by apply buildChain_NoDup|done|by apply find_isGenesis_Some in Hg as [? _]|done]. }
    by rewrite (canBePredecessor_genesis_values _ _ Hvals Hcan) in Hng. }
  split; [|done].
  rewrite findLongestChain_unfold, Hg in Hchain.
  destruct fuel as [|fuel]; [done|].
  rewrite findLongestFromNode_leaf in Hchain; [by injection Hchain|].
  rewrite buildChildren_lookup.
  destruct (childrenOf (buildChain bs d) (id g)) as [|c cs] eqn:Hcs; [done|].
  assert (Hc : c ∈ childrenOf (buildChain bs d) (id g)) by (rewrite Hcs; by left).
  apply elem_of_childrenOf in Hc as (b & Hb & _ & (Hp & _)%recordsEdge_Some).
  by destruct (Hno b Hb).
Qed.

Lemma canonical_genesis_chain_witness :
  exists r g,
    validateBlocks 2 Examples.canonicalPair 40 = Some r
    /\ find isGenesis (blocks r) = Some g
    /\ longestChain r = [id g]
    /\ map (fun b : ValidatedBlock => isValid b) (blocks r) = [true; false].
Proof.
  eexists _, _. split; [vm_compute; reflexivity|]. split; [vm_compute; reflexivity|].
  split; [|vm_compute; reflexivity].
  refine (proj1 (canonical_genesis_chain 2 Examples.canonicalPair 40 _ _ _ _ _ _)).
  - change (NoDup ["block-0"; "block-1"]%string).
    apply NoDup_cons; split; [|apply NoDup_singleton].
    intros H%list_elem_of_singleton. discriminate.
  - vm_compute. reflexivity.
  - vm_compute. reflexivity.
  - vm_compute. reflexivity.
Defined.

(** ** Validity along the predecessor links *)

Lemma rooted_mono (vbs vbs' : list ValidatedBlock) (b : ValidatedBlock) :
  (forall v, v ∈ vbs -> v ∈ vbs') -> rooted vbs b -> rooted vbs' b.
Proof.
  intros Hsub H. induction H.
  - apply rooted_genesis; auto.
  - eapply rooted_step; eauto.
Qed.

Lemma rooted_column (vbs : list ValidatedBlock) (b : ValidatedBlock) :
  rooted vbs b -> (0 <= column b)%Z.
Proof. induction 1; lia. Qed.

Lemma rooted_genesis_exists (vbs : list ValidatedBlock) (b : ValidatedBlock) :
  rooted vbs b ->
  exists g : ValidatedBlock,
    g ∈ vbs /\ isGenesis g = true /\ isValid g = true /\ column g = 0%Z.
Proof. induction 1; eauto. Qed.

Lemma validateBlock_valid_successor d vbs b :
  isGenesisBlock b = false -> isValid (validateBlock d vbs b) = true ->
  (total b <= d)%Z /\ is_Some (predecessorId (validateBlock d vbs b)).
Proof.
  intros Hg Hv. pose proof (validateBlock_successor d vbs b Hg) as Hs.
  symmetry in Hs. apply successorChecks_outcome in Hs as [_ Hs].
  rewrite Hv in Hs. symmetry in Hs. apply andb_true_iff in Hs as [Ht Hp].
  split; [apply negb_true_iff, Z.ltb_ge in Ht; lia|by apply bool_decide_eq_true_1 in Hp].
Qed.

Lemma validateAll_rooted d (l : list DetectedBlock) (vb : ValidatedBlock) :
  vb ∈ validateAll d l -> isValid vb = true -> rooted (validateAll d l) vb.
Proof.
  revert vb. induction l as [|b l IH] using rev_ind; intros vb.
  - by intros ?%elem_of_nil.
  - rewrite validateAll_snoc. intros [Hin | ->%list_elem_of_singleton]%elem_of_app Hv.
    + eapply rooted_mono; [|by apply IH]. intros v Hv'. apply elem_of_app. by left.
    + set (vbs := validateAll d l) in *.
      destruct (validateBlock_fields d vbs b) as (Hdet & Hgen & _).
      assert (Hself : validateBlock d vbs b ∈ vbs ++ [validateBlock d vbs b])
        by (apply elem_of_app; right; by left).
      destruct (isGenesisBlock b) eqn:Hg.
      * apply rooted_genesis; [done..|].
        pose proof (validateBlock_genesis d vbs b Hg) as Hc.
        rewrite Hv in Hc. unfold genesisChecks in Hc. rewrite Hdet.
        destruct (column b =? 0)%Z eqn:Hcol; [by apply Z.eqb_eq|].
        simpl in Hc. repeat case_match; simplify_eq.
      * destruct (validateBlock_valid_successor d vbs b Hg Hv) as [_ [p Hp]].
        destruct (validateBlock_predecessor _ _ _ _ Hp)
          as (q & Hq & Hid & Hcol & Hval & Hcan).
        apply rooted_step with q; try done.
        -- by rewrite Hp, Hid.
        -- rewrite Hdet. lia.
        -- by rewrite Hdet.
        -- eapply rooted_mono; [|by apply IH]. intros v Hv'. apply elem_of_app. by left.
Qed.

(** X14: every valid block of [buildChain] is rooted: valid predecessor
    links whose colours match lead from it, one column at a time, to a valid
    genesis block in column 0.  So a valid block has a column of at least 0,
    and when no block shows the genesis pattern no block is valid. *)
Theorem buildChain_rooted (bs : list DetectedBlock) (d : Z) :
  (forall vb : ValidatedBlock,
     vb ∈ buildChain bs d -> isValid vb = true ->
     rooted (buildChain bs d) vb /\ (0 <= column vb)%Z)
  /\ ((forall b, b ∈ bs -> isGenesisBlock b = false) ->
      forall vb : ValidatedBlock, vb ∈ buildChain bs d -> isValid vb = false).
Proof.
  assert (Hroot : forall vb : ValidatedBlock,
             vb ∈ buildChain bs d -> isValid vb = true -> rooted (buildChain bs d) vb).
  { rewrite buildChain_unfold. apply validateAll_rooted. }
  split.
  - intros vb Hin Hv. split; [by apply Hroot|]. eapply rooted_column. by apply Hroot.
  - intros Hno vb Hin. destruct (isValid vb) eqn:Hv; [|done].
    destruct (rooted_genesis_exists _ _ (Hroot vb Hin Hv)) as (g & Hg & Hgen & _).
    assert (Hgb : isGenesisBlock g = true).
    { rewrite buildChain_unfold in Hg. by rewrite <-(validateAll_isGenesis _ _ _ Hg). }
    assert (Hdet : detected g ∈ assignColumns bs).
    { rewrite <-buildChain_detected. apply list_elem_of_fmap. eauto. }
    destruct (assignColumns_map bs) as [col Hcol]. rewrite Hcol in Hdet.
    apply list_elem_of_fmap in Hdet as (b & Hb & Hin').
    assert (Heq : isGenesisBlock g = isGenesisBlock b) by by rewrite Hb.
    rewrite Heq, (Hno b Hin') in Hgb. done.
Qed.

(** ** Validity and the difficulty *)

Lemma successorChecks_found d vbs b :
  is_Some (successorChecks d vbs b).1.2
  <-> exists q : ValidatedBlock,
        q ∈ vbs /\ isCandidateFor b q = true /\ canBePredecessor q b = true.
Proof.
  unfold successorChecks.
  set (cands := filter (fun vb => isCandidateFor b vb = true) vbs).
  assert (Hc : forall q, q ∈ cands <-> q ∈ vbs /\ isCandidateFor b q = true).
  { intros q. unfold cands. rewrite list_elem_of_filter. tauto. }
  destruct (d <? total b)%Z; simpl;
    (destruct (Nat.eqb_spec (length cands) 0) as [Hlen|Hlen];
     [apply nil_length_inv in Hlen; split;
      [by intros [? ?]
      |intros (q & Hq & Hcand & _); exfalso;
       assert (Hin : q ∈ cands) by (by apply Hc); rewrite Hlen in Hin;
       by apply elem_of_nil in Hin]
     |]);
    (destruct (find _ cands) as [c|] eqn:Hfind; simpl;
     [split; [intros _|by eexists];
      apply find_some in Hfind as [Hin%list_elem_of_In Hcan];
      apply Hc in Hin as [? ?]; eauto
     |split; [by intros [? ?]|];
      intros (q & Hq & Hcand & Hcan);
      assert (Hin : q ∈ cands) by (by apply Hc);
      apply list_elem_of_In in Hin;
      pose proof (find_none _ _ Hfind q Hin) as Hn; simpl in Hn; congruence]).
Qed.

Lemma validateBlock_valid d vbs b :
  isValid (validateBlock d vbs b)
  = if isGenesisBlock b then (column b =? 0)%Z
    else negb (d <? total b)%Z
         && existsb (fun q : ValidatedBlock =>
                       isCandidateFor b q && canBePredecessor q b) vbs.
Proof.
  destruct (isGenesisBlock b) eqn:Hg.
  - pose proof (validateBlock_genesis d vbs b Hg) as Hc.
    unfold genesisChecks in Hc. destruct (column b =? 0)%Z; simpl in Hc;
      repeat case_match; by simplify_eq.
  - pose proof (validateBlock_successor d vbs b Hg) as Hs.
    destruct (successorChecks d vbs b) as [[errs p] v] eqn:Hsc.
    injection Hs as _ Hp Hv. rewrite Hv.
    apply successorChecks_outcome in Hsc as Hout. destruct Hout as [_ ->].
    f_equal. apply Bool.eq_true_iff_eq.
    rewrite bool_decide_eq_true, existsb_exists.
    pose proof (successorChecks_found d vbs b) as Hf. rewrite Hsc in Hf. simpl in Hf.
    rewrite Hf. split.
    + intros (q & Hq%list_elem_of_In & Hcand & Hcan). exists q.
      split; [done|by rewrite Hcand, Hcan].
    + intros (q & Hq%list_elem_of_In & [Hcand Hcan]%andb_true_iff). eauto.
Qed.

Lemma validateAll_difficulty_mono (d d' : Z) (l : list DetectedBlock) :
  (d <= d')%Z -> Forall2 validityGrows (validateAll d l) (validateAll d' l).
Proof.
  intros Hd. induction l as [|b l IH] using rev_ind; [constructor|].
  rewrite !validateAll_snoc. apply Forall2_app; [done|].
  constructor; [|constructor].
  destruct (validateBlock_fields d (validateAll d l) b) as (Hdet & Hgen & _).
  destruct (validateBlock_fields d' (validateAll d' l) b) as (Hdet' & Hgen' & _).
  split; [congruence|]. split; [congruence|].
  rewrite !validateBlock_valid. destruct (isGenesisBlock b); [done|].
  intros [Ht Hq]%andb_true_iff. apply andb_true_iff. split.
  - apply negb_true_iff, Z.ltb_ge. apply negb_true_iff, Z.ltb_ge in Ht. lia.
  - apply existsb_exists. apply existsb_exists in Hq.
    destruct Hq as (q & [k Hk]%list_elem_of_In%list_elem_of_lookup
                      & [Hcand Hcan]%andb_true_iff).
    destruct (Forall2_lookup_l _ _ _ _ _ IH Hk) as (q' & Hk' & Heq & _ & Hval).
    exists q'. split; [by eapply list_elem_of_In, list_elem_of_lookup_2|].
    unfold isCandidateFor in *. apply andb_true_iff in Hcand as [Hcol Hv].
    rewrite <-Heq, Hcol, Hcan, (Hval Hv). done.
Qed.

Lemma filter_valid_mono (vbs vbs' : list ValidatedBlock) :
  Forall2 validityGrows vbs vbs' ->
  (length (filter (fun b : ValidatedBlock => isValid b = true) vbs)
   <= length (filter (fun b : ValidatedBlock => isValid b = true) vbs'))%nat.
Proof.
  induction 1 as [|v v' vbs vbs' (_ & _ & Hv) _ IH]; [done|].
  rewrite !filter_cons. destruct (decide (isValid v = true)) as [Ht|Hf].
  - rewrite decide_True by auto. simpl. lia.
  - destruct (decide (isValid v' = true)); simpl; lia.
Qed.

(** X15: raising the difficulty never invalidates a block: under a larger
    difficulty [buildChain] lists the same blocks in the same order, every
    block valid before is still valid, and the number of valid blocks in
    the result of [validateBlocks] does not decrease. *)
Theorem buildChain_difficulty_mono (bs : list DetectedBlock) (d d' : Z)
    (Hd : (d <= d')%Z) :
  Forall2 validityGrows (buildChain bs d) (buildChain bs d')
  /\ forall fuel fuel' r r',
       validateBlocks fuel bs d = Some r -> validateBlocks fuel' bs d' = Some r' ->
       (validBlocks r <= validBlocks r')%nat.
Proof.
  assert (H : Forall2 validityGrows (buildChain bs d) (buildChain bs d')).
  { rewrite !buildChain_unfold. by apply validateAll_difficulty_mono. }
  split; [done|]. intros fuel fuel' r r' Hr Hr'.
  unfold validateBlocks in *.
  destruct (findLongestChain fuel _); [|done].
  destruct (findLongestChain fuel' _); [|done].
  injection Hr as <-. injection Hr' as <-. simpl. by apply filter_valid_mono.
Qed.

Lemma buildChain_difficulty_mono_witness :
  Forall2 validityGrows (buildChain Examples.twoBlocks 21) (buildChain Examples.twoBlocks 22).
Proof. apply (buildChain_difficulty_mono Examples.twoBlocks 21 22). lia. Defined.

(** ** The chain found by the depth-first search *)

Lemma keepLongest_longest (visit : string -> option (list string)) cs init res :
  foldl (keepLongest visit) (Some init) cs = Some res ->
  (length init <= length res)%nat
  /\ forall c, c ∈ cs -> exists r, visit c = Some r /\ (length r <= length res)%nat.
Proof.
  revert init. induction cs as [|c cs IH]; intros init; simpl.
  - intros [= <-]. split; [done|]. by intros ? ?%elem_of_nil.
  - destruct (visit c) as [chain|] eqn:Hc; [|by rewrite keepLongest_None].
    destruct (Nat.ltb_spec (length init) (length chain)); intros Hres;
      destruct (IH _ Hres) as [Hlen Hall]; (split; [lia|]);
      intros c' [->|Hc']%elem_of_cons; eauto; exists chain; split; [done|lia..].
Qed.

Lemma isPath_cons children nodeId childId rest :
  childId ∈ default [] (children !! nodeId) -> isPath children (childId :: rest) ->
  isPath children (nodeId :: childId :: rest).
Proof. intros Hc Hp. by split. Qed.

Lemma findLongestFromNode_path fuel children nodeId chain :
  findLongestFromNode fuel children nodeId = Some chain ->
  isPath children chain
  /\ exists leaf, last chain = Some leaf /\ default [] (children !! leaf) = [].
Proof.
  revert nodeId chain. induction fuel as [|fuel IH]; intros n chain; simpl; [done|].
  destruct (Nat.eqb_spec (length (default [] (children !! n))) 0) as [Hlen|Hlen].
  - intros [= <-]. split; [done|]. exists n. split; [done|]. by apply nil_length_inv.
  - destruct (foldl _ _ _) as [longest|] eqn:Hfold; [|done].
    intros [= <-].
    destruct (keepLongest_longest _ _ _ _ Hfold) as [_ Hall].
    apply keepLongest_result in Hfold as [->|(c & Hc & Hvisit)].
    + destruct (default [] (children !! n)) as [|c cs] eqn:Hcs; [done|].
      destruct (Hall c) as (r & Hr & Hle); [by left|].
      apply findLongestFromNode_shape in Hr as (rest & -> & _). simpl in Hle. lia.
    + destruct (findLongestFromNode_shape _ _ _ _ Hvisit) as (rest & -> & _).
      destruct (IH _ _ Hvisit) as (Hpath & leaf & Hlast & Hleaf).
      split; [by apply isPath_cons|]. by exists leaf.
Qed.

Lemma findLongestFromNode_max fuel children nodeId chain path :
  findLongestFromNode fuel children nodeId = Some chain ->
  isPath children (nodeId :: path) ->
  (length (nodeId :: path) <= length chain)%nat.
Proof.
  revert nodeId chain path.
  induction fuel as [|fuel IH]; intros n chain path; simpl; [done|].
  destruct (Nat.eqb_spec (length (default [] (children !! n))) 0) as [Hlen|Hlen].
  - intros [= <-] [Hc _]. destruct path as [|y path]; [done|].
    apply nil_length_inv in Hlen. rewrite Hlen in Hc. by apply elem_of_nil in Hc.
  - destruct (foldl _ _ _) as [longest|] eqn:Hfold; [|done].
    intros [= <-] [Hc Hpath]. destruct path as [|y path]; [simpl; lia|].
    destruct (keepLongest_longest _ _ _ _ Hfold) as [_ Hall].
    destruct (Hall y Hc) as (r & Hr & Hle).
    specialize (IH _ _ _ Hr Hpath). simpl in *. lia.
Qed.

(** X16: the chain [findLongestFromNode] returns starts at the given node,
    follows recorded child links, ends at a node without children, and no
    sequence of child links from that node is longer. *)
Theorem findLongestFromNode_longest fuel children nodeId chain
    (Hchain : findLongestFromNode fuel children nodeId = Some chain) :
  head chain = Some nodeId
  /\ isPath children chain
  /\ (exists leaf, last chain = Some leaf /\ default [] (children !! leaf) = [])
  /\ forall path, isPath children (nodeId :: path) ->
       (length (nodeId :: path) <= length chain)%nat.
Proof.
  split.
  { by destruct (findLongestFromNode_shape _ _ _ _ Hchain) as (rest & -> & _). }
  destruct (findLongestFromNode_path _ _ _ _ Hchain) as [Hpath Hleaf].
  split; [done|]. split; [done|].
  intros path. by apply findLongestFromNode_max with fuel.
Qed.

Lemma findLongestFromNode_longest_witness :
  let children := buildChildren (buildChain Examples.twoBlocks 25) in
  isPath children ["block-0"; "block-1"]%string
  /\ forall path, isPath children ("block-0"%string :: path) -> (length path <= 1)%nat.
Proof.
  intros children.
  destruct (findLongestFromNode_longest 3 children "block-0" ["block-0"; "block-1"]%string)
    as (_ & Hpath & _ & Hmax); [vm_compute; reflexivity|].
  split; [done|]. intros path Hp. specialize (Hmax path Hp). simpl in Hmax. lia.
Defined.

(** *** The chain and the columns *)

Lemma isPath_columns (bs : list DetectedBlock) (d : Z) (chain : list string)
    (b0 : ValidatedBlock) :
  NoDup (map id bs) ->
  b0 ∈ buildChain bs d -> head chain = Some (id b0) ->
  isPath (buildChildren (buildChain bs d)) chain ->
  forall k c, chain !! k = Some c ->
    exists b : ValidatedBlock,
      b ∈ buildChain bs d /\ id b = c /\ column b = (column b0 + Z.of_nat k)%Z
      /\ (k <> 0%nat -> isValid b = true /\ isGenesis b = false).
Proof.
  intros Hids. revert b0.
  induction chain as [|x chain IH]; intros b0 Hb0 Hhead Hpath k c Hk; [done|].
  injection Hhead as ->. destruct k as [|k].
  - injection Hk as <-. exists b0. repeat split; [done|lia|done..].
  - simpl in Hk. destruct chain as [|y rest]; [done|].
    destruct Hpath as [Hy Hpath]. rewrite buildChildren_lookup in Hy.
    apply elem_of_childrenOf in Hy as (b1 & Hb1 & Hid1 & (Hp & _ & Hv)%recordsEdge_Some).
    destruct (buildChain_predecessor_match _ _ _ _ Hb1 Hp)
      as (Hng & q & Hq & Hidq & Hcol & _).
    assert (q = b0) as ->.
    { eapply (NoDup_map_inj (fun vb : ValidatedBlock => id vb));
        [by apply buildChain_NoDup|done..]. }
    destruct (IH b1 Hb1 (f_equal Some (eq_sym Hid1)) Hpath k c Hk)
      as (b & Hb & Hid & Hcolb & Hrest).
    exists b. split; [done|]. split; [done|]. split; [lia|]. intros _.
    destruct k as [|k]; [|by apply Hrest].
    simpl in Hk. injection Hk as <-.
    assert (b = b1) as ->.
    { eapply (NoDup_map_inj (fun vb : ValidatedBlock => id vb));
        [by apply buildChain_NoDup|done|done|congruence]. }
    split; [done|]. rewrite buildChain_unfold in Hb1.
    by rewrite (validateAll_isGenesis _ _ _ Hb1).
Qed.

(** X17: for blocks with distinct ids and positive widths, the entry at
    position [k] of the longest chain is the id of a valid block in column
    [k], a genesis block exactly for [k = 0]; so the chain repeats no id and
    is at most as long as the number of valid blocks. *)
Theorem longestChain_columns (fuel : nat) (bs : list DetectedBlock) (d : Z)
    (r : ValidationResult)
    (Hids : NoDup (map id bs)) (Hwf : forallb positiveWidths bs = true)
    (Hr : validateBlocks fuel bs d = Some r) :
  (forall k c, longestChain r !! k = Some c ->
     exists b : ValidatedBlock,
       b ∈ blocks r /\ id b = c /\ column b = Z.of_nat k /\ isValid b = true
       /\ isGenesis b = bool_decide (k = 0%nat))
  /\ NoDup (longestChain r)
  /\ (length (longestChain r) <= validBlocks r)%nat.
Proof.
  unfold validateBlocks in Hr.
  destruct (findLongestChain fuel (buildChain bs d)) as [chain|] eqn:Hchain; [|done].
  injection Hr as <-. simpl.
  assert (Hcols : forall k c, chain !! k = Some c ->
            exists b : ValidatedBlock,
              b ∈ buildChain bs d /\ id b = c /\ column b = Z.of_nat k
              /\ isValid b = true /\ isGenesis b = bool_decide (k = 0%nat)).
  { rewrite findLongestChain_unfold in Hchain.
    destruct (find isGenesis (buildChain bs d)) as [g|] eqn:Hg.
    - destruct (find_isGenesis_Some _ _ Hg) as [Hgin Hgen].
      destruct (buildChain_genesis_valid _ _ _ Hwf Hg) as [Hcol0 Hval0].
      destruct (findLongestFromNode_shape _ _ _ _ Hchain) as (rest & Hshape & _).
      destruct (findLongestFromNode_path _ _ _ _ Hchain) as [Hpath _].
      intros k c Hk.
      destruct (isPath_columns bs d chain g Hids Hgin (f_equal head Hshape) Hpath k c Hk)
        as (b & Hb & Hid & Hcol & Hrest).
      exists b. split; [done|]. split; [done|]. split; [lia|].
      destruct k as [|k].
      + rewrite Hshape in Hk. injection Hk as <-.
        assert (b = g) as ->; [|done].
        eapply (NoDup_map_inj (fun vb : ValidatedBlock => id vb));
          [by apply buildChain_NoDup|done..].
      + destruct Hrest as [-> ->]; done.
    - injection Hchain as <-. done. }
  assert (Hnodup : NoDup chain).
  { apply NoDup_alt. intros j k c Hj Hk.
    destruct (Hcols j c Hj) as (b & Hb & Hid & Hcol & _).
    destruct (Hcols k c Hk) as (b' & Hb' & Hid' & Hcol' & _).
    assert (b = b') as ->; [|lia].
    eapply (NoDup_map_inj (fun vb : ValidatedBlock => id vb));
      [by apply buildChain_NoDup|done..|congruence]. }
  split; [done|]. split; [done|].
  rewrite <-(length_map (fun vb : ValidatedBlock => id vb)).
  apply submseteq_length, NoDup_submseteq; [done|].
  intros c [k Hk]%list_elem_of_lookup.
  destruct (Hcols k c Hk) as (b & Hb & Hid & _ & Hv & _).
  apply list_elem_of_fmap. exists b. split; [done|]. by apply list_elem_of_filter.
Qed.

Lemma longestChain_columns_witness :
  exists r, validateBlocks 3 Examples.twoBlocks 25 = Some r
            /\ NoDup (longestChain r)
            /\ (length (longestChain r) <= validBlocks r)%nat.
Proof.
  eexists. split; [vm_compute; reflexivity|].
  refine (proj2 (longestChain_columns 3 Examples.twoBlocks 25 _ _ _ _)).
  - change (NoDup ["block-0"; "block-1"]%string).
    apply NoDup_cons; split; [|apply NoDup_singleton].
    intros H%list_elem_of_singleton. discriminate.
  - vm_compute. reflexivity.
  - vm_compute. reflexivity.
Defined.

(** ** Scores *)

Lemma foldl_addScore_lookup (chain : list string) (player : string)
    (l : list ValidatedBlock) (scores : gmap string nat) :
  let n := length (filter (fun b : ValidatedBlock =>
                     id b ∈ chain /\ isGenesis b = false /\ trayColor b = player) l) in
  foldl (addScore (list_to_set chain)) scores l !! player
  = if (n =? 0)%nat then scores !! player
    else Some (default 0 (scores !! player) + n)%nat.
Proof.
  cbv zeta.
  set (P := fun b : ValidatedBlock =>
              id b ∈ chain /\ isGenesis b = false /\ trayColor b = player).
  revert scores. induction l as [|b l IH]; intros scores; [done|].
  simpl foldl. rewrite IH, filter_cons. unfold addScore.
  destruct (decide (P b)) as [(Hin & Hg & Ht)|Hno].
  - rewrite bool_decide_eq_true_2 by by apply elem_of_list_to_set.
    rewrite Hg, Ht. simpl. rewrite lookup_insert_eq. simpl.
    destruct (Nat.eqb_spec (length (filter P l)) 0) as [->|_]; f_equal; lia.
  - destruct (bool_decide (id b ∈ list_to_set chain) && negb (isGenesis b)) eqn:Hs;
      [|done].
    apply andb_true_iff in Hs as [Hin%bool_decide_eq_true_1%elem_of_list_to_set
                                    Hg%negb_true_iff].
    rewrite lookup_insert_ne; [done|]. intros Ht. by destruct Hno.
Qed.


(** X18: the score [calculateScores] gives a player is the number of blocks
    on the longest chain that are not flagged as genesis and sit in a tray
    of the player's colour; a player without such a block has no entry, and
    no entry is 0. *)
Theorem calculateScores_count (result : ValidationResult) (player : string) :
  default 0%nat (calculateScores result !! player)
  = length (scoringBlocks result player)
  /\ (is_Some (calculateScores result !! player) <-> scoringBlocks result player <> [])
  /\ calculateScores result !! player <> Some 0%nat.
Proof.
  unfold calculateScores, scoringBlocks.
  pose proof (foldl_addScore_lookup (longestChain result) player (blocks result) ∅) as H.
  cbv zeta in H. rewrite H, lookup_empty. clear H.
  destruct (filter _ (blocks result)) as [|b l]; simpl.
  - split; [done|]. split; [|done]. split; [by intros [? ?]|done].
  - split; [done|]. split; [|done]. split; [done|by eexists].
Qed.

Lemma totalScore_bump (scores : gmap string nat) (player : string) :
  totalScore (<[player := (default 0 (scores !! player) + 1)%nat]> scores)
  = (totalScore scores + 1)%nat.
Proof.
  unfold totalScore.
  assert (Hcomm : forall (j1 j2 : string) (z1 z2 y : nat),
             (z1 + (z2 + y) = z2 + (z1 + y))%nat) by (intros; lia).
  destruct (scores !! player) as [n|] eqn:Hn; simpl.
  - rewrite <-insert_delete_eq.
    rewrite map_fold_insert_L; [|by intros; apply Hcomm|by rewrite lookup_delete_eq].
    rewrite (map_fold_delete_L _ _ player n scores); [lia|by intros; apply Hcomm|done].
  - rewrite map_fold_insert_L; [lia|by intros; apply Hcomm|done].
Qed.

Lemma totalScore_foldl (chain : list string) (l : list ValidatedBlock)
    (scores : gmap string nat) :
  totalScore (foldl (addScore (list_to_set chain)) scores l)
  = (totalScore scores
     + length (filter (fun b : ValidatedBlock =>
                         id b ∈ chain /\ isGenesis b = false) l))%nat.
Proof.
  set (P := fun b : ValidatedBlock => id b ∈ chain /\ isGenesis b = false).
  revert scores. induction l as [|b l IH]; intros scores; simpl; [lia|].
  rewrite IH, filter_cons. unfold addScore.
  destruct (decide (P b)) as [[Hin Hg]|Hno].
  - rewrite bool_decide_eq_true_2 by by apply elem_of_list_to_set.
    rewrite Hg. simpl. rewrite totalScore_bump. lia.
  - destruct (bool_decide (id b ∈ list_to_set chain) && negb (isGenesis b)) eqn:Hs;
      [|done].
    apply andb_true_iff in Hs as [Hin%bool_decide_eq_true_1%elem_of_list_to_set
                                    Hg%negb_true_iff].
    by destruct Hno.
Qed.

Lemma longestChain_entries (fuel : nat) (bs : list DetectedBlock) (d : Z)
    (chain : list string) :
  NoDup (map id bs) ->
  findLongestChain fuel (buildChain bs d) = Some chain ->
  chain = []
  \/ exists g : ValidatedBlock,
       g ∈ buildChain bs d /\ isGenesis g = true /\ head chain = Some (id g)
       /\ forall k c, chain !! k = Some c ->
            exists b : ValidatedBlock,
              b ∈ buildChain bs d /\ id b = c
              /\ column b = (column g + Z.of_nat k)%Z
              /\ (k <> 0%nat -> isValid b = true /\ isGenesis b = false).
Proof.
  intros Hids Hchain. rewrite findLongestChain_unfold in Hchain.
  destruct (find isGenesis (buildChain bs d)) as [g|] eqn:Hg;
    [|left; by injection Hchain].
  right. exists g. destruct (find_isGenesis_Some _ _ Hg) as [Hgin Hgen].
  destruct (findLongestFromNode_shape _ _ _ _ Hchain) as (rest & Hshape & _).
  destruct (findLongestFromNode_path _ _ _ _ Hchain) as [Hpath _].
  split; [done|]. split; [done|]. split; [by rewrite Hshape|].
  apply isPath_columns; [done..|by rewrite Hshape|done].
Qed.

(** X19: for blocks with distinct ids the scores [calculateScores] gives
    for a result of [validateBlocks] add up to the length of the longest
    chain less its genesis block. *)
Theorem calculateScores_total (fuel : nat) (bs : list DetectedBlock) (d : Z)
    (r : ValidationResult)
    (Hids : NoDup (map id bs)) (Hr : validateBlocks fuel bs d = Some r) :
  totalScore (calculateScores r) = (length (longestChain r) - 1)%nat.
Proof.
  unfold validateBlocks in Hr.
  destruct (findLongestChain fuel (buildChain bs d)) as [chain|] eqn:Hchain; [|done].
  injection Hr as <-. unfold calculateScores. simpl.
  rewrite totalScore_foldl. unfold totalScore. rewrite map_fold_empty. simpl.
  pose proof (buildChain_NoDup bs d Hids) as Hnd.
  assert (Huniq : forall b b' : ValidatedBlock,
             b ∈ buildChain bs d -> b' ∈ buildChain bs d -> id b = id b' -> b = b').
  { intros b b'. by apply (NoDup_map_inj (fun vb : ValidatedBlock => id vb)). }
  destruct (longestChain_entries _ _ _ _ Hids Hchain)
    as [->|(g & Hgin & Hgen & Hhead & Hcols)].
  { simpl. destruct (filter _ _) as [|b l] eqn:Hf; [done|].
    assert (Hb : b ∈ b :: l) by by left. rewrite <-Hf in Hb.
    apply list_elem_of_filter in Hb as [[Hin _] _]. by apply elem_of_nil in Hin. }
  destruct chain as [|c0 rest]; [done|]. injection Hhead as ->.
  set (P := fun b : ValidatedBlock => id b ∈ id g :: rest /\ isGenesis b = false).
  assert (Hchain_nd : NoDup (id g :: rest)).
  { apply NoDup_alt. intros j k c Hj Hk.
    destruct (Hcols j c Hj) as (b & Hb & Hid & Hcol & _).
    destruct (Hcols k c Hk) as (b' & Hb' & Hid' & Hcol' & _).
    assert (b = b') as ->; [apply Huniq; congruence|lia]. }
  apply NoDup_cons in Hchain_nd as [Hg_rest Hrest_nd].
  assert (Hperm : map (fun vb : ValidatedBlock => id vb) (filter P (buildChain bs d))
                  ≡ₚ rest).
  { apply NoDup_Permutation; [|done|].
    - refine (sublist_NoDup _ _ Hnd _).
      apply (fmap_sublist (fun vb : ValidatedBlock => id vb)), sublist_filter.
    - intros c. split.
      + intros (b & -> & [[Hin Hng] Hb]%list_elem_of_filter)%list_elem_of_fmap.
        apply elem_of_cons in Hin as [Heq|Hin]; [|done].
        rewrite (Huniq b g Hb Hgin Heq) in Hng. congruence.
      + intros [k Hk]%list_elem_of_lookup.
        destruct (Hcols (S k) c Hk) as (b & Hb & Hid & _ & Hrest).
        destruct Hrest as [_ Hng]; [done|].
        apply list_elem_of_fmap. exists b. split; [done|].
        apply list_elem_of_filter. split; [|done]. split; [|done].
        rewrite Hid. apply elem_of_cons. right. by eapply list_elem_of_lookup_2. }
  apply Permutation_length in Hperm. rewrite length_map in Hperm.
  simpl. lia.
Qed.

Lemma calculateScores_total_witness :
  exists r, validateBlocks 3 Examples.twoBlocks 25 = Some r
            /\ totalScore (calculateScores r) = 1%nat.
Proof.
  eexists. split; [vm_compute; reflexivity|].
  refine (calculateScores_total 3 Examples.twoBlocks 25 _ _ _).
  - change (NoDup ["block-0"; "block-1"]%string).
    apply NoDup_cons; split; [|apply NoDup_singleton].
    intros H%list_elem_of_singleton. discriminate.
  - vm_compute. reflexivity.
Defined.

(** ** Validity as a property of the whole result *)

Lemma validateAll_split d (pre post : list DetectedBlock) :
  exists rest, validateAll d (pre ++ post) = validateAll d pre ++ rest
               /\ map detected rest = post.
Proof.
  rewrite validateAll_prefix. eexists. split; [done|].
  pose proof (validateAll_detected d (pre ++ post)) as H.
  rewrite validateAll_prefix, map_app, validateAll_detected in H.
  by apply app_inv_head in H.
Qed.

Lemma buildChain_sorted (bs : list DetectedBlock) (d : Z) :
  StronglySorted (leProp byColumn) (map detected (buildChain bs d)).
Proof.
  rewrite buildChain_unfold, validateAll_detected. apply sortedBlocks_StronglySorted.
Qed.

Lemma validateAll_earlier d (pre post : list DetectedBlock) (b : DetectedBlock)
    (q : ValidatedBlock) :
  StronglySorted (leProp byColumn) (pre ++ b :: post) ->
  q ∈ validateAll d (pre ++ b :: post) -> (column q < column b)%Z ->
  q ∈ validateAll d pre.
Proof.
  intros Hsorted Hq Hcol.
  destruct (validateAll_split d pre (b :: post)) as (rest & Heq & Hrest).
  rewrite Heq in Hq. apply elem_of_app in Hq as [Hq|Hq]; [done|exfalso].
  assert (Hin : detected q ∈ b :: post).
  { rewrite <-Hrest. apply list_elem_of_fmap. eauto. }
  apply StronglySorted_app_1_r, StronglySorted_cons in Hsorted as [Hall _].
  apply elem_of_cons in Hin as [Heq'|Hin].
  - rewrite Heq' in Hcol. lia.
  - rewrite Forall_forall in Hall. specialize (Hall _ Hin).
    unfold leProp, byColumn in Hall. apply Z.leb_le in Hall. lia.
Qed.

(** X20: validity in [buildChain] does not depend on the order of
    processing: a block that is not a genesis block is valid exactly when
    its total is at most the difficulty and the result holds a valid block,
    one column to the left, whose values its colours match. *)
Theorem buildChain_valid_iff (bs : list DetectedBlock) (d : Z) (vb : ValidatedBlock)
    (Hin : vb ∈ buildChain bs d) (Hgen : isGenesis vb = false) :
  isValid vb = true
  <-> (total vb <= d)%Z
      /\ exists q : ValidatedBlock,
           q ∈ buildChain bs d /\ column q = (column vb - 1)%Z
           /\ isValid q = true /\ canBePredecessor q vb = true.
Proof.
  pose proof (buildChain_sorted bs d) as Hsorted.
  rewrite buildChain_unfold in *. rewrite validateAll_detected in Hsorted.
  destruct (validateAll_elem _ _ _ Hin) as (pre & b & post & Hl & ->).
  destruct (validateBlock_fields d (validateAll d pre) b) as (Hdet & Hg & _).
  rewrite Hg in Hgen. rewrite validateBlock_valid, Hgen, Hdet.
  rewrite andb_true_iff, negb_true_iff, Z.ltb_ge, existsb_exists. 
  apply and_iff_compat_l. split.
  - intros (q & Hq%list_elem_of_In & [[Hcol Hv]%andb_true_iff Hcan]%andb_true_iff).
    exists q. rewrite Hl. split; [by apply validateAll_prefix_elem|].
    apply Z.eqb_eq in Hcol. done.
  - intros (q & Hq & Hcol & Hv & Hcan). exists q. split.
    + apply list_elem_of_In. rewrite Hl in Hq, Hsorted.
      apply (validateAll_earlier d pre post b q Hsorted Hq). lia.
    + unfold isCandidateFor. rewrite Hv, Hcan, (proj2 (Z.eqb_eq _ _) Hcol). done.
Qed.

Lemma buildChain_valid_iff_witness :
  exists vb q : ValidatedBlock,
    buildChain Examples.twoBlocks 25 !! 1%nat = Some vb
    /\ buildChain Examples.twoBlocks 25 !! 0%nat = Some q
    /\ isValid vb = true.
Proof.
  eexists _, _. split; [vm_compute; reflexivity|]. split; [vm_compute; reflexivity|].
  match goal with |- isValid ?v = _ =>
    apply (proj2 (buildChain_valid_iff Examples.twoBlocks 25 v
                    ltac:(apply list_elem_of_lookup_2 with 1%nat; vm_compute; reflexivity)
                    ltac:(reflexivity)))
  end.
  split; [vm_compute; discriminate|].
  eexists. split; [apply list_elem_of_lookup_2 with 0%nat; vm_compute; reflexivity|].
  repeat split; vm_compute; reflexivity.
Defined.

(** ** Columns along the x axis *)

Lemma roundQuotient_mono (a a' : Q) (columnWidth : option Q) :
  (forall w, columnWidth = Some w -> (0 < w)%Q) -> (a <= a')%Q ->
  (roundQuotient a columnWidth <= roundQuotient a' columnWidth)%Z.
Proof.
  intros Hw Ha. destruct columnWidth as [w|]; simpl; [|done].
  unfold mathRound. apply Qfloor_resp_le.
  apply Qplus_le_l. unfold Qdiv. apply Qmult_le_compat_r; [done|].
  apply Qinv_le_0_compat, Qlt_le_weak, Hw. done.
Qed.

Lemma assignColumns_direction (bs : list DetectedBlock) (i : nat) :
  findIndex isGenesisBlock bs = Some i ->
  exists (genesisBlock : DetectedBlock) (direction : Q),
    bs !! i = Some genesisBlock /\ (direction = 1%Q \/ direction = (-1)%Q)
    /\ assignColumns bs
       = map (fun block =>
                setColumn block
                  (Z.max 0 (roundQuotient
                     ((pos_x (position block) - pos_x (position genesisBlock))
                      * direction)%Q
                     ((fun w => w * (3 # 2))%Q <$> avgWidth bs)))) bs.
Proof.
  intros Hi. destruct bs as [|b0 bs]; [done|]. unfold assignColumns. rewrite Hi.
  apply findIndex_Some in Hi as (g & Hg & _). rewrite Hg.
  eexists g, _. split; [done|]. split; [|done].
  destruct (_ <=? _)%nat; auto.
Qed.

(** X21: for blocks with positive widths the columns follow the x axis in
    one direction: a block that lies no further along that direction than
    another gets a column that is no larger; without a genesis block the
    direction is that of growing x. *)
Theorem assignColumns_monotone (bs : list DetectedBlock)
    (Hwf : forallb positiveWidths bs = true) :
  exists direction : Q,
    (direction = 1%Q \/ direction = (-1)%Q)
    /\ (findIndex isGenesisBlock bs = None -> direction = 1%Q)
    /\ forall b b', b ∈ assignColumns bs -> b' ∈ assignColumns bs ->
         (pos_x (position b) * direction <= pos_x (position b') * direction)%Q ->
         (column b <= column b')%Z.
Proof.
  destruct bs as [|b0 bs'] eqn:Hbs.
  { exists 1%Q. split; [by left|]. split; [done|]. by intros ? ? ?%elem_of_nil. }
  rewrite <-Hbs in *.
  assert (Hne : bs <> []) by by rewrite Hbs.
  pose proof (fun w => columnWidth_positive bs w Hne Hwf) as Hw.
  clear Hbs b0 bs'.
  destruct (findIndex isGenesisBlock bs) as [i|] eqn:Hi.
  - destruct (assignColumns_direction bs i Hi) as (g & dir & _ & Hdir & ->).
    exists dir. split; [done|]. split; [done|].
    intros b b' (a & -> & _)%list_elem_of_fmap (a' & -> & _)%list_elem_of_fmap. simpl.
    intros Hle. apply Z.max_le_compat_l, roundQuotient_mono; [done|].
    destruct Hdir as [-> | ->]; lra.
  - destruct (assignColumns_unanchored bs Hne Hi) as (m & rest & _ & ->).
    exists 1%Q. split; [by left|]. split; [done|].
    intros b b' (a & -> & _)%list_elem_of_fmap (a' & -> & _)%list_elem_of_fmap. simpl.
    intros Hle. apply roundQuotient_mono; [done|]. lra.
Qed.

Lemma assignColumns_monotone_witness :
  exists direction : Q,
    forall b b', b ∈ assignColumns Examples.twoBlocks ->
      b' ∈ assignColumns Examples.twoBlocks ->
      (pos_x (position b) * direction <= pos_x (position b') * direction)%Q ->
      (column b <= column b')%Z.
Proof.
  destruct (assignColumns_monotone Examples.twoBlocks) as (direction & _ & _ & H);
    [vm_compute; reflexivity|].
  by exists direction.
Defined.

(** ** What the column assignment reads *)

Lemma sameLayout_refl (b : DetectedBlock) : sameLayout b b.
Proof. done. Qed.

Lemma sameLayout_setColumn (b : DetectedBlock) (c : Z) : sameLayout (setColumn b c) b.
Proof. done. Qed.

Lemma sameLayout_isGenesisBlock (b b' : DetectedBlock) :
  sameLayout b b' -> isGenesisBlock b = isGenesisBlock b'.
Proof. intros (_ & Hc & _). unfold isGenesisBlock. by rewrite Hc. Qed.

Lemma findIndex_Forall2 {A B : Type} (p : A -> bool) (p' : B -> bool)
    (l : list A) (l' : list B) :
  Forall2 (fun a a' => p a = p' a') l l' -> findIndex p l = findIndex p' l'.
Proof. induction 1 as [|a a' l l' Hp _ IH]; simpl; [done|]. by rewrite Hp, IH. Qed.

Lemma avgWidth_layout (bs bs' : list DetectedBlock) :
  Forall2 sameLayout bs bs' -> avgWidth bs = avgWidth bs'.
Proof.
  intros H. unfold avgWidth. rewrite (Forall2_length _ _ _ H).
  assert (Hfold : forall acc,
    fold_left (fun sum b =>
      addTrayWidth sum (mathMax (map (fun d => width (bounds d)) (dice b)))) bs acc
    = fold_left (fun sum b =>
      addTrayWidth sum (mathMax (map (fun d => width (bounds d)) (dice b)))) bs' acc).
  { induction H as [|b b' bs bs' (_ & _ & Hw) _ IH]; intros acc; simpl; [done|].
    by rewrite Hw, IH. }
  by rewrite Hfold.
Qed.

Lemma insert_sorted_layout (a a' : DetectedBlock) (l l' : list DetectedBlock) :
  sameLayout a a' -> Forall2 sameLayout l l' ->
  Forall2 sameLayout (insert_sorted byPositionX a l) (insert_sorted byPositionX a' l').
Proof.
  intros Ha. induction 1 as [|b b' l l' Hb Hl IH]; simpl.
  { constructor; [done|constructor]. }
  assert (byPositionX a b = byPositionX a' b') as ->.
  { unfold byPositionX. destruct Ha as (-> & _), Hb as (-> & _). done. }
  destruct (byPositionX a' b'); constructor; try done. by constructor.
Qed.

Lemma stable_sort_layout (bs bs' : list DetectedBlock) :
  Forall2 sameLayout bs bs' ->
  Forall2 sameLayout (stable_sort byPositionX bs) (stable_sort byPositionX bs').
Proof.
  induction 1 as [|b b' bs bs' Hb _ IH]; [constructor|].
  change (Forall2 sameLayout (insert_sorted byPositionX b (stable_sort byPositionX bs))
            (insert_sorted byPositionX b' (stable_sort byPositionX bs'))).
  by apply insert_sorted_layout.
Qed.

Lemma filter_length_Forall2 {A : Type} (P P' : A -> Prop)
    `{!forall a, Decision (P a)} `{!forall a, Decision (P' a)}
    (R : A -> A -> Prop) (l l' : list A) :
  (forall a a', R a a' -> (P a <-> P' a')) -> Forall2 R l l' ->
  length (filter P l) = length (filter P' l').
Proof.
  intros HP. induction 1 as [|a a' l l' Ha _ IH]; [done|].
  rewrite !filter_cons. specialize (HP _ _ Ha).
  destruct (decide (P a)), (decide (P' a')); simpl; tauto || lia.
Qed.

Lemma map_setColumn_columns (f f' : DetectedBlock -> Z) (bs bs' : list DetectedBlock) :
  Forall2 (fun b b' => f b = f' b') bs bs' ->
  map column (map (fun b => setColumn b (f b)) bs)
  = map column (map (fun b => setColumn b (f' b)) bs').
Proof. induction 1 as [|b b' bs bs' Hb _ IH]; simpl; [done|]. by rewrite Hb, IH. Qed.

Lemma assignColumns_layout_columns (bs bs' : list DetectedBlock) :
  Forall2 sameLayout bs bs' ->
  map column (assignColumns bs) = map column (assignColumns bs').
Proof.
  intros H.
  assert (Hidx : findIndex isGenesisBlock bs = findIndex isGenesisBlock bs').
  { apply findIndex_Forall2. eapply Forall2_impl; [exact H|].
    apply sameLayout_isGenesisBlock. }
  pose proof (avgWidth_layout _ _ H) as Havg.
  destruct H as [|b0 b0' bs0 bs0' Hb0 H0]; [done|].
  set (bs := b0 :: bs0) in *. set (bs' := b0' :: bs0') in *.
  assert (H : Forall2 sameLayout bs bs') by by constructor.
  assert (Hne : bs <> []) by done. assert (Hne' : bs' <> []) by done.
  clearbody bs bs'. clear b0 b0' bs0 bs0' Hb0 H0.
  destruct (findIndex isGenesisBlock bs) as [i|] eqn:Hi; symmetry in Hidx.
  - destruct (findIndex_Some _ _ _ Hi) as (g & Hg & _).
    destruct (findIndex_Some _ _ _ Hidx) as (g' & Hg' & _).
    destruct (Forall2_lookup_lr _ _ _ _ _ _ H Hg Hg') as (Hpos & _).
    destruct bs as [|b0 bs0]; [done|]. destruct bs' as [|b0' bs0']; [done|].
    unfold assignColumns. rewrite Hi, Hidx, Hg, Hg', Havg, Hpos.
    set (R := length (filter _ (b0 :: bs0))). set (R' := length (filter _ (b0' :: bs0'))).
    set (L := length (filter _ (b0 :: bs0))). set (L' := length (filter _ (b0' :: bs0'))).
    assert (R = R') as ->.
    { apply (filter_length_Forall2 _ _ sameLayout); [|done]. by intros a a' (-> & _). }
    assert (L = L') as ->.
    { apply (filter_length_Forall2 _ _ sameLayout); [|done]. by intros a a' (-> & _). }
    apply map_setColumn_columns. eapply Forall2_impl; [exact H|].
    by intros a a' (-> & _).
  - destruct (assignColumns_unanchored bs Hne Hi) as (m & rest & Hm & ->).
    destruct (assignColumns_unanchored bs' Hne' Hidx) as (m' & rest' & Hm' & ->).
    pose proof (stable_sort_layout _ _ H) as Hs. rewrite Hm, Hm' in Hs.
    apply Forall2_cons in Hs as [(Hpos & _) _]. rewrite Havg, Hpos.
    apply map_setColumn_columns. eapply Forall2_impl; [exact H|].
    by intros a a' (-> & _).
Qed.

Lemma assignColumns_sameLayout (bs : list DetectedBlock) :
  Forall2 sameLayout (assignColumns bs) bs.
Proof.
  destruct (assignColumns_map bs) as [col ->].
  induction bs as [|b bs IH]; constructor; [apply sameLayout_setColumn|done].
Qed.

(** X22: the columns depend only on the positions of the blocks and on the
    colours and widths of their dice: lists of blocks with positive widths
    that agree on these get the same columns, whatever their ids, pips,
    totals, tray colours and earlier columns. *)
Theorem assignColumns_layout (bs bs' : list DetectedBlock)
    (Hwf : forallb positiveWidths bs = true)
    (Hsame : Forall2 sameLayout bs bs') :
  Forall2 (fun a a' => column a = column a' /\ sameLayout a a')
          (assignColumns bs) (assignColumns bs').
Proof.
  pose proof (assignColumns_layout_columns _ _ Hsame) as Hcols.
  apply Forall2_same_length_lookup_2.
  { rewrite !assignColumns_length. by eapply Forall2_length. }
  intros i a a' Ha Ha'. split.
  - apply (f_equal (fun l => l !! i)) in Hcols.
    change (map column ?l) with (column <$> l) in Hcols.
    rewrite !list_lookup_fmap, Ha, Ha' in Hcols. by injection Hcols.
  - destruct (Forall2_lookup_l _ _ _ _ _ (assignColumns_sameLayout bs) Ha)
      as (b & Hb & Hab).
    destruct (Forall2_lookup_l _ _ _ _ _ (assignColumns_sameLayout bs') Ha')
      as (b' & Hb' & Hab').
    destruct (Forall2_lookup_lr _ _ _ _ _ _ Hsame Hb Hb') as (Hp & Hc & Hw).
    destruct Hab as (Hp1 & Hc1 & Hw1), Hab' as (Hp2 & Hc2 & Hw2).
    unfold sameLayout. repeat split; congruence.
Qed.

Lemma assignColumns_layout_witness :
  Forall2 (fun a a' => column a = column a' /\ sameLayout a a')
    (assignColumns Examples.twoBlocks)
    (assignColumns [Examples.mk "a" 0 Examples.genesisFaces;
                    Examples.mk "b" 54 Examples.heavyFaces]).
Proof.
  apply assignColumns_layout; [vm_compute; reflexivity|]. repeat constructor.
Defined.

(** X23: [assignColumns] ignores the columns it is given: for blocks with
    positive widths, assigning columns a second time changes nothing, and
    [buildChain] of blocks that already carry their columns is [buildChain]
    of the blocks. *)
Theorem assignColumns_idempotent (bs : list DetectedBlock) (d : Z)
    (Hwf : forallb positiveWidths bs = true) :
  assignColumns (assignColumns bs) = assignColumns bs
  /\ buildChain (assignColumns bs) d = buildChain bs d.
Proof.
  assert (H : assignColumns (assignColumns bs) = assignColumns bs).
  { pose proof (assignColumns_layout_columns _ _ (assignColumns_sameLayout bs)) as Hcols.
    destruct (assignColumns_map (assignColumns bs)) as [col Hcol].
    rewrite Hcol in Hcols |- *. clear Hcol.
    induction (assignColumns bs) as [|b l IH]; [done|].
    simpl in *. injection Hcols as Hc Hcols. rewrite Hc, IH by done. by destruct b. }
  split; [done|].
  rewrite !buildChain_unfold. by rewrite H.
Qed.

Lemma assignColumns_idempotent_witness :
  assignColumns (assignColumns Examples.twoBlocks) = assignColumns Examples.twoBlocks
  /\ buildChain (assignColumns Examples.twoBlocks) 25 = buildChain Examples.twoBlocks 25.
Proof. apply assignColumns_idempotent. vm_compute. reflexivity. Defined.

(** ** The review screen *)

Lemma findClickedDie_Some px py (blocks : list DetectedBlock) (n bi di : nat) :
  findClickedDie px py blocks n = Some (bi, di) ->
  exists block die,
    (n <= bi)%nat /\ blocks !! (bi - n)%nat = Some block /\ dice block !! di = Some die
    /\ insideBounds px py die = true
    /\ (forall j blockj die', (j < bi - n)%nat -> blocks !! j = Some blockj ->
          die' ∈ dice blockj -> insideBounds px py die' = false)
    /\ (forall k die', (k < di)%nat -> dice block !! k = Some die' ->
          insideBounds px py die' = false).
Proof.
  revert n. induction blocks as [|block rest IH]; intros n; simpl; [done|].
  destruct (findIndex (insideBounds px py) (dice block)) as [k|] eqn:Hk.
  - intros [= <- <-]. apply findIndex_Some in Hk as (die & Hdie & Hin & Hbefore).
    exists block, die. rewrite Nat.sub_diag.
    split; [done|]. split; [done|]. split; [done|]. split; [done|]. split; [|done].
    intros j ? ? Hj. lia.
  - intros (b & die & Hle & Hb & Hdie & Hin & Hblocks & Hdice)%IH.
    exists b, die. split; [lia|].
    replace (bi - n)%nat with (S (bi - S n)) by lia.
    split; [done|]. split; [done|]. split; [done|]. split; [|done].
    intros [|j] blockj die' Hj Hbj Hd'.
    + injection Hbj as <-. by eapply findIndex_None.
    + apply (Hblocks j blockj); [lia|done..].
Qed.

Lemma findClickedDie_None px py (blocks : list DetectedBlock) (n : nat) :
  findClickedDie px py blocks n = None ->
  forall block die, block ∈ blocks -> die ∈ dice block ->
    insideBounds px py die = false.
Proof.
  revert n. induction blocks as [|b rest IH]; intros n; simpl.
  - by intros _ ? ? ?%elem_of_nil.
  - destruct (findIndex (insideBounds px py) (dice b)) as [k|] eqn:Hk; [done|].
    intros Hrest block die [->|Hin]%elem_of_cons Hdie.
    + by eapply findIndex_None.
    + by eapply IH.
Qed.

(** X24: a click on the canvas leaves the blocks as they are and selects
    the first die, in the order of the blocks and of their dice, whose
    bounding box holds the point; it clears the selection exactly when no
    bounding box holds the point. *)
Theorem handleCanvasClick_selects (px py : Q) (s : ReviewState) :
  editedBlocks (handleCanvasClick px py s) = editedBlocks s
  /\ selectionInRange (handleCanvasClick px py s)
  /\ ((selectedBlockIndex (handleCanvasClick px py s) = None
       /\ selectedDieIndex (handleCanvasClick px py s) = None
       /\ forall block die, block ∈ editedBlocks s -> die ∈ dice block ->
            insideBounds px py die = false)
      \/ exists bi di block die,
           selectedBlockIndex (handleCanvasClick px py s) = Some bi
           /\ selectedDieIndex (handleCanvasClick px py s) = Some di
           /\ editedBlocks s !! bi = Some block /\ dice block !! di = Some die
           /\ insideBounds px py die = true
           /\ (forall j blockj die', (j < bi)%nat -> editedBlocks s !! j = Some blockj ->
                 die' ∈ dice blockj -> insideBounds px py die' = false)
           /\ (forall k die', (k < di)%nat -> dice block !! k = Some die' ->
                 insideBounds px py die' = false)).
Proof.
  unfold handleCanvasClick, selectionInRange.
  destruct (findClickedDie px py (editedBlocks s) 0) as [[bi di]|] eqn:Hfind; simpl.
  - apply findClickedDie_Some in Hfind
      as (block & die & _ & Hb & Hdie & Hin & Hblocks & Hdice).
    rewrite Nat.sub_0_r in *.
    split; [done|]. split.
    + intros ? ? [= <-] [= <-]. eauto.
    + right. exists bi, di, block, die. done.
  - split; [done|]. split; [done|]. left. split; [done|]. split; [done|].
    by eapply findClickedDie_None.
Qed.

Lemma handleCanvasClick_range (px py : Q) (s : ReviewState) :
  selectionInRange (handleCanvasClick px py s).
Proof.
  unfold handleCanvasClick, selectionInRange.
  destruct (findClickedDie px py (editedBlocks s) 0) as [[bi di]|] eqn:Hfind; simpl;
    [|done].
  apply findClickedDie_Some in Hfind as (block & die & _ & Hb & Hdie & _).
  rewrite Nat.sub_0_r in *. intros ? ? [= <-] [= <-]. eauto.
Qed.
(** *** Corrections *)

Lemma map_insert_same {A B : Type} (f : A -> B) (l : list A) (i : nat) (a a' : A) :
  l !! i = Some a -> f a' = f a -> map f (<[i := a']> l) = map f l.
Proof.
  intros Hi Hf. change (map f ?k) with (f <$> k).
  rewrite list_fmap_insert, Hf. apply list_insert_id. by rewrite list_lookup_fmap, Hi.
Qed.

Lemma Forall2_insert_same {A : Type} (R : A -> A -> Prop) (l : list A) (i : nat)
    (a a' : A) :
  (forall b, R b b) -> l !! i = Some a -> R a' a -> Forall2 R (<[i := a']> l) l.
Proof.
  intros Hrefl Hi Ha. rewrite <-(list_insert_id l i a Hi) at 2.
  apply Forall2_insert; [|done]. by apply Forall_Forall2_diag, Forall_forall.
Qed.

Lemma sameTray_refl (b : DetectedBlock) : sameTray b b.
Proof. done. Qed.

Lemma sameTray_trans (a b c : DetectedBlock) : sameTray a b -> sameTray b c -> sameTray a c.
Proof. unfold sameTray. intros ? ?. destruct_and!. repeat split; congruence. Qed.

Lemma pipsUpdater_Returns (bi di : nat) (newPips : Z) (prev : list DetectedBlock)
    (block : DetectedBlock) (die : DetectedDie) :
  prev !! bi = Some block -> dice block !! di = Some die ->
  exists block',
    pipsUpdater bi di newPips prev = Returns (<[bi := block']> prev)
    /\ sameTray block' block /\ sameLayout block' block /\ totalIsSum block'
    /\ map color (dice block') = map color (dice block)
    /\ map pips (dice block') = <[di := newPips]> (map pips (dice block)).
Proof.
  intros Hb Hd. unfold pipsUpdater. rewrite Hb, Hd. eexists. split; [done|].
  unfold sameTray, sameLayout, totalIsSum. simpl.
  rewrite !(map_insert_same _ _ _ die) by done.
  repeat split; try done.
  change (map pips ?k) with (pips <$> k). by rewrite list_fmap_insert.
Qed.

Lemma colorUpdater_Returns (bi di : nat) (newColor : DiceColor)
    (prev : list DetectedBlock) (block : DetectedBlock) (die : DetectedDie) :
  prev !! bi = Some block -> dice block !! di = Some die ->
  exists block',
    colorUpdater bi di newColor prev = Returns (<[bi := block']> prev)
    /\ sameTray block' block /\ total block' = total block
    /\ map pips (dice block') = map pips (dice block)
    /\ map color (dice block') = <[di := newColor]> (map color (dice block)).
Proof.
  intros Hb Hd. unfold colorUpdater. rewrite Hb, Hd. eexists. split; [done|].
  unfold sameTray. simpl.
  rewrite !(map_insert_same _ _ _ die) by done.
  repeat split; try done.
  change (map color ?k) with (color <$> k). by rewrite list_fmap_insert.
Qed.

Lemma fold_pips_map (ds ds' : list DetectedDie) (acc : Z) :
  map pips ds = map pips ds' ->
  fold_left (fun sum d => sum + pips d)%Z ds acc
  = fold_left (fun sum d => sum + pips d)%Z ds' acc.
Proof.
  revert ds' acc. induction ds as [|d ds IH]; intros [|d' ds'] acc; simpl; try done.
  intros [= Hp Hrest]. rewrite Hp. by apply IH.
Qed.

(** X25: with a die selected, [changeDiePips] returns; it writes the new
    pips to that die, sets the total of its block to the sum of the pips,
    and leaves every colour in place: blocks with positive widths keep their
    columns and the same blocks show the genesis pattern. *)
Theorem changeDiePips_effect (newPips : Z) (s : ReviewState) (bi di : nat)
    (block : DetectedBlock) (die : DetectedDie)
    (Hwf : forallb positiveWidths (editedBlocks s) = true)
    (Hbi : selectedBlockIndex s = Some bi) (Hdi : selectedDieIndex s = Some di)
    (Hblock : editedBlocks s !! bi = Some block) (Hdie : dice block !! di = Some die) :
  exists s' block',
    changeDiePips newPips s = Returns s'
    /\ selectedBlockIndex s' = Some bi /\ selectedDieIndex s' = Some di
    /\ editedBlocks s' = <[bi := block']> (editedBlocks s)
    /\ sameTray block' block /\ totalIsSum block'
    /\ map pips (dice block') = <[di := newPips]> (map pips (dice block))
    /\ map color (dice block') = map color (dice block)
    /\ map column (assignColumns (editedBlocks s'))
       = map column (assignColumns (editedBlocks s))
    /\ map isGenesisBlock (editedBlocks s') = map isGenesisBlock (editedBlocks s).
Proof.
  destruct (pipsUpdater_Returns bi di newPips _ _ _ Hblock Hdie)
    as (block' & Hret & Htray & Hlay & Hsum & Hcol & Hpips).
  unfold changeDiePips. rewrite Hbi, Hdi, Hret. simpl.
  eexists _, block'. split; [done|]. simpl.
  split; [done|]. split; [done|]. split; [done|]. split; [done|]. split; [done|].
  split; [done|]. split; [done|]. split.
  - apply assignColumns_layout_columns.
    by apply (Forall2_insert_same _ _ _ block); [apply sameLayout_refl|..].
  - apply map_insert_same with block; [done|]. by apply sameLayout_isGenesisBlock.
Qed.

Lemma changeDiePips_effect_witness :
  exists s' : ReviewState,
    changeDiePips 6 (mkReview Examples.twoBlocks (Some 1%nat) (Some 0%nat)) = Returns s'
    /\ map total (editedBlocks s') = [24; 27]%Z.
Proof.
  destruct (changeDiePips_effect 6 (mkReview Examples.twoBlocks (Some 1%nat) (Some 0%nat))
              1 0 (Examples.secondAt "block-1" 54) (Examples.die red 1 54 0 10)
              eq_refl eq_refl eq_refl eq_refl eq_refl)
    as (s' & block' & Hret & _).
  exists s'. split; [done|].
  vm_compute in Hret. injection Hret as <-. vm_compute. reflexivity.
Defined.

(** X26: with a die selected, [changeDieColor] returns; it writes the new
    colour to that die and leaves the pips and the total in place, so every
    block requires the same colours of its successors as before. *)
Theorem changeDieColor_effect (newColor : DiceColor) (s : ReviewState) (bi di : nat)
    (block : DetectedBlock) (die : DetectedDie)
    (Hbi : selectedBlockIndex s = Some bi) (Hdi : selectedDieIndex s = Some di)
    (Hblock : editedBlocks s !! bi = Some block) (Hdie : dice block !! di = Some die) :
  exists s' block',
    changeDieColor newColor s = Returns s'
    /\ selectedBlockIndex s' = Some bi /\ selectedDieIndex s' = Some di
    /\ editedBlocks s' = <[bi := block']> (editedBlocks s)
    /\ sameTray block' block /\ total block' = total block
    /\ map color (dice block') = <[di := newColor]> (map color (dice block))
    /\ map pips (dice block') = map pips (dice block)
    /\ map (fun b => getRequiredColors (dice b)) (editedBlocks s')
       = map (fun b => getRequiredColors (dice b)) (editedBlocks s).
Proof.
  destruct (colorUpdater_Returns bi di newColor _ _ _ Hblock Hdie)
    as (block' & Hret & Htray & Htotal & Hpips & Hcol).
  unfold changeDieColor. rewrite Hbi, Hdi, Hret. simpl.
  eexists _, block'. split; [done|]. simpl.
  split; [done|]. split; [done|]. split; [done|]. split; [done|]. split; [done|].
  split; [done|]. split; [done|].
  apply map_insert_same with block; [done|].
  unfold getRequiredColors.
  change (map (fun d => VALUE_TO_COLOR (pips d)) ?k) with (map (VALUE_TO_COLOR ∘ pips) k).
  change (map ?f ?k) with (f <$> k) in *.
  by rewrite !list_fmap_compose, Hpips.
Qed.

Lemma changeDieColor_effect_witness :
  exists s' : ReviewState,
    changeDieColor blue (mkReview Examples.twoBlocks (Some 0%nat) (Some 0%nat)) = Returns s'
    /\ map isGenesisBlock (editedBlocks s') = [false; false].
Proof.
  destruct (changeDieColor_effect blue (mkReview Examples.twoBlocks (Some 0%nat) (Some 0%nat))
              0 0 (Examples.genesisAt "block-0" 0) (Examples.die red 1 0 0 10)
              eq_refl eq_refl eq_refl eq_refl)
    as (s' & block' & Hret & _).
  exists s'. split; [done|].
  vm_compute in Hret. injection Hret as <-. vm_compute. reflexivity.
Defined.

(** *** Sessions *)

Lemma handle_invariant (s : ReviewState) (e : ReviewEvent) :
  selectionInRange s ->
  exists s', handle s e = Returns s'
    /\ selectionInRange s'
    /\ Forall2 sameTray (editedBlocks s') (editedBlocks s)
    /\ (Forall totalIsSum (editedBlocks s) -> Forall totalIsSum (editedBlocks s')).
Proof.
  intros Hsel.
  assert (Hrefl : Forall2 sameTray (editedBlocks s) (editedBlocks s))
    by by apply Forall_Forall2_diag, Forall_forall.
  destruct e as [px py|index|newColor|newPips]; simpl.
  - eexists. split; [done|]. split; [apply handleCanvasClick_range|].
    unfold handleCanvasClick. by destruct (findClickedDie _ _ _ _) as [[? ?]|].
  - eexists. split; [done|]. split; [|done]. by intros ? ? _ ?.
  - unfold changeDieColor.
    destruct (selectedBlockIndex s) as [bi|] eqn:Hbi; [|by eauto].
    destruct (selectedDieIndex s) as [di|] eqn:Hdi; [|by eauto].
    destruct (Hsel bi di Hbi Hdi) as (block & die & Hblock & Hdie).
    destruct (colorUpdater_Returns bi di newColor _ _ _ Hblock Hdie)
      as (block' & -> & Htray & Htotal & Hpips & Hcol).
    eexists. split; [done|]. simpl. split; [|split].
    + intros ? ? Hb' Hd'. simpl in Hb', Hd'. rewrite Hbi in Hb'. rewrite Hdi in Hd'.
      injection Hb' as <-. injection Hd' as <-. exists block'. simpl.
      rewrite list_lookup_insert_eq by by eapply lookup_lt_Some.
      assert (is_Some (dice block' !! di)) as [die' ?]; [|by eauto].
      apply lookup_lt_is_Some. rewrite <-(length_map pips), Hpips, length_map.
      by eapply lookup_lt_Some.
    + by apply (Forall2_insert_same _ _ _ block); [apply sameTray_refl|..].
    + intros Hall. apply Forall_insert; [done|].
      rewrite Forall_forall in Hall.
      pose proof (Hall block (list_elem_of_lookup_2 _ _ _ Hblock)) as Hsum.
      unfold totalIsSum in *. rewrite Htotal, Hsum. symmetry. by apply fold_pips_map.
  - unfold changeDiePips.
    destruct (selectedBlockIndex s) as [bi|] eqn:Hbi; [|by eauto].
    destruct (selectedDieIndex s) as [di|] eqn:Hdi; [|by eauto].
    destruct (Hsel bi di Hbi Hdi) as (block & die & Hblock & Hdie).
    destruct (pipsUpdater_Returns bi di newPips _ _ _ Hblock Hdie)
      as (block' & -> & Htray & Hlay & Hsum & Hcol & Hpips).
    eexists. split; [done|]. simpl. split; [|split].
    + intros ? ? Hb' Hd'. simpl in Hb', Hd'. rewrite Hbi in Hb'. rewrite Hdi in Hd'.
      injection Hb' as <-. injection Hd' as <-. exists block'. simpl.
      rewrite list_lookup_insert_eq by by eapply lookup_lt_Some.
      assert (is_Some (dice block' !! di)) as [die' ?]; [|by eauto].
      apply lookup_lt_is_Some. rewrite <-(length_map color), Hcol, length_map.
      by eapply lookup_lt_Some.
    + by apply (Forall2_insert_same _ _ _ block); [apply sameTray_refl|..].
    + intros Hall. by apply Forall_insert.
Qed.
Lemma session_invariant (s : ReviewState) (events : list ReviewEvent) :
  selectionInRange s ->
  exists s', session s events = Returns s'
    /\ selectionInRange s'
    /\ Forall2 sameTray (editedBlocks s') (editedBlocks s)
    /\ (Forall totalIsSum (editedBlocks s) -> Forall totalIsSum (editedBlocks s')).
Proof.
  revert s. induction events as [|e events IH]; intros s Hsel; simpl.
  - exists s. split; [done|]. split; [done|]. split; [|done].
    by apply Forall_Forall2_diag, Forall_forall.
  - destruct (handle_invariant s e Hsel) as (s1 & -> & Hsel1 & Htray1 & Hsum1).
    destruct (IH s1 Hsel1) as (s' & -> & Hsel' & Htray' & Hsum').
    exists s'. split; [done|]. split; [done|]. split; [|by auto].
    eapply Forall2_trans; [|exact Htray'|exact Htray1].
    apply sameTray_trans.
Qed.

Lemma sameTray_ids (bs bs' : list DetectedBlock) :
  Forall2 sameTray bs bs' -> map id bs = map id bs'.
Proof. induction 1 as [|b b' bs bs' (Hid & _) _ IH]; simpl; [done|]. by rewrite Hid, IH. Qed.

(** X27: a session of the review screen never fails: whatever is clicked,
    every handler returns and the selection names a die of the state.  The
    blocks keep their number, ids, trays, positions and bounding boxes;
    totals that were sums of pips stay sums of pips; and with distinct ids
    [validateBlocks] returns a result on the confirmed blocks. *)
Theorem session_returns (blocks : list DetectedBlock) (events : list ReviewEvent)
    (d : Z) :
  exists s,
    session (openReview blocks) events = Returns s
    /\ selectionInRange s
    /\ Forall2 sameTray (editedBlocks s) blocks
    /\ (Forall totalIsSum blocks -> Forall totalIsSum (editedBlocks s))
    /\ (NoDup (map id blocks) ->
        exists n, forall fuel, (n <= fuel)%nat ->
          exists r, validateBlocks fuel (editedBlocks s) d = Some r
                    /\ totalBlocks r = length blocks).
Proof.
  destruct (session_invariant (openReview blocks) events)
    as (s & Hs & Hsel & Htray & Hsum); [by intros ? ? ?|].
  exists s. simpl in *. split; [done|]. split; [done|]. split; [done|]. split; [done|].
  intros Hids. rewrite <-(sameTray_ids _ _ Htray) in Hids.
  destruct (validateBlocks_returns (editedBlocks s) d Hids) as [n Hn].
  exists n. intros fuel Hfuel. destruct (Hn fuel Hfuel) as [r Hr].
  exists r. split; [done|].
  unfold validateBlocks in Hr.
  destruct (findLongestChain _ _); [|done]. injection Hr as <-. simpl.
  rewrite buildChain_length. by eapply Forall2_length.
Qed.

(** ** The results screen *)

Lemma list_filter_True_id {A : Type} (P : A -> Prop) `{!forall a, Decision (P a)}
    (l : list A) :
  Forall P l -> filter P l = l.
Proof.
  induction 1 as [|a l Ha _ IH]; [done|]. by rewrite filter_cons_True, IH.
Qed.

Lemma list_filter_False_nil {A : Type} (P : A -> Prop) `{!forall a, Decision (P a)}
    (l : list A) :
  Forall (fun a => ~ P a) l -> filter P l = [].
Proof.
  induction 1 as [|a l Ha _ IH]; [done|]. by rewrite filter_cons_False.
Qed.

Lemma mapGet_mapSet (m : columnMap) (key key' : Z) (value : list ValidatedBlock) :
  mapGet (mapSet m key value) key'
  = if decide (key = key') then Some value else mapGet m key'.
Proof.
  unfold mapGet. induction m as [|[k v] m IH]; simpl.
  - destruct (Z.eqb_spec key key'); by destruct (decide (key = key')).
  - destruct (Z.eqb_spec k key) as [->|Hk]; simpl.
    + destruct (Z.eqb_spec key key'); by destruct (decide (key = key')).
    + destruct (Z.eqb_spec k key') as [->|Hk']; simpl; [|done].
      by destruct (decide (key = key')).
Qed.

Lemma mapGet_None (m : columnMap) (key : Z) :
  mapGet m key = None <-> key ∉ map fst m.
Proof.
  unfold mapGet. induction m as [|[k v] m IH]; simpl.
  - split; [intros _ ?%elem_of_nil|]; done.
  - rewrite not_elem_of_cons. destruct (Z.eqb_spec k key) as [->|Hk]; simpl.
    + split; [done|]. by intros [? _].
    + rewrite IH. split; [by intros ?|by intros [_ ?]].
Qed.

Lemma mapSet_keys (m : columnMap) (key : Z) (value : list ValidatedBlock) :
  map fst (mapSet m key value)
  = if decide (key ∈ map fst m) then map fst m else map fst m ++ [key].
Proof.
  induction m as [|[k v] m IH].
  - destruct (decide (key ∈ map fst [])) as [Hin|]; [by apply elem_of_nil in Hin|done].
  - cbn [mapSet map fst]. destruct (Z.eqb_spec k key) as [->|Hk]; cbn [map fst].
    + destruct (decide (key ∈ key :: map fst m)) as [|Hnot]; [done|].
      destruct Hnot. by left.
    + rewrite IH. destruct (decide (key ∈ map fst m)) as [Hin|Hin];
        destruct (decide (key ∈ k :: map fst m)) as [Hin'|Hin']; try done.
      * destruct Hin'. by right.
      * by apply elem_of_cons in Hin' as [?|?].
Qed.

Lemma inColumn_snoc (c : Z) (blocks : list ValidatedBlock) (b : ValidatedBlock) :
  inColumn c (blocks ++ [b])
  = if decide (column b = c) then inColumn c blocks ++ [b] else inColumn c blocks.
Proof.
  unfold inColumn. rewrite filter_app, filter_cons, filter_nil.
  destruct (decide (column b = c)); [done|by rewrite app_nil_r].
Qed.

Lemma blocksByColumn_snoc (blocks : list ValidatedBlock) (b : ValidatedBlock) :
  blocksByColumn (blocks ++ [b]) = addToColumn (blocksByColumn blocks) b.
Proof. unfold blocksByColumn. by rewrite foldl_app. Qed.

Lemma blocksByColumn_spec (blocks : list ValidatedBlock) :
  NoDup (map fst (blocksByColumn blocks))
  /\ forall c, mapGet (blocksByColumn blocks) c
               = match inColumn c blocks with
                 | [] => None
                 | _ :: _ => Some (inColumn c blocks)
                 end.
Proof.
  induction blocks as [|b blocks [IHnd IHget]] using rev_ind; [split; [constructor|done]|].
  rewrite blocksByColumn_snoc. unfold addToColumn. split.
  - rewrite mapSet_keys. destruct (decide (column b ∈ _)) as [Hin|Hin]; [done|].
    apply NoDup_app. split; [done|]. split; [|apply NoDup_singleton].
    intros c Hc ->%list_elem_of_singleton. done.
  - intros c. rewrite mapGet_mapSet, inColumn_snoc.
    destruct (decide (column b = c)) as [<-|Hne].
    + rewrite IHget. by destruct (inColumn (column b) blocks).
    + apply IHget.
Qed.

Lemma inColumn_nonempty (c : Z) (blocks : list ValidatedBlock) :
  inColumn c blocks <> [] <-> exists b : ValidatedBlock, b ∈ blocks /\ column b = c.
Proof.
  unfold inColumn. split.
  - destruct (filter _ blocks) as [|b l] eqn:Hf; [done|]. intros _.
    assert (Hb : b ∈ b :: l) by by left. rewrite <-Hf in Hb.
    apply list_elem_of_filter in Hb as [? ?]. eauto.
  - intros (b & Hb & Hc) Hnil.
    assert (Hin : b ∈ filter (fun b : ValidatedBlock => column b = c) blocks)
      by by apply list_elem_of_filter.
    rewrite Hnil in Hin. by apply elem_of_nil in Hin.
Qed.

Lemma columns_spec (blocks : list ValidatedBlock) :
  StronglySorted Z.lt (columns blocks)
  /\ forall c, c ∈ columns blocks
               <-> exists b : ValidatedBlock, b ∈ blocks /\ column b = c.
Proof.
  destruct (blocksByColumn_spec blocks) as [Hnd Hget]. unfold columns. split.
  - assert (Hsorted : StronglySorted (leProp Z.leb)
                        (stable_sort Z.leb (map fst (blocksByColumn blocks)))).
    { apply Sorted_StronglySorted, stable_sort_Sorted.
      - intros a b c. unfold leProp. rewrite !Z.leb_le. lia.
      - intros a b. rewrite !Z.leb_le. lia. }
    assert (Hnd' : NoDup (stable_sort Z.leb (map fst (blocksByColumn blocks))))
      by by rewrite stable_sort_perm.
    induction Hsorted as [|a l Hl IH Hall]; [constructor|].
    apply NoDup_cons in Hnd' as [Ha Hnd'].
    constructor; [by apply IH|].
    rewrite Forall_forall in Hall |- *. intros c Hc.
    specialize (Hall c Hc). unfold leProp in Hall. apply Z.leb_le in Hall.
    assert (a <> c) by (by intros ->). lia.
  - intros c. rewrite stable_sort_perm, <-inColumn_nonempty.
    specialize (Hget c). split.
    + intros Hin Hnil. rewrite Hnil in Hget. by apply mapGet_None in Hget.
    + intros Hne. destruct (decide (c ∈ map fst (blocksByColumn blocks))) as [|Hnot];
        [done|].
      apply mapGet_None in Hnot. rewrite Hnot in Hget.
      by destruct (inColumn c blocks).
Qed.

(** A list sorted by column is its columns one after the other. *)
Lemma sorted_by_column (blocks : list ValidatedBlock) (cs : list Z) :
  StronglySorted (fun a b : ValidatedBlock => (column a <= column b)%Z) blocks ->
  StronglySorted Z.lt cs ->
  (forall b : ValidatedBlock, b ∈ blocks -> column b ∈ cs) ->
  concat (map (fun c => inColumn c blocks) cs) = blocks.
Proof.
  intros Hsorted Hcs. revert blocks Hsorted.
  induction Hcs as [|c cs Hcs IH Hlt]; intros blocks Hsorted Hall; simpl.
  - destruct blocks as [|b blocks]; [done|].
    specialize (Hall b (list_elem_of_here _ _)). by apply elem_of_nil in Hall.
  - rewrite Forall_forall in Hlt.
    assert (Hsplit : exists l1 l2,
               blocks = l1 ++ l2
               /\ Forall (fun b : ValidatedBlock => column b = c) l1
               /\ Forall (fun b : ValidatedBlock => column b ∈ cs) l2).
    { clear IH. induction Hsorted as [|b blocks Hs IHs Hle].
      - exists [], []. by repeat constructor.
      - destruct IHs as (l1 & l2 & -> & H1 & H2).
        { intros b' Hb'. apply Hall. by right. }
        pose proof (Hall b (list_elem_of_here _ _)) as [Hbc|Hb]%elem_of_cons.
        + exists (b :: l1), l2. by repeat constructor.
        + exists [], (b :: l1 ++ l2). split; [done|]. split; [constructor|].
          constructor; [done|]. apply Forall_app. split; [|done].
          rewrite Forall_forall in Hle, H1 |- *. intros b' Hb'.
          specialize (Hle b' ltac:(apply elem_of_app; by left)).
          specialize (H1 b' Hb'). specialize (Hlt _ Hb). simpl in Hle. lia. }
    destruct Hsplit as (l1 & l2 & -> & H1 & H2).
    assert (Hl2 : forall b : ValidatedBlock, b ∈ l2 -> (c < column b)%Z).
    { rewrite Forall_forall in H2. intros b Hb. apply Hlt, H2, Hb. }
    assert (Hc1 : inColumn c (l1 ++ l2) = l1).
    { unfold inColumn. rewrite filter_app.
      rewrite (list_filter_True_id _ l1 H1), (list_filter_False_nil _ l2), app_nil_r; [done|].
      apply Forall_forall. intros b Hb. specialize (Hl2 b Hb). lia. }
    assert (Hrest : map (fun c' => inColumn c' (l1 ++ l2)) cs
                    = map (fun c' => inColumn c' l2) cs).
    { apply map_ext_in. intros c' Hc'%list_elem_of_In. unfold inColumn.
      rewrite filter_app, (list_filter_False_nil _ l1); [done|].
      rewrite Forall_forall in H1 |- *. intros b Hb. rewrite (H1 b Hb).
      specialize (Hlt c' Hc'). lia. }
    rewrite Hc1, Hrest. f_equal. apply IH.
    + by apply StronglySorted_app_1_r in Hsorted.
    + by apply Forall_forall.
Qed.

Lemma concat_inColumn_perm (blocks : list ValidatedBlock) (cs : list Z) :
  NoDup cs -> (forall b : ValidatedBlock, b ∈ blocks -> column b ∈ cs) ->
  concat (map (fun c => inColumn c blocks) cs) ≡ₚ blocks.
Proof.
  intros Hcs. revert blocks. induction Hcs as [|c cs Hc Hcs IH]; intros blocks Hall; simpl.
  - destruct blocks as [|b blocks]; [done|].
    specialize (Hall b (list_elem_of_here _ _)). by apply elem_of_nil in Hall.
  - etrans; [|apply (filter_app_complement (fun b : ValidatedBlock => column b = c) blocks)].
    apply Permutation_app; [done|].
    set (rest := filter (fun b : ValidatedBlock => ~ column b = c) blocks).
    rewrite <-(IH rest).
    + assert (Heq : map (fun c' => inColumn c' blocks) cs
                    = map (fun c' => inColumn c' rest) cs); [|by rewrite Heq].
      apply map_ext_in. intros c' Hc'%list_elem_of_In. unfold inColumn, rest.
      rewrite list_filter_filter. apply list_filter_iff.
      intros b. split; [|tauto]. intros Hb. split; [done|]. intros Hbc.
      rewrite Hb in Hbc. by subst.
    + intros b [Hb Hin]%list_elem_of_filter.
      by apply Hall, elem_of_cons in Hin as [?|?].
Qed.

Lemma chainColumns_fst (blocks : list ValidatedBlock) :
  map fst (chainColumns blocks) = columns blocks.
Proof.
  unfold chainColumns. rewrite map_map. simpl. apply map_id.
Qed.

Lemma chainColumns_snd (blocks : list ValidatedBlock) :
  map snd (chainColumns blocks) = map (fun c => inColumn c blocks) (columns blocks).
Proof.
  unfold chainColumns. rewrite map_map. simpl. apply map_ext_in.
  intros c Hc%list_elem_of_In.
  destruct (blocksByColumn_spec blocks) as [_ ->].
  by destruct (inColumn c blocks).
Qed.

Lemma sorted_detected (l : list ValidatedBlock) :
  StronglySorted (leProp byColumn) (map detected l) ->
  StronglySorted (fun a b : ValidatedBlock => (column a <= column b)%Z) l.
Proof.
  induction l as [|b l IH]; [constructor|]. simpl.
  intros [Hall Hs]%StronglySorted_cons. constructor; [by apply IH|].
  apply Forall_forall. intros b' Hb'.
  assert (Hin : detected b' ∈ map detected l) by (apply list_elem_of_fmap; eauto).
  pose proof (proj1 (Forall_forall _ _) Hall _ Hin) as Hle.
  unfold leProp, byColumn in Hle. by apply Z.leb_le.
Qed.

(** X28: the chain view of the results screen shows the columns that hold a
    block, in increasing order and each once; under a column it lists the
    blocks of that column in the order of the result.  Every block is shown
    exactly once, and for the blocks [buildChain] returns on blocks with
    positive widths the cards, read column by column, are the list of
    blocks itself. *)
Theorem chainColumns_groups (blocks : list ValidatedBlock)
    (bs : list DetectedBlock) (d : Z) :
  StronglySorted Z.lt (map fst (chainColumns blocks))
  /\ (forall c, c ∈ map fst (chainColumns blocks)
                <-> exists b : ValidatedBlock, b ∈ blocks /\ column b = c)
  /\ (forall c group, (c, group) ∈ chainColumns blocks ->
        group = inColumn c blocks /\ group <> [])
  /\ concat (map snd (chainColumns blocks)) ≡ₚ blocks
  /\ (forallb positiveWidths bs = true ->
      concat (map snd (chainColumns (buildChain bs d))) = buildChain bs d).
Proof.
  destruct (columns_spec blocks) as [Hsorted Hcols].
  assert (Hnd : forall l, StronglySorted Z.lt l -> NoDup l).
  { induction 1 as [|a l _ IH Hall]; constructor; [|done].
    rewrite Forall_forall in Hall. intros Ha. specialize (Hall a Ha). lia. }
  rewrite chainColumns_fst.
  split; [done|]. split; [done|]. split; [|split].
  - unfold chainColumns. intros c group (c' & [= -> ->] & Hc)%list_elem_of_fmap.
    destruct (blocksByColumn_spec blocks) as [_ ->].
    apply Hcols, inColumn_nonempty in Hc.
    by destruct (inColumn c' blocks).
  - rewrite chainColumns_snd. apply concat_inColumn_perm; [by apply Hnd|].
    intros b Hb. apply Hcols. eauto.
  - intros _. rewrite chainColumns_snd.
    destruct (columns_spec (buildChain bs d)) as [Hsorted' Hcols'].
    apply sorted_by_column; [|done|].
    + apply sorted_detected, buildChain_sorted.
    + intros b Hb. apply Hcols'. eauto.
Qed.

(** X29: on the results screen a block over the difficulty carries the
    exclamation mark only on an invalid card; and, the ids being distinct,
    the card of a block on the longest chain is the genesis card or a
    valid-chain card, the genesis card being the first entry of the chain. *)
Theorem BlockCard_status (fuel : nat) (bs : list DetectedBlock) (d : Z)
    (r : ValidationResult) (b : ValidatedBlock)
    (Hids : NoDup (map id bs))
    (Hr : validateBlocks fuel bs d = Some r) (Hb : b ∈ blocks r) :
  (overDifficulty b (difficulty r) = true ->
   statusClass b (isInChain (longestChain r) b) = "invalid"%string)
  /\ (isInChain (longestChain r) b = true ->
      (statusClass b true = "genesis"%string /\ head (longestChain r) = Some (id b))
      \/ statusClass b true = "valid-chain"%string).
Proof.
  unfold validateBlocks in Hr.
  destruct (findLongestChain fuel (buildChain bs d)) as [chain|] eqn:Hchain; [|done].
  injection Hr as <-. simpl in *. split.
  - unfold overDifficulty, statusClass.
    intros [Hng%negb_true_iff Hover]%andb_true_iff. rewrite Hng.
    rewrite buildChain_unfold in Hb.
    destruct (validateAll_elem _ _ _ Hb) as (pre & b0 & post & _ & ->).
    destruct (validateBlock_fields d (validateAll d pre) b0) as (Hdet & Hgen & _).
    rewrite Hgen in Hng. rewrite Hdet in Hover.
    by rewrite validateBlock_valid, Hng, Hover.
  - unfold isInChain. intros [k Hk]%bool_decide_eq_true_1%elem_of_list_to_set%list_elem_of_lookup.
    destruct (longestChain_entries _ _ _ _ Hids Hchain)
      as [->|(g & Hgin & Hgen & Hhead & Hcols)]; [done|].
    destruct (Hcols k _ Hk) as (b' & Hb' & Hid & _ & Hrest).
    assert (b' = b) as ->.
    { eapply (NoDup_map_inj (fun vb : ValidatedBlock => id vb));
        [by apply buildChain_NoDup|done..]. }
    unfold statusClass. destruct k as [|k].
    + left. destruct chain as [|c0 chain]; [done|].
      injection Hk as ->. injection Hhead as Hidg.
      assert (b = g) as ->; [|by rewrite Hgen].
      eapply (NoDup_map_inj (fun vb : ValidatedBlock => id vb));
        [by apply buildChain_NoDup|done..].
    + right. destruct Hrest as [-> ->]; done.
Qed.

Lemma BlockCard_status_witness :
  exists (r : ValidationResult) (b : ValidatedBlock),
    validateBlocks 3 Examples.twoBlocks 25 = Some r
    /\ blocks r !! 1%nat = Some b
    /\ statusClass b true = "valid-chain"%string.
Proof.
  destruct (validateBlocks 3 Examples.twoBlocks 25) as [r|] eqn:Hr;
    [|by vm_compute in Hr].
  destruct (blocks r !! 1%nat) as [b|] eqn:Hb;
    [|vm_compute in Hr; injection Hr as <-; by vm_compute in Hb].
  exists r, b. split; [done|]. split; [done|].
  destruct (BlockCard_status 3 Examples.twoBlocks 25 r b) as [_ H].
  - change (NoDup ["block-0"; "block-1"]%string).
    apply NoDup_cons; split; [|apply NoDup_singleton].
    intros H%list_elem_of_singleton. discriminate.
  - done.
  - by apply list_elem_of_lookup_2 with 1%nat.
  - vm_compute in Hr. injection Hr as <-. vm_compute in Hb. injection Hb as <-.
    destruct H as [[H _]|H]; [vm_compute; reflexivity| |exact H].
    vm_compute in H. discriminate.
Defined.

(** ** The colour counts of the diagnostics *)

Lemma countColors_counts (colors colors' : list (option DiceColor)) :
  (forall c : DiceColor,
     length (filter (fun o => o = Some c) colors)
     = length (filter (fun o => o = Some c) colors')) ->
  countColors colors = countColors colors'.
Proof.
  intros H. unfold countColors. do 3 f_equal.
  apply map_ext. intros c. by rewrite H.
Qed.

(** X30: the colour counts of the diagnostics depend only on how often
    each colour occurs: reordering the colours leaves the text as it is, and
    so does an [undefined] entry, the colour required by a pip count outside
    1 to 6. *)
Theorem countColors_perm (colors colors' : list (option DiceColor))
    (Hperm : colors ≡ₚ colors') :
  countColors colors = countColors colors'
  /\ countColors (None :: colors) = countColors colors'
  /\ forall actual, msgRequiredGot colors actual = msgRequiredGot colors' actual.
Proof.
  assert (H : countColors colors = countColors colors').
  { apply countColors_counts. intros c. by rewrite Hperm. }
  split; [done|]. split.
  - rewrite <-H. apply countColors_counts. intros c. by rewrite filter_cons_False.
  - intros actual. unfold msgRequiredGot. by rewrite H.
Qed.

Lemma countColors_perm_witness :
  countColors [Some red; Some green; Some red] = countColors [Some green; Some red; Some red]
  /\ countColors [None; Some red; Some green; Some red] = "2 red, 1 green"%string.
Proof.
  destruct (countColors_perm [Some red; Some green; Some red]
              [Some green; Some red; Some red]) as (H1 & H2 & _).
  - apply (Permutation_swap (Some green) (Some red) [Some red]).
  - split; [exact H1|]. rewrite H2. vm_compute. reflexivity.
Defined.
